(** * Sequential model of the counted-pointer stack and queue

    The development follows the three C sources: [ccas.h] (the counted
    pointer and its 16-byte compare and swap), the lock-free stack
    ([as_init], [as_push], [as_pop], [as_empty]) and the Michael-Scott
    queue ([aq_init] ... [aq_dequeue]).

    Every C function is a state transformer over an explicit memory.
    An [assert] that fails, an access outside the modelled memory and a
    loop that exhausts its iteration bound are three distinct outcomes.
    Each operation runs atomically: the model describes single-threaded
    traces, and the atomic primitives ([cmpxchg16b], [fetch_and_xor])
    are single steps. *)

From stdpp Require Import gmap list.
From Stdlib Require Import ZArith Lia.

Local Open Scope Z_scope.

(** ** Outcomes and the state monad *)

Inductive outcome (A : Type) : Type :=
| Ret (a : A)     (* the function returned *)
| Abort           (* an assert() failed *)
| Fault           (* access outside the modelled memory, call through NULL *)
| Spin.           (* the loop did not finish within its bound *)
Arguments Ret {A} a.
Arguments Abort {A}.
Arguments Fault {A}.
Arguments Spin {A}.

Definition M (S A : Type) : Type := S → outcome (A * S).

Definition ret {S A} (a : A) : M S A := λ s, Ret (a, s).

Definition bind {S A B} (m : M S A) (k : A → M S B) : M S B :=
  λ s, match m s with
       | Ret (a, s') => k a s'
       | Abort => Abort
       | Fault => Fault
       | Spin => Spin
       end.

#[global] Instance M_ret {S} : MRet (M S) := λ A, @ret S A.
#[global] Instance M_bind {S} : MBind (M S) := λ A B k m, @bind S A B m k.

Definition get {S} : M S S := λ s, Ret (s, s).
Definition assert {S} (b : bool) : M S unit :=
  λ s, if b then Ret (tt, s) else Abort.
Definition fault {S A} : M S A := λ _, Fault.
Definition spin {S A} : M S A := λ _, Spin.

(** ** ccas.h: counted pointers *)

Module Ccas.

(** [struct counted_ptr { void *ptr; int64_t ctr; }].  A pointer is its
    address, [NULL] is 0; [ctr] is the value of the [int64_t]. *)
Record counted_ptr : Type := CP { ptr : Z; ctr : Z }.

Definition NULL : Z := 0.

(** Two's complement 64-bit arithmetic: a value stored in an [int64_t],
    and the same bits read as a [uint64_t]. *)
Definition to_i64 (z : Z) : Z := (z + 2 ^ 63) mod 2 ^ 64 - 2 ^ 63.
Definition to_u64 (z : Z) : Z := z mod 2 ^ 64.
Definition is_i64 (z : Z) : Prop := - 2 ^ 63 ≤ z < 2 ^ 63.

(** [((unsigned long)p & 0x0F) == 0] *)
Definition aligned16 (p : Z) : bool := Z.land p 15 =? 0.

(** [counted_compare_and_swap(mem, old, newptr, inc)].  [mem] is the
    address of the cell and [cell] its content before the instruction;
    the result is the [int] returned and the content afterwards. *)
Definition counted_compare_and_swap
    (mem : Z) (cell old : counted_ptr) (newptr inc : Z)
    : outcome (Z * counted_ptr) :=
  if negb (aligned16 mem) then Abort
  else if negb (0 <? inc) then Abort
  else
    let new := CP newptr (to_i64 (ctr old + inc)) in
    (* lock; cmpxchg16b: RDX:RAX = old.ctr:old.ptr against the 16 bytes *)
    if (ptr cell =? ptr old) && (ctr cell =? ctr old)
    then Ret (1, new)
    else Ret (0, cell).

Definition counted_ptr_eq (a b : counted_ptr) : bool :=
  (ptr a =? ptr b) && (ctr a =? ctr b).

End Ccas.
Import Ccas.

(** ** The lock-free stack *)

Module Stack.

(** Memory seen by the stack functions: the [struct as_head] at address
    [s_addr] (its only field [first] sits at offset 0) and the
    [struct as_entry] objects, each one a plain [next] pointer. *)
Record as_state : Type := AsState {
  s_addr : Z;
  first : counted_ptr;
  entries : gmap Z Z
}.

Definition set_first (c : counted_ptr) : M as_state unit :=
  λ st, Ret (tt, AsState (s_addr st) c (entries st)).

(** [e->next] as an rvalue. *)
Definition load_next (e : Z) : M as_state Z :=
  λ st, match entries st !! e with
        | Some n => Ret (n, st)
        | None => Fault
        end.

(** [e->next = v] *)
Definition store_next (e v : Z) : M as_state unit :=
  λ st, match entries st !! e with
        | Some _ => Ret (tt, AsState (s_addr st) (first st) (<[e := v]> (entries st)))
        | None => Fault
        end.

(** [counted_compare_and_swap(&s->first, old, newptr, inc)] *)
Definition cas_first (old : counted_ptr) (newptr inc : Z) : M as_state Z :=
  λ st, match counted_compare_and_swap (s_addr st) (first st) old newptr inc with
        | Ret (r, c) => Ret (r, AsState (s_addr st) c (entries st))
        | Abort => Abort
        | Fault => Fault
        | Spin => Spin
        end.

Definition as_init : M as_state unit :=
  st ← get;
  assert (aligned16 (s_addr st));;
  set_first (CP NULL 0).

(** One pass through the [do { } while] of [as_push]; the result is the
    value of the loop condition's compare and swap. *)
Definition as_push_iter (e : Z) : M as_state Z :=
  st ← get;
  let oldhead := first st in
  store_next e (ptr oldhead);;
  n ← load_next e;
  assert (negb (n =? e));;
  cas_first oldhead e 1.

Fixpoint as_push (bound : nat) (e : Z) : M as_state unit :=
  match bound with
  | O => spin
  | S bound' =>
      ok ← as_push_iter e;
      if ok =? 0 then as_push bound' e else ret tt
  end.

Fixpoint as_pop (bound : nat) : M as_state Z :=
  match bound with
  | O => spin
  | S bound' =>
      st ← get;
      let r := first st in
      if ptr r =? NULL then ret (ptr r)
      else
        n ← load_next (ptr r);
        ok ← cas_first r n 1;
        if ok =? 0 then as_pop bound' else ret (ptr r)
  end.

Definition as_empty : M as_state bool :=
  st ← get;
  ret (ptr (first st) =? NULL).

End Stack.

(** ** The lock-free queue *)

Module Queue.

(** [struct atomic_q]: the callback and its argument, 48 bytes of padding,
    [head], 48 bytes of padding, [tail]. *)
Record atomic_q : Type := AtomicQ {
  freeer : Z;
  freeer_arg : Z;
  head : counted_ptr;
  tail : counted_ptr
}.

Definition head_offset : Z := 64.
Definition tail_offset : Z := 128.

(** Memory seen by the queue functions: the root at address [mb], the
    [struct atomic_el] objects by address (each one is its [next] field),
    and the calls made through [mb->freeer], most recent first, as pairs
    (argument, element). *)
Record aq_state : Type := AqState {
  mb : Z;
  root : atomic_q;
  els : gmap Z counted_ptr;
  calls : list (Z * Z)
}.

Definition set_root (r : atomic_q) : M aq_state unit :=
  λ st, Ret (tt, AqState (mb st) r (els st) (calls st)).

Definition set_head (c : counted_ptr) : M aq_state unit :=
  st ← get;
  let r := root st in
  set_root (AtomicQ (freeer r) (freeer_arg r) c (tail r)).

Definition set_tail (c : counted_ptr) : M aq_state unit :=
  st ← get;
  let r := root st in
  set_root (AtomicQ (freeer r) (freeer_arg r) (head r) c).

(** [el->next] as an rvalue. *)
Definition load_el (el : Z) : M aq_state counted_ptr :=
  λ st, match els st !! el with
        | Some c => Ret (c, st)
        | None => Fault
        end.

(** [el->next = c] *)
Definition store_el (el : Z) (c : counted_ptr) : M aq_state unit :=
  λ st, match els st !! el with
        | Some _ => Ret (tt, AqState (mb st) (root st) (<[el := c]> (els st)) (calls st))
        | None => Fault
        end.

(** [el->next.ptr = p] and [el->next.ctr = n] *)
Definition store_el_ptr (el p : Z) : M aq_state unit :=
  c ← load_el el; store_el el (CP p (ctr c)).

Definition store_el_ctr (el n : Z) : M aq_state unit :=
  c ← load_el el; store_el el (CP (ptr c) n).

Definition lift_cas (r : outcome (Z * counted_ptr))
    (wr : counted_ptr → M aq_state unit) : M aq_state Z :=
  match r with
  | Ret (ok, c) => wr c;; ret ok
  | Abort => assert false;; ret 0
  | Fault => fault
  | Spin => spin
  end.

(** [counted_compare_and_swap(&mb->head, old, newptr, inc)] *)
Definition cas_head (old : counted_ptr) (newptr inc : Z) : M aq_state Z :=
  st ← get;
  lift_cas (counted_compare_and_swap (mb st + head_offset) (head (root st)) old newptr inc)
           set_head.

(** [counted_compare_and_swap(&mb->tail, old, newptr, inc)] *)
Definition cas_tail (old : counted_ptr) (newptr inc : Z) : M aq_state Z :=
  st ← get;
  lift_cas (counted_compare_and_swap (mb st + tail_offset) (tail (root st)) old newptr inc)
           set_tail.

(** [counted_compare_and_swap(&el->next, old, newptr, inc)] *)
Definition cas_el (el : Z) (old : counted_ptr) (newptr inc : Z) : M aq_state Z :=
  cell ← load_el el;
  lift_cas (counted_compare_and_swap el cell old newptr inc) (store_el el).

(** [mb->freeer(mb->freeer_arg, el)]: the call is recorded; a call through
    a null function pointer faults. *)
Definition call_freeer (el : Z) : M aq_state unit :=
  λ st, if freeer (root st) =? NULL then Fault
        else Ret (tt, AqState (mb st) (root st) (els st)
                              ((freeer_arg (root st), el) :: calls st)).

Definition aq_init (dummyel fr fr_arg : Z) : M aq_state unit :=
  st ← get;
  assert (aligned16 (mb st));;
  assert (aligned16 dummyel);;
  store_el_ptr dummyel NULL;;
  store_el_ctr dummyel (to_i64 (Z.shiftl 1 63));;
  set_root (AtomicQ fr fr_arg (CP dummyel 0) (CP dummyel 0)).

Definition aq_el_init (el : Z) : M aq_state unit :=
  store_el_ctr el 0.

Definition aq_empty : M aq_state bool :=
  st ← get;
  n ← load_el (ptr (head (root st)));
  ret (ptr n =? NULL).

Definition aq_queued : M aq_state Z :=
  st ← get;
  ret (to_i64 (ctr (tail (root st)) - ctr (head (root st)))).

Fixpoint aq_free_loop (bound : nat) (el : Z) {struct bound} : M aq_state unit :=
  if el =? NULL then ret tt
  else match bound with
       | O => spin
       | S bound' =>
           st ← get;
           n ← load_el el;
           ok ← cas_head (head (root st)) (ptr n) 1;
           (if ok =? 0 then ret tt else call_freeer el);;
           st' ← get;
           aq_free_loop bound' (ptr (head (root st')))
       end.

Definition aq_free (bound : nat) : M aq_state unit :=
  st ← get;
  aq_free_loop bound (ptr (head (root st)));;
  st' ← get;
  let r := root st' in
  set_root (AtomicQ NULL (freeer_arg r) (CP NULL 0) (CP NULL 0)).

(** [__sync_fetch_and_xor] of [1UL<<63] into [el->next.ctr] read as a
    [uint64_t], then the test of the value fetched. *)
Definition aq_el_free (el : Z) : M aq_state unit :=
  c ← load_el el;
  let i := to_u64 (ctr c) in
  store_el el (CP (ptr c) (to_i64 (Z.lxor i (Z.shiftl 1 63))));;
  if Z.land i (Z.shiftl 1 63) =? 0 then ret tt else call_freeer el.

(** The [while] that walks to the last element of the chain; the result
    is [last_el] and [count]. *)
Fixpoint aq_chain_last (bound : nat) (last_el count : Z) {struct bound}
    : M aq_state (Z * Z) :=
  n ← load_el last_el;
  if ptr n =? NULL then ret (last_el, count)
  else match bound with
       | O => spin
       | S bound' =>
           assert (negb (last_el =? ptr n));;
           aq_chain_last bound' (ptr n) (to_i64 (count + 1))
       end.

(** The [for (;;)] of [aq_enqueue_multi]; it leaves by [break] with the
    local [tail]. *)
Fixpoint aq_enqueue_loop (bound : nat) (el last_el : Z) : M aq_state counted_ptr :=
  match bound with
  | O => spin
  | S bound' =>
      st ← get;
      let tl := tail (root st) in
      next ← load_el (ptr tl);
      assert (negb (ptr tl =? el));;
      st1 ← get;
      if negb (counted_ptr_eq tl (tail (root st1))) then
        aq_enqueue_loop bound' el last_el
      else if ptr next =? NULL then
        store_el_ctr last_el (ctr tl);;
        ok ← cas_el (ptr tl) next el 1;
        if ok =? 0 then aq_enqueue_loop bound' el last_el else ret tl
      else
        cas_tail tl (ptr next) 1;;
        aq_enqueue_loop bound' el last_el
  end.

Definition aq_enqueue_multi (bound : nat) (el : Z) : M aq_state Z :=
  assert (aligned16 el);;
  c ← load_el el;
  assert (0 =? Z.land (ctr c) (to_i64 (Z.shiftl 1 63)));;
  lc ← aq_chain_last bound el 1;
  tl ← aq_enqueue_loop bound el (fst lc);
  cas_tail tl (fst lc) (snd lc);;
  st ← get;
  ret (to_i64 (ctr (tail (root st)) - ctr (head (root st)))).

Definition aq_enqueue (bound : nat) (el : Z) : M aq_state Z :=
  store_el_ptr el NULL;;
  aq_enqueue_multi bound el.

(** The [for (;;)] of [aq_dequeue]: [None] when it returns [NULL], the
    locals [head] and [next] when it leaves by [break]. *)
Fixpoint aq_dequeue_loop (bound : nat) : M aq_state (option (counted_ptr * counted_ptr)) :=
  match bound with
  | O => spin
  | S bound' =>
      st ← get;
      let hd := head (root st) in
      let tl := tail (root st) in
      next ← load_el (ptr hd);
      st1 ← get;
      if negb (counted_ptr_eq hd (head (root st1))) then aq_dequeue_loop bound'
      else if (ptr next =? NULL) || (ptr hd =? ptr tl) then
        if ptr next =? NULL then ret None
        else cas_tail tl (ptr next) 1;; aq_dequeue_loop bound'
      else
        assert (negb (ptr next =? NULL));;
        ok ← cas_head hd (ptr next) 1;
        if ok =? 0 then aq_dequeue_loop bound' else ret (Some (hd, next))
  end.

Definition aq_dequeue (bound : nat) : M aq_state Z :=
  r ← aq_dequeue_loop bound;
  match r with
  | None => ret NULL
  | Some (hd, next) => aq_el_free (ptr hd);; ret (ptr next)
  end.

End Queue.

(** ** Single-threaded traces of the queue *)

Module QueueTrace.
Import Queue.

(** [chain m p l]: from the element at [p] the [next.ptr] links visit
    exactly the elements [l], the last of which has a null link. *)
Fixpoint chain (m : gmap Z counted_ptr) (p : Z) (l : list Z) : Prop :=
  match l with
  | [] => ∃ c, m !! p = Some (CP NULL c)
  | x :: l' => x ≠ NULL ∧ (∃ c, m !! p = Some (CP x c)) ∧ chain m x l'
  end.

(** What a user thread does with a queue.  For [OpEnqueueMulti] the user
    first links the elements into a null-terminated chain. *)
Inductive op : Type :=
| OpEnqueue (el : Z)
| OpEnqueueMulti (ch : list Z)
| OpDequeue
| OpRelease (el : Z).

Fixpoint link_chain (ch : list Z) : M aq_state unit :=
  match ch with
  | [] => ret tt
  | x :: ch' => store_el_ptr x (hd NULL ch');; link_chain ch'
  end.

Definition run_op (bound : nat) (o : op) : M aq_state Z :=
  match o with
  | OpEnqueue el => aq_enqueue bound el
  | OpEnqueueMulti ch => link_chain ch;; aq_enqueue_multi bound (hd NULL ch)
  | OpDequeue => aq_dequeue bound
  | OpRelease el => aq_el_free el;; ret 0
  end.

(** One executed operation: [mb->head.ptr] when it started, and the value
    it returned. *)
Record event : Type := Event { ev_op : op; ev_head : Z; ev_result : Z }.

Definition run_event (bound : nat) (o : op) : M aq_state event :=
  st ← get;
  r ← run_op bound o;
  ret (Event o (ptr (head (root st))) r).

Fixpoint run (bound : nat) (ops : list op) : M aq_state (list event) :=
  match ops with
  | [] => ret []
  | o :: ops' =>
      e ← run_event bound o;
      evs ← run bound ops';
      ret (e :: evs)
  end.

(** Bookkeeping of who holds which element: the current dummy, the
    elements queued behind it, the elements handed out by [aq_dequeue]
    that the user has not passed to [aq_el_free] yet, and the number of
    elements enqueued so far. *)
Record ghost : Type := Ghost {
  g_dummy : Z;
  g_live : list Z;
  g_pend : list Z;
  g_count : Z
}.

Definition busy (g : ghost) : list Z := g_dummy g :: g_live g ++ g_pend g.

Definition ghost_step (g : ghost) (o : op) : ghost :=
  match o with
  | OpEnqueue el =>
      Ghost (g_dummy g) (g_live g ++ [el]) (g_pend g) (g_count g + 1)
  | OpEnqueueMulti ch =>
      Ghost (g_dummy g) (g_live g ++ ch) (g_pend g) (g_count g + Z.of_nat (length ch))
  | OpDequeue =>
      match g_live g with
      | [] => g
      | x :: l' => Ghost x l' (x :: g_pend g) (g_count g)
      end
  | OpRelease el =>
      Ghost (g_dummy g) (g_live g) (List.filter (λ y, negb (y =? el)) (g_pend g)) (g_count g)
  end.

Definition inb (x : Z) (l : list Z) : bool := existsb (Z.eqb x) l.

Fixpoint nodupb (l : list Z) : bool :=
  match l with
  | [] => true
  | x :: l' => negb (inb x l') && nodupb l'
  end.

Definition allocated (m : gmap Z counted_ptr) (x : Z) : bool :=
  match m !! x with Some _ => true | None => false end.

(** An element the user may enqueue: a real, aligned [struct atomic_el]
    that neither the queue nor a consumer holds. *)
Definition usable (m0 : gmap Z counted_ptr) (g : ghost) (x : Z) : bool :=
  negb (x =? NULL) && aligned16 x && allocated m0 x && negb (inb x (busy g)).

(** A chain the user may enqueue: not empty, no element twice, every
    element usable, and fewer than 2^63 elements enqueued in all, so that
    [tail.ctr], an [int64_t], stays non-negative. *)
Definition chain_ok (m0 : gmap Z counted_ptr) (g : ghost) (ch : list Z) : bool :=
  match ch with [] => false | _ :: _ => true end
  && nodupb ch && forallb (usable m0 g) ch
  && (g_count g + Z.of_nat (length ch) <? 2 ^ 63).

(** The caller's obligations: enqueue only usable elements, release only
    what a dequeue handed out, and that once. *)
Definition op_ok (m0 : gmap Z counted_ptr) (g : ghost) (o : op) : bool :=
  match o with
  | OpEnqueue el => chain_ok m0 g [el]
  | OpEnqueueMulti ch => chain_ok m0 g ch
  | OpDequeue => true
  | OpRelease el => inb el (g_pend g)
  end.

Fixpoint valid (m0 : gmap Z counted_ptr) (g : ghost) (ops : list op) : bool :=
  match ops with
  | [] => true
  | o :: ops' => op_ok m0 g o && valid m0 (ghost_step g o) ops'
  end.

Fixpoint ghost_run (g : ghost) (ops : list op) : ghost :=
  match ops with
  | [] => g
  | o :: ops' => ghost_run (ghost_step g o) ops'
  end.

(** Iterations the loops of one operation may need. *)
Definition op_size (o : op) : nat :=
  match o with
  | OpEnqueueMulti ch => length ch
  | _ => 1
  end.

Definition need (ops : list op) : nat := foldr (λ o n, max (op_size o) n) 1%nat ops.

(** A test scenario: the memory before [aq_init], the arguments of
    [aq_init] and the operations that follow. *)
Record scenario : Type := Scenario {
  sc_mem : gmap Z counted_ptr;
  sc_mb : Z;
  sc_root : atomic_q;
  sc_dummy : Z;
  sc_freeer : Z;
  sc_arg : Z;
  sc_ops : list op
}.

Definition sc_state (sc : scenario) : aq_state :=
  AqState (sc_mb sc) (sc_root sc) (sc_mem sc) [].

Definition play (bound : nat) (sc : scenario) : outcome (list event * aq_state) :=
  (aq_init (sc_dummy sc) (sc_freeer sc) (sc_arg sc);; run bound (sc_ops sc)) (sc_state sc).

Definition ghost0 (sc : scenario) : ghost := Ghost (sc_dummy sc) [] [] 0.

(** Every element starts with its handshake bit clear, as after
    [aq_el_init]. *)
Definition clean (m : gmap Z counted_ptr) : bool :=
  forallb (λ xc, (0 <=? ctr xc.2) && (ctr xc.2 <? 2 ^ 63)) (map_to_list m).

Definition scenario_ok (sc : scenario) : bool :=
  aligned16 (sc_mb sc) && aligned16 (sc_dummy sc)
  && negb (sc_dummy sc =? NULL) && negb (sc_freeer sc =? NULL)
  && allocated (sc_mem sc) (sc_dummy sc) && clean (sc_mem sc)
  && valid (sc_mem sc) (ghost0 sc) (sc_ops sc).

(** The state between two operations of a valid trace. *)
Record inv (m0 : gmap Z counted_ptr) (g : ghost) (st : aq_state) : Prop := {
  inv_mb : aligned16 (mb st) = true;
  inv_freeer : freeer (root st) ≠ NULL;
  inv_dom : ∀ x, is_Some (els st !! x) ↔ is_Some (m0 !! x);
  inv_head : ptr (head (root st)) = g_dummy g;
  inv_tail : ptr (tail (root st)) = List.last (g_live g) (g_dummy g);
  inv_chain : chain (els st) (g_dummy g) (g_live g);
  inv_nodup : NoDup (g_dummy g :: g_live g);
  inv_nodes : ∀ x, x ∈ g_dummy g :: g_live g → x ≠ NULL ∧ aligned16 x = true;
  inv_pend : NoDup (g_pend g);
  inv_pend_live : ∀ x, x ∈ g_pend g → (x ∉ g_live g) ∧ is_Some (els st !! x);
  inv_count : 0 ≤ g_count g < 2 ^ 63;
  inv_live : Z.of_nat (length (g_live g)) ≤ g_count g;
  inv_tctr : ctr (tail (root st)) = g_count g;
  inv_hctr : ctr (head (root st)) = g_count g - Z.of_nat (length (g_live g));
  inv_i64 : ∀ x c, els st !! x = Some c → is_i64 (ctr c);
  inv_bit : ∀ x c, els st !! x = Some c →
      (ctr c < 0 ↔ (x = g_dummy g ∧ x ∉ g_pend g) ∨ (x ≠ g_dummy g ∧ x ∈ g_pend g));
  inv_stamp : ∀ c, els st !! List.last (g_live g) (g_dummy g) = Some c →
      ctr c `mod` 2 ^ 63 ≤ g_count g
}.

(** The abstract queue of the specification: a list, enqueue at the
    back, dequeue at the front.  [fifo_run q ops] is what each operation
    of [ops] returns on the list [q]: the length after an enqueue, the
    front element or [NULL] for a dequeue. *)
Fixpoint fifo_run (q : list Z) (ops : list op) : list Z :=
  match ops with
  | [] => []
  | OpEnqueue el :: ops' =>
      Z.of_nat (length (q ++ [el])) :: fifo_run (q ++ [el]) ops'
  | OpEnqueueMulti ch :: ops' =>
      Z.of_nat (length (q ++ ch)) :: fifo_run (q ++ ch) ops'
  | OpDequeue :: ops' =>
      match q with
      | [] => NULL :: fifo_run [] ops'
      | x :: q' => x :: fifo_run q' ops'
      end
  | OpRelease _ :: ops' => 0 :: fifo_run q ops'
  end.

Definition final_state (o : outcome (list event * aq_state)) : option aq_state :=
  match o with
  | Ret (_, s) => Some s
  | _ => None
  end.

(** The memory with [el->next] overwritten. *)
Definition with_next (st : aq_state) (el : Z) (c : counted_ptr) : aq_state :=
  AqState (mb st) (root st) (<[el := c]> (els st)) (calls st).

(** The abstract queue after [ops]. *)
Fixpoint fifo_after (q : list Z) (ops : list op) : list Z :=
  match ops with
  | [] => q
  | OpEnqueue el :: ops' => fifo_after (q ++ [el]) ops'
  | OpEnqueueMulti ch :: ops' => fifo_after (q ++ ch) ops'
  | OpDequeue :: ops' => fifo_after (List.tl q) ops'
  | OpRelease _ :: ops' => fifo_after q ops'
  end.

(** Counting over a trace: how often the dequeuer advanced [head] past
    [x], how often the user released [x], how often the callback ran on
    [x]. *)
Definition is_pass (x : Z) (e : event) : bool :=
  match ev_op e with
  | OpDequeue => negb (ev_result e =? NULL) && (ev_head e =? x)
  | _ => false
  end.

Definition is_release (x : Z) (e : event) : bool :=
  match ev_op e with
  | OpRelease y => y =? x
  | _ => false
  end.

Definition passed (evs : list event) (x : Z) : nat := length (List.filter (is_pass x) evs).
Definition released (evs : list event) (x : Z) : nat := length (List.filter (is_release x) evs).
Definition fired (st : aq_state) (x : Z) : nat :=
  length (List.filter (λ c, c.2 =? x) (calls st)).

(** The initial dummy needs no release by a user. *)
Definition preset (dummy x : Z) : nat := if x =? dummy then 1%nat else 0%nat.

(** Per element, the two halves of the handshake are level or one of them
    is one step ahead: [lead] when the dequeuer went past an element the
    user still holds, [lag] when the current dummy was already released
    (or is the initial dummy). *)
Definition lead (g : ghost) (x : Z) : nat :=
  if decide (x ≠ g_dummy g ∧ x ∈ g_pend g) then 1%nat else 0%nat.

Definition lag (g : ghost) (x : Z) : nat :=
  if decide (x = g_dummy g ∧ x ∉ g_pend g) then 1%nat else 0%nat.

Definition tally (g : ghost) (P R : Z → nat) (st : aq_state) : Prop :=
  ∀ x, fired st x = Nat.min (P x) (R x) ∧ (P x + lag g x = R x + lead g x)%nat.

(** The first [k] operations of a scenario. *)
Definition truncate (k : nat) (sc : scenario) : scenario :=
  Scenario (sc_mem sc) (sc_mb sc) (sc_root sc) (sc_dummy sc) (sc_freeer sc) (sc_arg sc)
           (take k (sc_ops sc)).

(** The value of [next.ctr] after the xor with [1UL<<63]. *)
Definition flip63 (c : Z) : Z := if c <? 0 then c + 2 ^ 63 else c - 2 ^ 63.

(** [walks m p xs x]: the non-null links from [p] lead through [xs] to [x]. *)
Fixpoint walks (m : gmap Z counted_ptr) (p : Z) (xs : list Z) (x : Z) : Prop :=
  match xs with
  | [] => p = x
  | y :: ys => y ≠ NULL ∧ (∃ c, m !! p = Some (CP y c)) ∧ walks m y ys x
  end.

End QueueTrace.

(** ** Test scenarios *)

Module Examples.
Import Queue QueueTrace.

(** Eight zeroed elements, 16 bytes apart. *)
Definition pool : gmap Z counted_ptr :=
  list_to_map (map (λ a, (a, CP NULL 0)) [16; 32; 48; 64; 80; 96; 112; 128]).

(** The root before [aq_init]: whatever the memory held. *)
Definition garbage : atomic_q := AtomicQ 1 2 (CP 3 4) (CP 5 6).

Definition scenario_of (ops : list op) : scenario :=
  Scenario pool 4096 garbage 16 777 3135106223 ops.

(** A chain of five elements, then five dequeues. *)
Definition sc_chain5 : scenario :=
  scenario_of [OpEnqueueMulti [32; 48; 64; 80; 96];
               OpDequeue; OpDequeue; OpDequeue; OpDequeue; OpDequeue].

(** An element released two dequeues after it was handed out, and
    enqueued again afterwards. *)
Definition sc_late : scenario :=
  scenario_of [OpEnqueue 32; OpEnqueue 48; OpEnqueue 64;
               OpDequeue; OpDequeue; OpDequeue;
               OpRelease 32; OpRelease 64; OpRelease 48;
               OpEnqueue 32; OpDequeue; OpDequeue].

(** Enqueue and dequeue until the queue is empty again. *)
Definition sc_drained : scenario :=
  scenario_of [OpEnqueue 32; OpEnqueue 48; OpDequeue; OpRelease 32; OpDequeue; OpDequeue].

(** A chain 32 -> 56 -> 80 whose middle element is neither aligned nor
    has its handshake bit clear.  The elements are 16 bytes each and lie
    apart: 16..31, 32..47, 56..71 and 80..95. *)
Definition bad_pool : gmap Z counted_ptr :=
  list_to_map [(16, CP NULL 0); (32, CP 56 0); (56, CP 80 (- 2 ^ 63)); (80, CP NULL 0)].

Definition bad_state : aq_state :=
  AqState 4096 (AtomicQ 777 3135106223 (CP 16 0) (CP 16 0))
          (<[16 := CP NULL (- 2 ^ 63)]> bad_pool) [].

End Examples.

(** ** Single-threaded traces of the stack *)

Module StackTrace.
Import Stack.

(** [schain m p l]: [p] is the top of a null-terminated list of the
    entries [l]. *)
Fixpoint schain (m : gmap Z Z) (p : Z) (l : list Z) : Prop :=
  match l with
  | [] => p = NULL
  | x :: l' => p = x ∧ x ≠ NULL ∧ ∃ n, m !! x = Some n ∧ schain m n l'
  end.

Inductive sop : Type :=
| SPush (e : Z)
| SPop.

Definition srun_op (bound : nat) (o : sop) : M as_state Z :=
  match o with
  | SPush e => as_push bound e;; ret 0
  | SPop => as_pop bound
  end.

Fixpoint srun (bound : nat) (ops : list sop) : M as_state (list Z) :=
  match ops with
  | [] => ret []
  | o :: ops' =>
      r ← srun_op bound o;
      rs ← srun bound ops';
      ret (r :: rs)
  end.

(** The abstract stack of the specification: a list with push and pop at
    the front.  [lifo_run l ops] is what each operation returns (0 for a
    push, the top or [NULL] for a pop). *)
Fixpoint lifo_run (l : list Z) (ops : list sop) : list Z :=
  match ops with
  | [] => []
  | SPush e :: ops' => 0 :: lifo_run (e :: l) ops'
  | SPop :: ops' =>
      match l with
      | [] => NULL :: lifo_run [] ops'
      | x :: l' => x :: lifo_run l' ops'
      end
  end.

Fixpoint lifo_final (l : list Z) (ops : list sop) : list Z :=
  match ops with
  | [] => l
  | SPush e :: ops' => lifo_final (e :: l) ops'
  | SPop :: ops' => lifo_final (List.tl l) ops'
  end.

(** The caller pushes real entries that are not on the stack. *)
Fixpoint svalid (m0 : gmap Z Z) (l : list Z) (ops : list sop) : bool :=
  match ops with
  | [] => true
  | SPush e :: ops' =>
      negb (e =? NULL) && match m0 !! e with Some _ => true | None => false end
      && negb (existsb (Z.eqb e) l) && svalid m0 (e :: l) ops'
  | SPop :: ops' => svalid m0 (List.tl l) ops'
  end.

(** How many operations of [ops] change the stack: every push, and every
    pop of a non-empty stack. *)
Fixpoint lifo_moves (l : list Z) (ops : list sop) : Z :=
  match ops with
  | [] => 0
  | SPush e :: ops' => 1 + lifo_moves (e :: l) ops'
  | SPop :: ops' =>
      match l with
      | [] => lifo_moves [] ops'
      | _ :: l' => 1 + lifo_moves l' ops'
      end
  end.

(** A stack test: [as_init] on a stack head in any state, then [ops]. *)
Definition stack_play (bound : nat) (st0 : as_state) (ops : list sop)
    : outcome (list Z * as_state) :=
  (as_init;; srun bound ops) st0.

Definition stack_ok (st0 : as_state) (ops : list sop) : bool :=
  aligned16 (s_addr st0) && svalid (entries st0) [] ops.

(** The state between two operations of a valid trace. *)
Record sinv (m0 : gmap Z Z) (l : list Z) (st : as_state) : Prop := {
  sinv_addr : aligned16 (s_addr st) = true;
  sinv_dom : ∀ x, is_Some (entries st !! x) ↔ is_Some (m0 !! x);
  sinv_ctr : is_i64 (ctr (first st));
  sinv_chain : schain (entries st) (ptr (first st)) l
}.

(** Three entries and a stack head holding garbage. *)
Definition stack0 : as_state :=
  AsState 8192 (CP 77 5) (list_to_map [(16, 1); (32, 2); (48, 3)]).

Definition stack_ops : list sop :=
  [SPush 16; SPush 32; SPush 48; SPop; SPop; SPop; SPop].

End StackTrace.

(** ** An enqueuer between its two compare and swaps *)

Module QueueLag.
Import Queue QueueTrace.

(** [aq_enqueue_multi] up to the [break] of its [for (;;)]: the chain is
    linked behind the last element, [mb->tail] is not moved yet.  The
    result is the locals [tail], [last_el] and [count]. *)
Definition aq_enqueue_multi_link (bound : nat) (el : Z)
    : M aq_state (counted_ptr * (Z * Z)) :=
  assert (aligned16 el);;
  c ← load_el el;
  assert (0 =? Z.land (ctr c) (to_i64 (Z.shiftl 1 63)));;
  lc ← aq_chain_last bound el 1;
  tl ← aq_enqueue_loop bound el (fst lc);
  ret (tl, lc).

(** The rest of [aq_enqueue_multi]: the compare and swap on [mb->tail]
    and the [return]. *)
Definition aq_enqueue_multi_swing (tl : counted_ptr) (lc : Z * Z) : M aq_state Z :=
  cas_tail tl (fst lc) (snd lc);;
  st ← get;
  ret (to_i64 (ctr (tail (root st)) - ctr (head (root st)))).

(** The state with [mb->tail] replaced. *)
Definition with_tail (st : aq_state) (c : counted_ptr) : aq_state :=
  AqState (mb st)
          (AtomicQ (freeer (root st)) (freeer_arg (root st)) (head (root st)) c)
          (els st) (calls st).

(** Where the tail belongs: on the last element, counting every element
    enqueued so far. *)
Definition tail_of (g : ghost) : counted_ptr :=
  CP (List.last (g_live g) (g_dummy g)) (g_count g).

(** A queue whose tail is [n] elements behind the last one: with the
    tail moved to the last element the state is that of a valid trace. *)
Record linv (m0 : gmap Z counted_ptr) (g : ghost) (n : nat) (st : aq_state) : Prop := {
  linv_inv : inv m0 g (with_tail st (tail_of g));
  linv_le : (n ≤ length (g_live g))%nat;
  linv_tail : (g_dummy g :: g_live g) !! (length (g_live g) - n)%nat
              = Some (ptr (tail (root st)));
  linv_tctr : ctr (tail (root st)) = g_count g - Z.of_nat n
}.

(** How far the tail is behind after [ops], when it was [n] behind on
    the abstract queue [q]: an enqueue brings it to the end, a dequeue
    that finds head and tail on the same element moves it one step. *)
Fixpoint lag_after (n : nat) (q : list Z) (ops : list op) : nat :=
  match ops with
  | [] => n
  | OpEnqueue el :: ops' => lag_after 0 (q ++ [el]) ops'
  | OpEnqueueMulti ch :: ops' => lag_after 0 (q ++ ch) ops'
  | OpDequeue :: ops' =>
      match q with
      | [] => lag_after n [] ops'
      | _ :: q' => lag_after (if (n =? length q)%nat then pred n else n) q' ops'
      end
  | OpRelease _ :: ops' => lag_after n q ops'
  end.

(** The elements an operation hands to the queue. *)
Definition op_nodes (o : op) : list Z :=
  match o with
  | OpEnqueue el => [el]
  | OpEnqueueMulti ch => ch
  | _ => []
  end.

Definition enqueued (ops : list op) : list Z := flat_map op_nodes ops.

(** One pass of the [for (;;)] of [aq_dequeue] up to the test that the
    head did not move: the locals [head], [tail] and [next]. *)
Definition aq_dequeue_read : M aq_state (counted_ptr * counted_ptr * counted_ptr) :=
  st ← get;
  next ← load_el (ptr (head (root st)));
  ret (head (root st), tail (root st), next).

(** The rest of that pass with the values read, and the passes that
    follow it. *)
Definition aq_dequeue_loop_rest (bound : nat) (hd tl next : counted_ptr)
    : M aq_state (option (counted_ptr * counted_ptr)) :=
  st1 ← get;
  if negb (counted_ptr_eq hd (head (root st1))) then aq_dequeue_loop bound
  else if (ptr next =? NULL) || (ptr hd =? ptr tl) then
    if ptr next =? NULL then ret None
    else cas_tail tl (ptr next) 1;; aq_dequeue_loop bound
  else
    assert (negb (ptr next =? NULL));;
    ok ← cas_head hd (ptr next) 1;
    if ok =? 0 then aq_dequeue_loop bound else ret (Some (hd, next)).

Definition aq_dequeue_rest (bound : nat) (hd tl next : counted_ptr) : M aq_state Z :=
  r ← aq_dequeue_loop_rest bound hd tl next;
  match r with
  | None => ret NULL
  | Some (hd, next) => aq_el_free (ptr hd);; ret (ptr next)
  end.

(** [aq_enqueue_multi] up to the reads of the first pass of its
    [for (;;)]: the locals [last_el] and [count], [tail] and [next]. *)
Definition aq_enqueue_multi_read (bound : nat) (el : Z)
    : M aq_state ((Z * Z) * (counted_ptr * counted_ptr)) :=
  assert (aligned16 el);;
  c ← load_el el;
  assert (0 =? Z.land (ctr c) (to_i64 (Z.shiftl 1 63)));;
  lc ← aq_chain_last bound el 1;
  st ← get;
  next ← load_el (ptr (tail (root st)));
  ret (lc, (tail (root st), next)).

(** The rest of that pass with the values read, and the passes that
    follow it. *)
Definition aq_enqueue_loop_rest (bound : nat) (el last_el : Z) (tl next : counted_ptr)
    : M aq_state counted_ptr :=
  assert (negb (ptr tl =? el));;
  st1 ← get;
  if negb (counted_ptr_eq tl (tail (root st1))) then
    aq_enqueue_loop bound el last_el
  else if ptr next =? NULL then
    store_el_ctr last_el (ctr tl);;
    ok ← cas_el (ptr tl) next el 1;
    if ok =? 0 then aq_enqueue_loop bound el last_el else ret tl
  else
    cas_tail tl (ptr next) 1;;
    aq_enqueue_loop bound el last_el.

Definition aq_enqueue_multi_rest (bound : nat) (el : Z) (lc : Z * Z)
    (tl next : counted_ptr) : M aq_state Z :=
  tl' ← aq_enqueue_loop_rest bound el (fst lc) tl next;
  aq_enqueue_multi_swing tl' lc.

(** A queue after [aq_free]: the root is cleared, the elements are as
    they were. *)
Definition freed (st : aq_state) : Prop :=
  head (root st) = CP NULL 0 ∧ tail (root st) = CP NULL 0 ∧ freeer (root st) = NULL.

End QueueLag.

(** ** A pop or push between its read and its compare and swap *)

Module StackLag.
Import Stack.

(** One pass of the [do { } while] of [as_pop] up to the compare and
    swap: the locals [ret] and [ret.ptr->next], or [None] at the
    [return] for an empty stack. *)
Definition as_pop_read : M as_state (option (counted_ptr * Z)) :=
  st ← get;
  let r := first st in
  if ptr r =? NULL then ret None
  else n ← load_next (ptr r); ret (Some (r, n)).

(** The compare and swap of [as_pop] with the values read, and what
    follows it. *)
Definition as_pop_cas (bound : nat) (r : counted_ptr) (n : Z) : M as_state Z :=
  ok ← cas_first r n 1;
  if ok =? 0 then as_pop bound else ret (ptr r).

(** The body of the [do { } while] of [as_push]; the result is the local
    [oldhead]. *)
Definition as_push_prepare (e : Z) : M as_state counted_ptr :=
  st ← get;
  let oldhead := first st in
  store_next e (ptr oldhead);;
  n ← load_next e;
  assert (negb (n =? e));;
  ret oldhead.

(** The compare and swap of [as_push] with the head read, and what
    follows it. *)
Definition as_push_cas (bound : nat) (e : Z) (oldhead : counted_ptr) : M as_state unit :=
  ok ← cas_first oldhead e 1;
  if ok =? 0 then as_push bound e else ret tt.

End StackLag.

(** ** aq_test.c: the message pool of the unit test *)

Module AqTest.
Import Ccas Queue.

Definition MAX_BIT : Z := 512.

(** [sizeof(struct mymsg)]: the 16 bytes of [amsg], the [payload] and 8
    bytes of padding. *)
Definition msg_size : Z := 32.

(** The globals of the test and the memory of the queue elements:
    [unsigned long map[8]], [static unsigned long cur_msg], [int
    num_free], and the number of lines printed by [free_atomic_msg]. *)
Record test_state : Type := TestState {
  q : aq_state;
  map : list Z;
  cur_msg : Z;
  num_free : Z;
  errors : nat
}.

Definition to_i32 (z : Z) : Z := (z + 2 ^ 31) mod 2 ^ 32 - 2 ^ 31.

(** [pmap[idx]]; an index outside the array is a stray access. *)
Definition load_word (idx : Z) : M test_state Z :=
  λ st, if idx <? 0 then Fault
        else match map st !! Z.to_nat idx with
             | Some w => Ret (w, st)
             | None => Fault
             end.

Definition store_word (idx w : Z) : M test_state unit :=
  λ st, if idx <? 0 then Fault
        else match map st !! Z.to_nat idx with
             | Some _ => Ret (tt, TestState (q st) (<[Z.to_nat idx := w]> (map st))
                                            (cur_msg st) (num_free st) (errors st))
             | None => Fault
             end.

Definition set_cur_msg (v : Z) : M test_state unit :=
  λ s, Ret (tt, TestState (q s) (map s) v (num_free s) (errors s)).

Definition set_num_free (v : Z) : M test_state unit :=
  λ s, Ret (tt, TestState (q s) (map s) (cur_msg s) v (errors s)).

(** [printf("ERRROR: Received unexpected message\n")] *)
Definition print_error : M test_state unit :=
  λ s, Ret (tt, TestState (q s) (map s) (cur_msg s) (num_free s) (S (errors s))).

(** [1LU << (bit % (sizeof(long) * 8))] *)
Definition bit_mask (bit : Z) : Z := to_u64 (Z.shiftl 1 (bit mod 64)).

(** [setbit(map, bit)]: [__sync_fetch_and_or], then the test of the
    value fetched. *)
Definition setbit (bit : Z) : M test_state bool :=
  let idx := bit / 64 in
  let x := bit_mask bit in
  old ← load_word idx;
  store_word idx (Z.lor old x);;
  ret (negb (Z.land old x =? 0)).

(** [clearbit(map, bit)]: [__sync_fetch_and_and] with [~x]. *)
Definition clearbit (bit : Z) : M test_state bool :=
  let idx := bit / 64 in
  let x := bit_mask bit in
  let y := to_u64 (Z.lnot x) in
  old ← load_word idx;
  store_word idx (Z.land old y);;
  ret (negb (Z.land old x =? 0)).

Definition testbit (bit : Z) : M test_state bool :=
  let idx := bit / 64 in
  let x := bit_mask bit in
  old ← load_word idx;
  ret (negb (Z.land old x =? 0)).

(** The [do { } while] of [get_msg]; the result is [ret]. *)
Fixpoint get_msg_loop (bound : nat) : M test_state Z :=
  match bound with
  | O => spin
  | S bound' =>
      st ← get;
      set_cur_msg (to_u64 (cur_msg st + 1));;
      taken ← setbit (cur_msg st mod MAX_BIT);
      if (taken : bool) then get_msg_loop bound' else ret (cur_msg st mod MAX_BIT)
  end.

(** A queue function run on the element memory of the test. *)
Definition lift_q {A} (m : M aq_state A) : M test_state A :=
  λ st, match m (q st) with
        | Ret (a, s) => Ret (a, TestState s (map st) (cur_msg st) (num_free st) (errors st))
        | Abort => Abort
        | Fault => Fault
        | Spin => Spin
        end.

(** [get_msg()]; [msgs] is the address of the array [msgs], the result
    is [retmsg], which is also the address of its first member [amsg]. *)
Definition get_msg (msgs : Z) (bound : nat) : M test_state Z :=
  r ← get_msg_loop bound;
  let retmsg := msgs + msg_size * r in
  lift_q (aq_el_init retmsg);;
  ret retmsg.

(** [free_atomic_msg(arg, msg)], the callback the test gives to
    [aq_init]; [m - msgs] is the index of the message, for a pointer into
    the array. *)
Definition free_atomic_msg (msgs arg msg : Z) : M test_state unit :=
  st ← get;
  set_num_free (to_i32 (num_free st + 1));;
  assert (arg =? 3135106223);;
  let m := msg in
  was_set ← clearbit (to_u64 ((m - msgs) / msg_size));
  if (was_set : bool) then ret tt else print_error.

(** The bit map as the test means it: is message [b] out? *)
Definition bit_of (m : list Z) (b : Z) : bool :=
  match m !! Z.to_nat (b / 64) with
  | Some w => Z.testbit w (b mod 64)
  | None => false
  end.

(** Eight words of 64 bits. *)
Definition map_ok (m : list Z) : bool :=
  (length m =? 8)%nat && forallb (λ w, (0 <=? w) && (w <? 2 ^ 64)) m.

(** The first [k] slots from [c] on, round the pool, are taken. *)
Definition taken_from (m : list Z) (c : Z) (k : nat) : bool :=
  forallb (λ j, bit_of m ((c + Z.of_nat j) mod MAX_BIT)) (seq 0 k).

End AqTest.

(** * Properties *)

(** ** The state monad *)

Section MonadFacts.
Context {S : Type}.

Lemma bind_Ret {A B} (m : M S A) (k : A → M S B) s a s' :
  m s = Ret (a, s') → (m ≫= k) s = k a s'.
Proof. intros H. unfold mbind, M_bind, bind. now rewrite H. Qed.

Lemma bind_Abort {A B} (m : M S A) (k : A → M S B) s :
  m s = Abort → (m ≫= k) s = Abort.
Proof. intros H. unfold mbind, M_bind, bind. now rewrite H. Qed.

Lemma bind_inv {A B} (m : M S A) (k : A → M S B) s b s' :
  (m ≫= k) s = Ret (b, s') → ∃ a s1, m s = Ret (a, s1) ∧ k a s1 = Ret (b, s').
Proof.
  unfold mbind, M_bind, bind. destruct (m s) as [[a s1]| | |]; try discriminate.
  intros H. eauto.
Qed.

Lemma assert_true (s : S) : assert true s = Ret (tt, s).
Proof. reflexivity. Qed.

End MonadFacts.

(** Run the next monadic step of the goal with a known equation. *)
Ltac mstep H := rewrite (bind_Ret _ _ _ _ _ H).
Ltac mget := rewrite (bind_Ret get _ _ _ _ eq_refl).

(** ** 64-bit arithmetic and alignment *)

Lemma to_i64_range z : is_i64 (to_i64 z).
Proof. unfold is_i64, to_i64. pose proof (Z.mod_pos_bound (z + 2^63) (2^64)). lia. Qed.

Lemma to_i64_id z : is_i64 z → to_i64 z = z.
Proof. unfold is_i64, to_i64. intros H. rewrite Z.mod_small; lia. Qed.

Lemma aligned16_mod p : aligned16 p = true ↔ p mod 16 = 0.
Proof.
  unfold aligned16. rewrite Z.eqb_eq. change 15 with (Z.ones 4).
  rewrite Z.land_ones by lia. reflexivity.
Qed.

Lemma aligned16_add p k : aligned16 p = true → k mod 16 = 0 → aligned16 (p + k) = true.
Proof.
  rewrite !aligned16_mod. intros Hp Hk.
  rewrite Z.add_mod by lia. rewrite Hp, Hk. reflexivity.
Qed.

(** ** The compare and swap *)

Lemma counted_ptr_eq_spec a b :
  counted_ptr_eq a b = true ↔ ptr a = ptr b ∧ ctr a = ctr b.
Proof. unfold counted_ptr_eq. rewrite andb_true_iff, !Z.eqb_eq. reflexivity. Qed.

Lemma counted_ptr_eq_refl a : counted_ptr_eq a a = true.
Proof. apply counted_ptr_eq_spec; auto. Qed.

Lemma cas_hit mem old newptr inc :
  aligned16 mem = true → 0 < inc →
  counted_compare_and_swap mem old old newptr inc
  = Ret (1, CP newptr (to_i64 (ctr old + inc))).
Proof.
  intros Ha Hi. unfold counted_compare_and_swap.
  rewrite Ha. simpl. apply Z.ltb_lt in Hi. rewrite Hi. simpl.
  now rewrite !Z.eqb_refl.
Qed.

Lemma cas_miss mem cell old newptr inc :
  aligned16 mem = true → 0 < inc → cell ≠ old →
  counted_compare_and_swap mem cell old newptr inc = Ret (0, cell).
Proof.
  intros Ha Hi Hne. unfold counted_compare_and_swap.
  rewrite Ha. simpl. apply Z.ltb_lt in Hi. rewrite Hi. simpl.
  destruct (ptr cell =? ptr old) eqn:E1; simpl; [|reflexivity].
  destruct (ctr cell =? ctr old) eqn:E2; simpl; [|reflexivity].
  apply Z.eqb_eq in E1, E2. destruct cell, old; simpl in *; congruence.
Qed.

(** C3.  On an aligned cell and with a positive increment, the compare and
    swap stores (newptr, old.ctr + inc) and returns 1 exactly when the
    cell equals the expected value in both halves; otherwise it returns 0
    and the cell keeps its content.  The sum is the [int64_t] sum, which
    is the mathematical one when that fits.  [counted_ptr_eq] holds
    exactly when both halves agree. *)
Theorem counted_compare_and_swap_contract mem cell old newptr inc :
  aligned16 mem = true → 0 < inc →
  (∃ r cell', counted_compare_and_swap mem cell old newptr inc = Ret (r, cell') ∧
     (r = 1 ∨ r = 0) ∧
     (r = 1 ↔ cell = old) ∧
     (r = 1 → cell' = CP newptr (to_i64 (ctr old + inc))) ∧
     (r = 0 → cell' = cell)) ∧
  (is_i64 (ctr old + inc) → to_i64 (ctr old + inc) = ctr old + inc) ∧
  (∀ a b, counted_ptr_eq a b = true ↔ ptr a = ptr b ∧ ctr a = ctr b).
Proof.
  intros Ha Hi. split; [|split].
  - destruct (decide (ptr cell = ptr old ∧ ctr cell = ctr old)) as [[E1 E2]|Hne].
    + assert (cell = old) as -> by (destruct cell, old; simpl in *; congruence).
      exists 1, (CP newptr (to_i64 (ctr old + inc))).
      rewrite cas_hit by assumption. intuition congruence.
    + assert (cell ≠ old) by (intros ->; tauto).
      exists 0, cell. rewrite cas_miss by assumption. intuition congruence.
  - apply to_i64_id.
  - apply counted_ptr_eq_spec.
Qed.

Lemma counted_compare_and_swap_contract_witness :
  ∃ r cell', counted_compare_and_swap 4160 (CP 32 7) (CP 32 7) 48 1 = Ret (r, cell') ∧
     (r = 1 ↔ CP 32 7 = CP 32 7) ∧ (r = 1 → cell' = CP 48 (to_i64 (7 + 1))).
Proof.
  destruct (counted_compare_and_swap_contract 4160 (CP 32 7) (CP 32 7) 48 1)
    as [(r & c & H & _ & H1 & H2 & _) _]; [reflexivity | lia |].
  exists r, c. auto.
Defined.

(** ** The handshake bit of [next.ctr] *)

Lemma land_bit63_small c : 0 ≤ c < 2 ^ 63 → Z.land c (2 ^ 63) = 0.
Proof.
  intros H. apply Z.bits_inj'. intros n Hn.
  rewrite Z.land_spec, Z.bits_0, Z.pow2_bits_eqb by lia.
  destruct (Z.eqb_spec 63 n) as [<-|]; [|apply andb_false_r].
  rewrite andb_true_r. apply Z.testbit_false; [lia|].
  rewrite Z.div_small by lia. reflexivity.
Qed.

Lemma lxor_bit63_small c : 0 ≤ c < 2 ^ 63 → Z.lxor c (2 ^ 63) = c + 2 ^ 63.
Proof.
  intros H. symmetry. apply Z.add_nocarry_lxor. now apply land_bit63_small.
Qed.

Lemma lxor_bit63_big c : 0 ≤ c < 2 ^ 63 → Z.lxor (c + 2 ^ 63) (2 ^ 63) = c.
Proof.
  intros H. rewrite <- lxor_bit63_small by assumption.
  rewrite Z.lxor_assoc, Z.lxor_nilpotent, Z.lxor_0_r. reflexivity.
Qed.

Lemma land_bit63_big c : 0 ≤ c < 2 ^ 63 → Z.land (c + 2 ^ 63) (2 ^ 63) = 2 ^ 63.
Proof.
  intros H. rewrite <- lxor_bit63_small by assumption.
  apply Z.bits_inj'. intros n Hn.
  rewrite Z.land_spec, Z.lxor_spec, Z.pow2_bits_eqb by lia.
  destruct (Z.eqb_spec 63 n) as [<-|]; [|apply andb_false_r].
  rewrite andb_true_r. replace (Z.testbit c 63) with false; [reflexivity|].
  symmetry. apply Z.testbit_false; [lia|]. rewrite Z.div_small by lia. reflexivity.
Qed.

Lemma fetch_xor_value c :
  is_i64 c →
  to_i64 (Z.lxor (to_u64 c) (Z.shiftl 1 63)) = if c <? 0 then c + 2 ^ 63 else c - 2 ^ 63.
Proof.
  unfold is_i64, to_u64. intros H. change (Z.shiftl 1 63) with (2 ^ 63).
  destruct (Z.ltb_spec c 0).
  - replace (c `mod` 2 ^ 64) with ((c + 2 ^ 63) + 2 ^ 63).
    + rewrite lxor_bit63_big by lia. apply to_i64_id. unfold is_i64. lia.
    + apply Z.mod_unique with (q := -1); lia.
  - rewrite Z.mod_small by lia. rewrite lxor_bit63_small by lia.
    unfold to_i64. replace (c + 2 ^ 63 + 2 ^ 63) with (c + 1 * 2 ^ 64) by lia.
    rewrite Z.mod_add by lia. rewrite Z.mod_small; lia.
Qed.

Lemma fetch_xor_test c :
  is_i64 c → (Z.land (to_u64 c) (Z.shiftl 1 63) =? 0) = (0 <=? c).
Proof.
  unfold is_i64, to_u64. intros H. change (Z.shiftl 1 63) with (2 ^ 63).
  destruct (Z.leb_spec 0 c).
  - rewrite Z.mod_small by lia. rewrite land_bit63_small by lia. reflexivity.
  - replace (c `mod` 2 ^ 64) with ((c + 2 ^ 63) + 2 ^ 63).
    + rewrite land_bit63_big by lia. reflexivity.
    + apply Z.mod_unique with (q := -1); lia.
Qed.

Lemma handshake_assert_test c :
  is_i64 c → (0 =? Z.land c (to_i64 (Z.shiftl 1 63))) = (0 <=? c).
Proof.
  unfold is_i64. intros H.
  change (to_i64 (Z.shiftl 1 63)) with (Z.lnot (Z.ones 63)).
  rewrite <- Z.ldiff_land, Z.ldiff_ones_r by lia.
  rewrite Z.shiftr_div_pow2, Z.shiftl_mul_pow2 by lia.
  destruct (Z.leb_spec 0 c).
  - rewrite Z.div_small by lia. reflexivity.
  - replace (c / 2 ^ 63) with (-1); [reflexivity|].
    apply Z.div_unique with (r := c + 2 ^ 63); lia.
Qed.

Section QueueSteps.
Import Queue QueueTrace.

(** ** Memory primitives of the queue *)

Lemma load_el_ok el c st : els st !! el = Some c → load_el el st = Ret (c, st).
Proof. intros H. unfold load_el. now rewrite H. Qed.

Lemma store_el_ok el c c0 st :
  els st !! el = Some c0 →
  store_el el c st = Ret (tt, AqState (mb st) (root st) (<[el := c]> (els st)) (calls st)).
Proof. intros H. unfold store_el. now rewrite H. Qed.

Lemma store_el_ptr_ok el p c0 st :
  els st !! el = Some c0 →
  store_el_ptr el p st
  = Ret (tt, AqState (mb st) (root st) (<[el := CP p (ctr c0)]> (els st)) (calls st)).
Proof.
  intros H. unfold store_el_ptr. mstep (load_el_ok _ _ _ H).
  now apply store_el_ok with c0.
Qed.

Lemma store_el_ctr_ok el n c0 st :
  els st !! el = Some c0 →
  store_el_ctr el n st
  = Ret (tt, AqState (mb st) (root st) (<[el := CP (ptr c0) n]> (els st)) (calls st)).
Proof.
  intros H. unfold store_el_ctr. mstep (load_el_ok _ _ _ H).
  now apply store_el_ok with c0.
Qed.

Lemma cas_head_ok newptr inc st :
  aligned16 (mb st) = true → 0 < inc →
  cas_head (head (root st)) newptr inc st
  = Ret (1, AqState (mb st)
              (AtomicQ (freeer (root st)) (freeer_arg (root st))
                       (CP newptr (to_i64 (ctr (head (root st)) + inc))) (tail (root st)))
              (els st) (calls st)).
Proof.
  intros Ha Hi. unfold cas_head. mget.
  rewrite cas_hit; [reflexivity| |assumption].
  apply aligned16_add; [assumption|reflexivity].
Qed.

Lemma cas_tail_ok newptr inc st :
  aligned16 (mb st) = true → 0 < inc →
  cas_tail (tail (root st)) newptr inc st
  = Ret (1, AqState (mb st)
              (AtomicQ (freeer (root st)) (freeer_arg (root st))
                       (head (root st)) (CP newptr (to_i64 (ctr (tail (root st)) + inc))))
              (els st) (calls st)).
Proof.
  intros Ha Hi. unfold cas_tail. mget.
  rewrite cas_hit; [reflexivity| |assumption].
  apply aligned16_add; [assumption|reflexivity].
Qed.

Lemma cas_el_ok el c newptr inc st :
  els st !! el = Some c → aligned16 el = true → 0 < inc →
  cas_el el c newptr inc st
  = Ret (1, AqState (mb st) (root st)
              (<[el := CP newptr (to_i64 (ctr c + inc))]> (els st)) (calls st)).
Proof.
  intros H Ha Hi. unfold cas_el. mstep (load_el_ok _ _ _ H).
  rewrite cas_hit by assumption. unfold lift_cas.
  mstep (store_el_ok el (CP newptr (to_i64 (ctr c + inc))) c st H). reflexivity.
Qed.

Lemma call_freeer_ok el st :
  freeer (root st) ≠ NULL →
  call_freeer el st
  = Ret (tt, AqState (mb st) (root st) (els st) ((freeer_arg (root st), el) :: calls st)).
Proof.
  intros H. unfold call_freeer. destruct (Z.eqb_spec (freeer (root st)) NULL); [contradiction|reflexivity].
Qed.

(** [aq_el_free] toggles the handshake bit and calls back when the bit
    was already set. *)
Lemma aq_el_free_ok el c st :
  els st !! el = Some c → is_i64 (ctr c) → freeer (root st) ≠ NULL →
  aq_el_free el st
  = Ret (tt, AqState (mb st) (root st)
               (<[el := CP (ptr c) (flip63 (ctr c))]> (els st))
               (if ctr c <? 0 then (freeer_arg (root st), el) :: calls st else calls st)).
Proof.
  intros H Hc Hf. unfold aq_el_free. mstep (load_el_ok _ _ _ H).
  rewrite fetch_xor_value, fetch_xor_test by assumption. fold (flip63 (ctr c)).
  erewrite bind_Ret by (eapply store_el_ok; eassumption).
  destruct (Z.ltb_spec (ctr c) 0); destruct (Z.leb_spec 0 (ctr c)); try lia.
  - rewrite call_freeer_ok by assumption. reflexivity.
  - reflexivity.
Qed.

(** ** Chains of elements *)

Lemma last_cons_cons (x : Z) (l : list Z) (d : Z) : List.last (x :: l) d = List.last l x.
Proof.
  revert x d. induction l as [|y l IH]; intros x d; [reflexivity|].
  change (List.last (x :: y :: l) d) with (List.last (y :: l) d).
  rewrite !IH. reflexivity.
Qed.

Lemma last_elem_of (l : list Z) (d : Z) : List.last l d ∈ d :: l.
Proof.
  revert d. induction l as [|x l IH]; intros d.
  - apply list_elem_of_here.
  - rewrite last_cons_cons. apply list_elem_of_further, IH.
Qed.

Lemma last_app_cons (l : list Z) (x : Z) (l' : list Z) (d : Z) :
  List.last (l ++ x :: l') d = List.last l' x.
Proof.
  induction l as [|y l IH]; simpl.
  - apply last_cons_cons.
  - destruct (l ++ x :: l') eqn:E; [destruct l; discriminate|]. exact IH.
Qed.

Lemma chain_alloc m p l : chain m p l → ∀ x, x ∈ p :: l → is_Some (m !! x).
Proof.
  revert p. induction l as [|y l IH]; intros p H x Hx; simpl in H.
  - apply list_elem_of_singleton in Hx as ->. destruct H as [c ->]. eauto.
  - destruct H as (_ & [c Hc] & Hl). apply elem_of_cons in Hx as [->|Hx]; [eauto|].
    now apply (IH y).
Qed.

Lemma chain_frame m p l x c :
  x ∉ p :: l → chain m p l → chain (<[x := c]> m) p l.
Proof.
  revert p. induction l as [|y l IH]; intros p Hx H; simpl in *.
  - destruct H as [c0 H]. exists c0. rewrite lookup_insert_ne; [assumption|].
    intros ->. apply Hx, list_elem_of_here.
  - destruct H as (Hy & [c0 Hc] & Hl). split; [assumption|]. split.
    + exists c0. rewrite lookup_insert_ne; [assumption|].
      intros ->. apply Hx, list_elem_of_here.
    + apply IH; [|assumption]. intros Hin. apply Hx. now apply list_elem_of_further.
Qed.

Lemma chain_ext m m' p l :
  (∀ x, x ∈ p :: l → m' !! x = m !! x) → chain m p l → chain m' p l.
Proof.
  revert p. induction l as [|y l IH]; intros p He H; simpl in *.
  - destruct H as [c H]. exists c. rewrite He; [assumption|apply list_elem_of_here].
  - destruct H as (Hy & [c Hc] & Hl). split; [assumption|]. split.
    + exists c. rewrite He; [assumption|apply list_elem_of_here].
    + apply IH; [|assumption]. intros x Hx. apply He. now apply list_elem_of_further.
Qed.


Lemma chain_last_null m p l : chain m p l → ∃ c, m !! List.last l p = Some (CP NULL c).
Proof.
  revert p. induction l as [|x l IH]; intros p H; simpl in H.
  - exact H.
  - destruct H as (_ & _ & Hl). rewrite last_cons_cons. now apply IH.
Qed.

Lemma chain_link m p l el ch c :
  NoDup (p :: l) → (∀ x, x ∈ el :: ch → x ∉ p :: l) → el ≠ NULL →
  chain m p l → chain m el ch →
  chain (<[List.last l p := CP el c]> m) p (l ++ el :: ch).
Proof.
  revert p. induction l as [|y l IH]; intros p Hnd Hdisj Hel Hp Hch.
  - simpl. split; [assumption|]. split.
    + exists c. apply lookup_insert_eq.
    + apply chain_frame; [|assumption]. intros Hin. apply (Hdisj p Hin), list_elem_of_here.
  - simpl in Hp. destruct Hp as (Hy & [c0 Hc0] & Hl).
    rewrite last_cons_cons. apply NoDup_cons in Hnd as [Hpl Hnd].
    change ((y :: l) ++ el :: ch) with (y :: (l ++ el :: ch)).
    split; [assumption|]. split.
    + exists c0. rewrite lookup_insert_ne; [assumption|].
      intros E. apply Hpl. rewrite <- E. apply last_elem_of.
    + apply IH; try assumption.
      intros x Hx Hin. apply (Hdisj x Hx). now apply list_elem_of_further.
Qed.

(** ** The caller's obligations, unpacked *)

Lemma inb_spec x l : inb x l = true ↔ x ∈ l.
Proof.
  unfold inb. rewrite existsb_exists. split.
  - intros (y & Hy & E). apply Z.eqb_eq in E as ->. now apply list_elem_of_In.
  - intros H. exists x. split; [now apply list_elem_of_In|apply Z.eqb_refl].
Qed.

Lemma inb_false x l : inb x l = false ↔ x ∉ l.
Proof. rewrite <- inb_spec. destruct (inb x l); intuition congruence. Qed.

Lemma nodupb_spec l : nodupb l = true → NoDup l.
Proof.
  induction l as [|x l IH]; simpl; intros H; [constructor|].
  apply andb_true_iff in H as [H1 H2]. apply negb_true_iff, inb_false in H1.
  apply NoDup_cons. auto.
Qed.

Lemma allocated_spec (m : gmap Z counted_ptr) x : allocated m x = true ↔ is_Some (m !! x).
Proof.
  unfold allocated. destruct (m !! x); split; intros H; eauto; try discriminate.
  now destruct H.
Qed.

Lemma usable_spec m0 g x :
  usable m0 g x = true →
  x ≠ NULL ∧ aligned16 x = true ∧ is_Some (m0 !! x) ∧ x ∉ busy g.
Proof.
  unfold usable. rewrite !andb_true_iff, !negb_true_iff.
  intros [[[H1 H2] H3] H4]. apply Z.eqb_neq in H1. apply allocated_spec in H3.
  apply inb_false in H4. auto.
Qed.

Lemma chain_ok_spec m0 g ch :
  chain_ok m0 g ch = true →
  ch ≠ [] ∧ NoDup ch ∧
  (∀ x, x ∈ ch → x ≠ NULL ∧ aligned16 x = true ∧ is_Some (m0 !! x) ∧ x ∉ busy g) ∧
  g_count g + Z.of_nat (length ch) < 2 ^ 63.
Proof.
  unfold chain_ok. rewrite !andb_true_iff. intros [[[H1 H2] H3] H4].
  split; [destruct ch; [discriminate|congruence]|].
  split; [now apply nodupb_spec|]. split; [|now apply Z.ltb_lt].
  intros x Hx. apply usable_spec. rewrite forallb_forall in H3.
  apply H3. now apply list_elem_of_In.
Qed.

(** ** Linking a chain and walking it *)

Lemma link_chain_ok ch : ∀ st,
  NoDup ch → (∀ x, x ∈ ch → x ≠ NULL ∧ is_Some (els st !! x)) →
  ∃ m', link_chain ch st = Ret (tt, AqState (mb st) (root st) m' (calls st)) ∧
        (∀ x, x ∉ ch → m' !! x = els st !! x) ∧
        (∀ x, x ∈ ch → ∃ c p, els st !! x = Some c ∧ m' !! x = Some (CP p (ctr c))) ∧
        match ch with [] => True | y :: ch' => chain m' y ch' end.
Proof.
  induction ch as [|y ch IH]; intros st Hnd Hall.
  - exists (els st). split; [destruct st; reflexivity|]. split; [auto|]. split; [|exact I].
    intros x Hx. now apply elem_of_nil in Hx.
  - apply NoDup_cons in Hnd as [Hy Hnd].
    destruct (Hall y (list_elem_of_here _ _)) as [Hy0 [c Hc]].
    set (st1 := AqState (mb st) (root st) (<[y := CP (hd NULL ch) (ctr c)]> (els st)) (calls st)).
    destruct (IH st1 Hnd) as (m' & Hrun & Hout & Hin & Hch).
    { intros x Hx. destruct (Hall x (list_elem_of_further _ _ _ Hx)) as [Hx0 Hx1].
      split; [assumption|]. simpl. rewrite lookup_insert_ne; [assumption|].
      intros ->. contradiction. }
    exists m'. split; [|split; [|split]].
    + simpl. mstep (store_el_ptr_ok y (hd NULL ch) c st Hc). exact Hrun.
    + intros x Hx. apply not_elem_of_cons in Hx as [Hxy Hx].
      rewrite (Hout x Hx). simpl. now rewrite lookup_insert_ne.
    + intros x Hx. apply elem_of_cons in Hx as [->|Hx].
      * exists c, (hd NULL ch). split; [assumption|].
        rewrite (Hout y Hy). simpl. apply lookup_insert_eq.
      * destruct (Hin x Hx) as (c' & p & H1 & H2). exists c', p. split; [|assumption].
        simpl in H1. rewrite lookup_insert_ne in H1; [assumption|]. intros ->. contradiction.
    + assert (Hmy : m' !! y = Some (CP (hd NULL ch) (ctr c))).
      { rewrite (Hout y Hy). simpl. apply lookup_insert_eq. }
      destruct ch as [|z ch']; simpl.
      * exists (ctr c). exact Hmy.
      * split; [apply (Hall z); apply list_elem_of_further, list_elem_of_here|].
        split; [exists (ctr c); exact Hmy|exact Hch].
Qed.

Lemma aq_chain_last_ok ch : ∀ el count bound st,
  chain (els st) el ch → NoDup (el :: ch) → (length ch ≤ bound)%nat →
  - 2 ^ 63 ≤ count → count + Z.of_nat (length ch) < 2 ^ 63 →
  aq_chain_last bound el count st
  = Ret ((List.last ch el, count + Z.of_nat (length ch)), st).
Proof.
  induction ch as [|y ch IH]; intros el count bound st Hch Hnd Hb Hlo Hhi.
  - destruct Hch as [c Hc]. simpl. rewrite Z.add_0_r.
    destruct bound; simpl; mstep (load_el_ok _ _ _ Hc); reflexivity.
  - destruct Hch as (Hy & [c Hc] & Hch). apply NoDup_cons in Hnd as [Hel Hnd].
    destruct bound as [|bound]; [simpl in Hb; lia|].
    simpl aq_chain_last. mstep (load_el_ok _ _ _ Hc). cbn [ptr ctr].
    destruct (Z.eqb_spec y NULL); [contradiction|].
    destruct (Z.eqb_spec el y) as [->|Hne]; [exfalso; apply Hel, list_elem_of_here|].
    simpl negb. rewrite (bind_Ret _ _ _ _ _ (assert_true st)).
    simpl length in *. rewrite to_i64_id by (unfold is_i64; lia).
    rewrite IH; try assumption; try lia.
    rewrite last_cons_cons. do 3 f_equal. lia.
Qed.

Lemma chain_ptr_ext m m' p l :
  (∀ x c, x ∈ p :: l → m !! x = Some c → ∃ c', m' !! x = Some c' ∧ ptr c' = ptr c) →
  chain m p l → chain m' p l.
Proof.
  revert p. induction l as [|y l IH]; intros p He H; simpl in *.
  - destruct H as [c H]. destruct (He p _ (list_elem_of_here _ _) H) as ([p' c'] & H' & E).
    simpl in E. subst p'. eauto.
  - destruct H as (Hy & [c Hc] & Hl). split; [assumption|]. split.
    + destruct (He p _ (list_elem_of_here _ _) Hc) as ([p' c'] & H' & E).
      simpl in E. subst p'. eauto.
    + apply IH; [|assumption]. intros x c0 Hx. apply He. now apply list_elem_of_further.
Qed.

(** ** Running [aq_enqueue_multi] on a quiescent queue *)

Lemma aq_enqueue_loop_run st el last t tc ct cl bound :
  tail (root st) = CP t tc →
  els st !! t = Some (CP NULL ct) → aligned16 t = true →
  t ≠ el → t ≠ last → els st !! last = Some (CP NULL cl) →
  aq_enqueue_loop (S bound) el last st
  = Ret (CP t tc,
         AqState (mb st) (root st)
           (<[t := CP el (to_i64 (ct + 1))]> (<[last := CP NULL tc]> (els st)))
           (calls st)).
Proof.
  intros Htl Ht Hat Hne Hlast Hcl.
  cbn [aq_enqueue_loop]. mget. rewrite Htl. cbn [ptr ctr].
  mstep (load_el_ok _ _ _ Ht).
  destruct (Z.eqb_spec t el); [contradiction|]. cbn [negb].
  rewrite (bind_Ret _ _ _ _ _ (assert_true st)). mget.
  rewrite Htl, counted_ptr_eq_refl. cbn [negb ptr ctr].
  change (NULL =? NULL) with true. cbv iota.
  mstep (store_el_ctr_ok _ tc _ _ Hcl). cbn [ptr ctr].
  match goal with |- (_ ≫= _) ?s = _ => set (st2 := s) end.
  assert (Ht2 : els st2 !! t = Some (CP NULL ct)).
  { subst st2. cbn [els]. now rewrite lookup_insert_ne. }
  mstep (cas_el_ok t _ el 1 st2 Ht2 Hat ltac:(lia)). cbn [ctr].
  reflexivity.
Qed.

Lemma aq_enqueue_multi_run st el ch t tc ct cel bound :
  aligned16 (mb st) = true →
  tail (root st) = CP t tc →
  els st !! t = Some (CP NULL ct) → aligned16 t = true →
  aligned16 el = true → els st !! el = Some cel → is_i64 (ctr cel) → 0 ≤ ctr cel →
  chain (els st) el ch → NoDup (el :: ch) → t ∉ el :: ch →
  (length ch < bound)%nat → 1 + Z.of_nat (length ch) < 2 ^ 63 →
  aq_enqueue_multi bound el st
  = Ret (to_i64 (to_i64 (tc + (1 + Z.of_nat (length ch))) - ctr (head (root st))),
         AqState (mb st)
           (AtomicQ (freeer (root st)) (freeer_arg (root st)) (head (root st))
                    (CP (List.last ch el) (to_i64 (tc + (1 + Z.of_nat (length ch))))))
           (<[t := CP el (to_i64 (ct + 1))]> (<[List.last ch el := CP NULL tc]> (els st)))
           (calls st)).
Proof.
  intros Hmb Htl Ht Hat Hael Hel Hi64 Hpos Hch Hnd Hnt Hb Hlen.
  unfold aq_enqueue_multi. rewrite Hael.
  rewrite (bind_Ret _ _ _ _ _ (assert_true st)).
  mstep (load_el_ok _ _ _ Hel).
  rewrite handshake_assert_test by assumption.
  replace (0 <=? ctr cel) with true by (symmetry; now apply Z.leb_le).
  rewrite (bind_Ret _ _ _ _ _ (assert_true st)).
  rewrite (bind_Ret _ _ _ _ _
             (aq_chain_last_ok ch el 1 bound st Hch Hnd ltac:(lia) ltac:(lia) Hlen)).
  cbn [fst snd].
  destruct bound as [|bound]; [lia|].
  assert (Hne : t ≠ el) by (intros ->; apply Hnt, list_elem_of_here).
  assert (Hlast : t ≠ List.last ch el).
  { intros E. apply Hnt. rewrite E. apply last_elem_of. }
  destruct (chain_last_null _ _ _ Hch) as [cl Hcl].
  mstep (aq_enqueue_loop_run st el _ t tc ct cl bound Htl Ht Hat Hne Hlast Hcl).
  match goal with |- (_ ≫= _) ?s = _ => set (st3 := s) end.
  assert (Htl3 : tail (root st3) = CP t tc) by exact Htl.
  rewrite <- Htl3.
  erewrite bind_Ret; [|apply cas_tail_ok; [exact Hmb|lia]].
  mget. rewrite Htl3. reflexivity.
Qed.

Lemma cas_keeps_bit ct n :
  is_i64 ct → ct `mod` 2 ^ 63 ≤ n → n < 2 ^ 63 - 1 →
  (to_i64 (ct + 1) < 0 ↔ ct < 0).
Proof.
  unfold is_i64. intros H Hlow Hn.
  destruct (Z.lt_ge_cases ct 0).
  - assert (ct `mod` 2 ^ 63 = ct + 2 ^ 63) by (symmetry; apply Z.mod_unique with (q := -1); lia).
    rewrite to_i64_id by (unfold is_i64; lia). lia.
  - rewrite Z.mod_small in Hlow by lia.
    rewrite to_i64_id by (unfold is_i64; lia). lia.
Qed.

Lemma step_enqueue_multi m0 g st ch bound :
  inv m0 g st → chain_ok m0 g ch = true → (length ch ≤ bound)%nat →
  ∃ st', run_op bound (OpEnqueueMulti ch) st
           = Ret (Z.of_nat (length (g_live g ++ ch)), st') ∧
         inv m0 (ghost_step g (OpEnqueueMulti ch)) st' ∧
         calls st' = calls st ∧ freeer_arg (root st') = freeer_arg (root st).
Proof.
  intros Hinv Hok Hb.
  destruct (chain_ok_spec _ _ _ Hok) as (Hne & Hnd & Hall & Hcnt).
  destruct ch as [|el ch']; [congruence|]. clear Hne.
  destruct g as [d l pend cnt]. destruct Hinv as [Imb Ifr Idom Ihead Itail Ichain Ind Inodes Ipend Ipl Icount Ilive Itctr Ihctr Ii64 Ibit Istamp]. cbn [g_dummy g_live g_pend g_count] in *.
  destruct (link_chain_ok (el :: ch') st Hnd) as (m1 & Hrun & Hout & Hin & Hch).
  { intros x Hx. destruct (Hall x Hx) as (? & ? & HS & ?). split; [assumption|].
    now apply Idom. }
  destruct (chain_last_null _ _ _ Ichain) as [ct Hct].
  set (t := List.last l d) in *.
  assert (Ht_in : t ∈ d :: l) by apply last_elem_of.
  assert (Hbusy : ∀ x, x ∈ d :: l → x ∉ el :: ch').
  { intros x Hx Hx'. destruct (Hall x Hx') as (_ & _ & _ & Hnb). apply Hnb.
    unfold busy. cbn [g_dummy g_live g_pend].
    apply elem_of_cons in Hx as [->|Hx]; [apply list_elem_of_here|].
    apply list_elem_of_further, elem_of_app. now left. }
  assert (Hpendch : ∀ x, x ∈ pend → x ∉ el :: ch').
  { intros x Hx Hx'. destruct (Hall x Hx') as (_ & _ & _ & Hnb). apply Hnb.
    unfold busy. cbn [g_dummy g_live g_pend].
    apply list_elem_of_further, elem_of_app. now right. }
  assert (Ht_nch : t ∉ el :: ch') by now apply Hbusy.
  assert (Hm1t : m1 !! t = Some (CP NULL ct)) by now rewrite Hout.
  destruct (Hin el (list_elem_of_here _ _)) as (cel & pel & Hcel & Hm1el).
  assert (Hcel_pos : 0 ≤ ctr cel).
  { destruct (Z.lt_ge_cases (ctr cel) 0) as [Hneg|]; [|assumption].
    apply (Ibit _ _ Hcel) in Hneg. exfalso.
    destruct (Hall el (list_elem_of_here _ _)) as (_ & _ & _ & Hnb).
    apply Hnb. unfold busy. cbn [g_dummy g_live g_pend].
    destruct Hneg as [[-> _]|[_ Hp]]; [apply list_elem_of_here|].
    apply list_elem_of_further, elem_of_app. now right. }
  destruct (tail (root st)) as [tp tc] eqn:Etl. cbn [ptr ctr] in *. subst tp tc.
  set (st1 := AqState (mb st) (root st) m1 (calls st)).
  assert (Hnd' : NoDup (el :: ch')) by exact Hnd.
  destruct (Inodes t Ht_in) as [Ht0 Hta].
  destruct (Hall el (list_elem_of_here _ _)) as (Hel0 & Hela & _ & _).
  pose proof (aq_enqueue_multi_run st1 el ch' t cnt ct (CP pel (ctr cel)) bound
                Imb Etl Hm1t Hta Hela Hm1el (Ii64 _ _ Hcel) Hcel_pos Hch Hnd'
                Ht_nch ltac:(simpl in Hb; lia) ltac:(simpl in Hcnt; lia)) as Hmulti.
  set (lastn := List.last ch' el) in *.
  assert (Hlast_in : lastn ∈ el :: ch') by apply last_elem_of.
  set (m3 := <[t := CP el (to_i64 (ct + 1))]> (<[lastn := CP NULL cnt]> m1)) in *.
  assert (Htlast : t ≠ lastn) by (intros E; apply Ht_nch; rewrite E; exact Hlast_in).
  assert (F1 : ∀ x, x ≠ t → x ∉ el :: ch' → m3 !! x = els st !! x).
  { intros x Hxt Hx. subst m3. rewrite lookup_insert_ne by congruence.
    rewrite lookup_insert_ne by (intros <-; contradiction). now apply Hout. }
  assert (F2 : m3 !! t = Some (CP el (to_i64 (ct + 1)))) by apply lookup_insert_eq.
  assert (F3 : ∀ x, x ∈ el :: ch' → ∃ c p, els st !! x = Some c ∧
                 m3 !! x = Some (CP p (if decide (x = lastn) then cnt else ctr c))).
  { intros x Hx. destruct (Hin x Hx) as (c & p & Hc & Hm1).
    assert (x ≠ t) by (intros ->; contradiction).
    subst m3. rewrite lookup_insert_ne by congruence.
    destruct (decide (x = lastn)) as [->|Hxl].
    - exists c, NULL. split; [assumption|]. apply lookup_insert_eq.
    - exists c, p. split; [assumption|]. rewrite lookup_insert_ne by congruence. exact Hm1. }
  assert (Hlen : Z.of_nat (length (el :: ch')) = 1 + Z.of_nat (length ch'))
    by (simpl length; lia).
  exists (AqState (mb st)
            (AtomicQ (freeer (root st)) (freeer_arg (root st)) (head (root st))
                     (CP lastn (to_i64 (cnt + (1 + Z.of_nat (length ch'))))))
            m3 (calls st)).
  split; [|split].
  - unfold run_op. mstep Hrun. fold st1. cbn [hd]. rewrite Hmulti.
    subst st1. cbn [mb root els calls]. rewrite Ihctr. do 2 f_equal.
    rewrite length_app, Nat2Z.inj_add, Hlen.
    rewrite (to_i64_id (cnt + _)) by (unfold is_i64; lia).
    rewrite to_i64_id by (unfold is_i64; lia). lia.
  - constructor; cbn [g_dummy g_live g_pend g_count ghost_step mb root els calls
                       freeer freeer_arg head tail ptr ctr]; try assumption.
    + (* dom *)
      intros x. rewrite <- Idom.
      destruct (decide (x = t)) as [->|Hxt].
      { rewrite F2, Hct. split; eauto. }
      destruct (decide (x ∈ el :: ch')) as [Hx|Hx].
      { destruct (F3 x Hx) as (c & p & -> & ->). split; eauto. }
      now rewrite F1.
    + (* tail *) fold lastn. symmetry. apply last_app_cons.
    + (* chain *)
      apply chain_link; try assumption.
      * intros x Hx Hx'. exact (Hbusy x Hx' Hx).
      * apply chain_ext with (m := els st); [|assumption].
        intros x Hx. rewrite lookup_insert_ne
          by (intros E; apply (Hbusy x Hx); rewrite <- E; exact Hlast_in).
        apply Hout. now apply Hbusy.
      * apply chain_ptr_ext with (m := m1); [|assumption].
        intros x c Hx Hc. destruct (decide (x = lastn)) as [->|Hxl].
        -- rewrite lookup_insert_eq. eexists. split; [reflexivity|].
           destruct (chain_last_null _ _ _ Hch) as [cl Hcl]. fold lastn in Hcl.
           rewrite Hcl in Hc. injection Hc as <-. reflexivity.
        -- rewrite lookup_insert_ne by congruence. eauto.
    + (* nodup *)
      change (NoDup ((d :: l) ++ el :: ch')). apply NoDup_app. auto.
    + (* nodes *)
      intros x Hx. change (x ∈ (d :: l) ++ el :: ch') in Hx.
      apply elem_of_app in Hx as [Hx|Hx]; [now apply Inodes|].
      destruct (Hall x Hx) as (? & ? & _). auto.
    + (* pend *)
      intros x Hx. destruct (Ipl x Hx) as [Hxl Hxs]. split.
      * intros Hx'. apply elem_of_app in Hx' as [Hx'|Hx']; [contradiction|].
        now apply (Hpendch x Hx).
      * destruct (decide (x = t)) as [->|Hxt]; [rewrite F2; eauto|].
        rewrite F1; [assumption|assumption|now apply Hpendch].
    + lia.
    + rewrite length_app. lia.
    + rewrite to_i64_id; [lia|unfold is_i64; lia].
    + rewrite length_app. lia.
    + (* i64 *)
      intros x c Hc. destruct (decide (x = t)) as [->|Hxt].
      { rewrite F2 in Hc. injection Hc as <-. apply to_i64_range. }
      destruct (decide (x ∈ el :: ch')) as [Hx|Hx].
      { destruct (F3 x Hx) as (c0 & p & Hc0 & Hc3). rewrite Hc3 in Hc. injection Hc as <-.
        cbn [ctr]. destruct (decide (x = lastn)); [unfold is_i64; lia|]. eauto. }
      rewrite F1 in Hc by assumption. eauto.
    + (* bit *)
      intros x c Hc. destruct (decide (x = t)) as [->|Hxt].
      { rewrite F2 in Hc. injection Hc as <-. cbn [ctr].
        rewrite <- (Ibit _ _ Hct). cbn [ctr].
        apply cas_keeps_bit with (n := cnt); [apply (Ii64 _ _ Hct)| |lia].
        apply (Istamp _ Hct). }
      destruct (decide (x ∈ el :: ch')) as [Hx|Hx].
      { destruct (F3 x Hx) as (c0 & p & Hc0 & Hc3). rewrite Hc3 in Hc. injection Hc as <-.
        cbn [ctr]. destruct (decide (x = lastn)); [|now apply Ibit].
        split; [lia|]. intros Hr. exfalso.
        destruct (Hall x Hx) as (_ & _ & _ & Hnb). apply Hnb. unfold busy.
        cbn [g_dummy g_live g_pend].
        destruct Hr as [[-> _]|[_ Hp]]; [apply list_elem_of_here|].
        apply list_elem_of_further, elem_of_app. now right. }
      rewrite F1 in Hc by assumption. now apply Ibit.
    + (* stamp *)
      intros c. rewrite last_app_cons. fold lastn.
      destruct (F3 lastn Hlast_in) as (c0 & p & Hc0 & Hc3). rewrite Hc3.
      intros Hc. injection Hc as <-. cbn [ctr]. rewrite decide_True by reflexivity.
      rewrite Z.mod_small; lia.
  - split; reflexivity.
Qed.

(** ** Running [aq_dequeue] and [aq_el_free] on a quiescent queue *)

Lemma aq_dequeue_empty_run st c bound :
  els st !! ptr (head (root st)) = Some c → ptr c = NULL →
  aq_dequeue (S bound) st = Ret (NULL, st).
Proof.
  intros Hc Hn. unfold aq_dequeue. cbn [aq_dequeue_loop].
  assert (Hloop : aq_dequeue_loop (S bound) st = Ret (None, st)).
  { cbn [aq_dequeue_loop]. mget. mstep (load_el_ok _ _ _ Hc). mget.
    rewrite counted_ptr_eq_refl, Hn. reflexivity. }
  mstep Hloop. reflexivity.
Qed.

Lemma aq_dequeue_loop_run st d hc x c bound :
  aligned16 (mb st) = true →
  head (root st) = CP d hc → els st !! d = Some (CP x c) →
  x ≠ NULL → d ≠ ptr (tail (root st)) →
  aq_dequeue_loop (S bound) st
  = Ret (Some (CP d hc, CP x c),
         AqState (mb st)
           (AtomicQ (freeer (root st)) (freeer_arg (root st))
                    (CP x (to_i64 (hc + 1))) (tail (root st)))
           (els st) (calls st)).
Proof.
  intros Hmb Hhd Hd Hx Hdt. cbn [aq_dequeue_loop]. mget.
  rewrite Hhd. cbn [ptr ctr]. mstep (load_el_ok _ _ _ Hd). mget.
  rewrite Hhd, counted_ptr_eq_refl. cbn [negb ptr ctr].
  destruct (Z.eqb_spec x NULL); [contradiction|].
  destruct (Z.eqb_spec d (ptr (tail (root st)))); [contradiction|].
  cbn [orb negb]. rewrite (bind_Ret _ _ _ _ _ (assert_true st)).
  rewrite <- Hhd. rewrite (bind_Ret _ _ _ _ _ (cas_head_ok x 1 st Hmb ltac:(lia))).
  rewrite Hhd. reflexivity.
Qed.

Lemma flip63_range c : is_i64 c → is_i64 (flip63 c).
Proof. unfold is_i64, flip63. destruct (Z.ltb_spec c 0); lia. Qed.

Lemma flip63_sign c : is_i64 c → (flip63 c < 0 ↔ 0 ≤ c).
Proof. unfold is_i64, flip63. destruct (Z.ltb_spec c 0); lia. Qed.

Lemma flip63_low c : flip63 c `mod` 2 ^ 63 = c `mod` 2 ^ 63.
Proof.
  unfold flip63. destruct (c <? 0).
  - replace (c + 2 ^ 63) with (c + 1 * 2 ^ 63) by lia. apply Z.mod_add. lia.
  - replace (c - 2 ^ 63) with (c + (-1) * 2 ^ 63) by lia. apply Z.mod_add. lia.
Qed.

Lemma step_dequeue_empty m0 g st bound :
  inv m0 g st → g_live g = [] → (1 ≤ bound)%nat →
  run_op bound OpDequeue st = Ret (NULL, st).
Proof.
  intros Hinv Hl Hb. destruct bound as [|bound]; [lia|].
  destruct Hinv as [Imb Ifr Idom Ihead Itail Ichain Ind Inodes Ipend Ipl Icount Ilive
                    Itctr Ihctr Ii64 Ibit Istamp].
  rewrite Hl in Ichain. destruct Ichain as [c Hc]. rewrite <- Ihead in Hc.
  now apply aq_dequeue_empty_run with (c := CP NULL c).
Qed.

Lemma step_dequeue m0 g st x l' bound :
  inv m0 g st → g_live g = x :: l' → (1 ≤ bound)%nat →
  ∃ st', run_op bound OpDequeue st = Ret (x, st') ∧
         inv m0 (ghost_step g OpDequeue) st' ∧
         calls st' = (if decide (g_dummy g ∈ g_pend g) then calls st
                      else (freeer_arg (root st), g_dummy g) :: calls st) ∧
         freeer_arg (root st') = freeer_arg (root st).
Proof.
  intros Hinv Hl Hb. destruct bound as [|bound]; [lia|].
  destruct g as [d l pend cnt]. cbn [g_dummy g_live g_pend g_count] in *. subst l.
  destruct Hinv as [Imb Ifr Idom Ihead Itail Ichain Ind Inodes Ipend Ipl Icount Ilive
                    Itctr Ihctr Ii64 Ibit Istamp].
  cbn [g_dummy g_live g_pend g_count] in *.
  destruct Ichain as (Hx0 & [c Hc] & Hch).
  apply NoDup_cons in Ind as [Hdl Hnd].
  rewrite last_cons_cons in Itail, Istamp.
  assert (Hdt : d ≠ ptr (tail (root st))).
  { rewrite Itail. intros E. apply Hdl. rewrite E. apply last_elem_of. }
  destruct (head (root st)) as [hp hc] eqn:Ehd. cbn [ptr ctr] in *. subst hp.
  pose proof (aq_dequeue_loop_run st d hc x c bound Imb Ehd Hc Hx0 Hdt) as Hloop.
  set (st2 := AqState (mb st)
                (AtomicQ (freeer (root st)) (freeer_arg (root st))
                         (CP x (to_i64 (hc + 1))) (tail (root st)))
                (els st) (calls st)) in *.
  pose proof (aq_el_free_ok d (CP x c) st2 Hc (Ii64 _ _ Hc) Ifr) as Hfree.
  cbn [ptr ctr mb root els calls freeer_arg] in Hfree.
  assert (Hsign : c < 0 ↔ d ∉ pend).
  { rewrite (Ibit _ _ Hc). cbn [ctr]. intuition congruence. }
  exists (AqState (mb st)
            (AtomicQ (freeer (root st)) (freeer_arg (root st))
                     (CP x (to_i64 (hc + 1))) (tail (root st)))
            (<[d := CP x (flip63 c)]> (els st))
            (if c <? 0 then (freeer_arg (root st), d) :: calls st else calls st)).
  split; [|split].
  - unfold run_op, aq_dequeue. mstep Hloop. cbn [ptr]. mstep Hfree. reflexivity.
  - assert (Hxd : x ≠ d) by (intros ->; apply Hdl, list_elem_of_here).
    apply NoDup_cons in Hnd as [Hxl' Hnd'].
    assert (Hxpend : x ∉ pend).
    { intros Hx. apply (Ipl x Hx). apply list_elem_of_here. }
    constructor; cbn [g_dummy g_live g_pend g_count ghost_step mb root els calls
                       freeer freeer_arg head tail ptr ctr]; try assumption; try reflexivity.
    + intros y. rewrite <- Idom. destruct (decide (y = d)) as [->|Hyd].
      * rewrite lookup_insert_eq, Hc. split; eauto.
      * now rewrite lookup_insert_ne.
    + apply chain_frame; [|assumption]. intros Hin. apply Hdl. exact Hin.
    + apply NoDup_cons. auto.
    + intros y Hy. apply Inodes. now apply list_elem_of_further.
    + apply NoDup_cons. auto.
    + intros y Hy. split.
      * apply elem_of_cons in Hy as [->|Hy]; [assumption|].
        intros Hy'. apply (Ipl y Hy). now apply list_elem_of_further.
      * assert (is_Some (els st !! y)) as [cy Hcy].
        { apply elem_of_cons in Hy as [->|Hy]; [|now apply Ipl].
          apply (chain_alloc _ _ _ Hch). apply list_elem_of_here. }
        destruct (decide (y = d)) as [->|Hyd]; [rewrite lookup_insert_eq; eauto|].
        rewrite lookup_insert_ne by congruence. eauto.
    + simpl length in Ilive. lia.
    + simpl length in Ihctr, Ilive. rewrite to_i64_id; [lia|unfold is_i64; lia].
    + intros y cy. destruct (decide (y = d)) as [->|Hyd].
      * rewrite lookup_insert_eq. intros [= <-]. cbn [ctr].
        apply flip63_range. apply (Ii64 _ _ Hc).
      * rewrite lookup_insert_ne by congruence. apply Ii64.
    + intros y cy. destruct (decide (y = d)) as [->|Hyd].
      * rewrite lookup_insert_eq. intros [= <-]. cbn [ctr].
        rewrite (flip63_sign c (Ii64 _ _ Hc)), elem_of_cons.
        destruct (Z.lt_ge_cases c 0); destruct (decide (d ∈ pend));
          intuition (try congruence; try lia).
      * rewrite lookup_insert_ne by congruence. intros Hcy.
        rewrite (Ibit _ _ Hcy), elem_of_cons.
        destruct (decide (y = x)) as [->|Hyx]; intuition congruence.
    + intros cy. rewrite lookup_insert_ne.
      * apply Istamp.
      * intros E. apply Hdl. rewrite E. apply last_elem_of.
  - split; [|reflexivity].
    cbn [calls]. destruct (decide (d ∈ pend)) as [Hd|Hd];
      destruct (Z.ltb_spec c 0); try reflexivity; exfalso; intuition lia.
Qed.

Lemma filter_ne_elem_of (el : Z) (l : list Z) y :
  y ∈ List.filter (λ z, negb (z =? el)) l ↔ y ∈ l ∧ y ≠ el.
Proof.
  rewrite !list_elem_of_In, List.filter_In, negb_true_iff, Z.eqb_neq. reflexivity.
Qed.

Lemma step_release m0 g st el bound :
  inv m0 g st → inb el (g_pend g) = true →
  ∃ st', run_op bound (OpRelease el) st = Ret (0, st') ∧
         inv m0 (ghost_step g (OpRelease el)) st' ∧
         calls st' = (if decide (el = g_dummy g) then calls st
                      else (freeer_arg (root st), el) :: calls st) ∧
         freeer_arg (root st') = freeer_arg (root st).
Proof.
  intros Hinv Hel. apply inb_spec in Hel.
  destruct g as [d l pend cnt]. cbn [g_dummy g_live g_pend g_count] in *.
  destruct Hinv as [Imb Ifr Idom Ihead Itail Ichain Ind Inodes Ipend Ipl Icount Ilive
                    Itctr Ihctr Ii64 Ibit Istamp].
  cbn [g_dummy g_live g_pend g_count] in *.
  destruct (Ipl el Hel) as [Hell [[p c] Hc]].
  pose proof (aq_el_free_ok el (CP p c) st Hc (Ii64 _ _ Hc) Ifr) as Hfree.
  cbn [ptr ctr] in Hfree.
  assert (Hsign : c < 0 ↔ el ≠ d).
  { rewrite (Ibit _ _ Hc). cbn [ctr]. intuition congruence. }
  eexists. split; [|split].
  - unfold run_op. mstep Hfree. reflexivity.
  - constructor; cbn [g_dummy g_live g_pend g_count ghost_step mb root els calls
                       freeer freeer_arg head tail ptr ctr]; try assumption.
    + intros y. rewrite <- Idom. destruct (decide (y = el)) as [->|Hy].
      * rewrite lookup_insert_eq, Hc. split; eauto.
      * now rewrite lookup_insert_ne.
    + apply chain_ptr_ext with (m := els st); [|assumption].
      intros y cy Hy Hcy. destruct (decide (y = el)) as [->|Hne].
      * rewrite lookup_insert_eq. eexists. split; [reflexivity|].
        rewrite Hc in Hcy. injection Hcy as <-. reflexivity.
      * rewrite lookup_insert_ne by congruence. eauto.
    + apply NoDup_ListNoDup, List.NoDup_filter, NoDup_ListNoDup, Ipend.
    + intros y Hy. apply filter_ne_elem_of in Hy as [Hy Hne].
      destruct (Ipl y Hy) as [H1 [cy H2]]. split; [assumption|].
      rewrite lookup_insert_ne by congruence. eauto.
    + intros y cy. destruct (decide (y = el)) as [->|Hy].
      * rewrite lookup_insert_eq. intros [= <-]. cbn [ctr].
        apply flip63_range, (Ii64 _ _ Hc).
      * rewrite lookup_insert_ne by congruence. apply Ii64.
    + intros y cy. rewrite filter_ne_elem_of. destruct (decide (y = el)) as [->|Hy].
      * rewrite lookup_insert_eq. intros [= <-]. cbn [ctr].
        rewrite (flip63_sign c (Ii64 _ _ Hc)).
        destruct (Z.lt_ge_cases c 0); destruct (decide (el = d));
          intuition (try congruence; try lia).
      * rewrite lookup_insert_ne by congruence. intros Hcy.
        rewrite (Ibit _ _ Hcy). intuition congruence.
    + intros cy. destruct (decide (List.last l d = el)) as [E|Hne].
      * rewrite E, lookup_insert_eq. intros [= <-]. cbn [ctr].
        rewrite flip63_low. apply (Istamp (CP p c)). now rewrite E.
      * rewrite lookup_insert_ne by congruence. apply Istamp.
  - split; [|reflexivity].
    cbn [calls]. destruct (decide (el = d)) as [Hd|Hd];
      destruct (Z.ltb_spec c 0); try reflexivity; exfalso; intuition lia.
Qed.

End QueueSteps.

Section QueueInit.
Import Queue QueueTrace.

(** ** From [aq_init] along a valid trace *)

Lemma clean_spec m x c : clean m = true → m !! x = Some c → 0 ≤ ctr c < 2 ^ 63.
Proof.
  unfold clean. rewrite forallb_forall. intros H Hc.
  specialize (H (x, c)). cbn [snd] in H.
  assert (Hin : In (x, c) (map_to_list m)).
  { apply list_elem_of_In. now apply elem_of_map_to_list. }
  apply H in Hin. apply andb_true_iff in Hin as [H1 H2].
  apply Z.leb_le in H1. apply Z.ltb_lt in H2. lia.
Qed.

Lemma aq_init_run st dummy fr arg c :
  aligned16 (mb st) = true → aligned16 dummy = true → els st !! dummy = Some c →
  aq_init dummy fr arg st
  = Ret (tt, AqState (mb st) (AtomicQ fr arg (CP dummy 0) (CP dummy 0))
               (<[dummy := CP NULL (- 2 ^ 63)]> (els st)) (calls st)).
Proof.
  intros Hmb Hd Hc. unfold aq_init. mget. rewrite Hmb, Hd.
  rewrite (bind_Ret _ _ _ _ _ (assert_true st)).
  rewrite (bind_Ret _ _ _ _ _ (assert_true st)).
  mstep (store_el_ptr_ok dummy NULL c st Hc).
  erewrite bind_Ret; [|apply store_el_ctr_ok; cbn [els]; apply lookup_insert_eq].
  cbn [ptr ctr mb root els calls]. rewrite insert_insert_eq. reflexivity.
Qed.

Lemma aq_init_inv sc :
  scenario_ok sc = true →
  ∃ st, aq_init (sc_dummy sc) (sc_freeer sc) (sc_arg sc) (sc_state sc) = Ret (tt, st) ∧
        inv (sc_mem sc) (ghost0 sc) st ∧ calls st = [] ∧
        freeer_arg (root st) = sc_arg sc.
Proof.
  unfold scenario_ok. rewrite !andb_true_iff, !negb_true_iff, !Z.eqb_neq.
  intros [[[[[[Hmb Hd] Hd0] Hfr] Hal] Hcl] Hv].
  apply allocated_spec in Hal as [c Hc].
  eexists. split; [apply aq_init_run with (c := c); assumption|].
  split; [|split; reflexivity].
  constructor; cbn [ghost0 g_dummy g_live g_pend g_count mb root els calls sc_state
                    freeer freeer_arg head tail ptr ctr List.last length];
    try assumption; try reflexivity; try lia.
  - intros x. destruct (decide (x = sc_dummy sc)) as [->|Hx].
    + rewrite lookup_insert_eq, Hc. split; eauto.
    + now rewrite lookup_insert_ne.
  - exists (- 2 ^ 63). apply lookup_insert_eq.
  - apply NoDup_singleton.
  - intros x Hx. apply list_elem_of_singleton in Hx as ->. auto.
  - constructor.
  - intros x Hx. now apply elem_of_nil in Hx.
  - intros x cx. destruct (decide (x = sc_dummy sc)) as [->|Hx].
    + rewrite lookup_insert_eq. intros [= <-]. cbn [ctr]. unfold is_i64. lia.
    + rewrite lookup_insert_ne by congruence. intros Hcx.
      pose proof (clean_spec _ _ _ Hcl Hcx). unfold is_i64. lia.
  - intros x cx. destruct (decide (x = sc_dummy sc)) as [->|Hx].
    + rewrite lookup_insert_eq. intros [= <-]. cbn [ctr].
      split; [intros _; left; split; [reflexivity|apply not_elem_of_nil]|lia].
    + rewrite lookup_insert_ne by congruence. intros Hcx.
      pose proof (clean_spec _ _ _ Hcl Hcx). split; [lia|].
      intros [[? _]|[_ Hin]]; [contradiction|now apply elem_of_nil in Hin].
  - intros cx. rewrite lookup_insert_eq. intros [= <-]. reflexivity.
Qed.

Lemma run_op_enqueue_single bound el st :
  run_op bound (OpEnqueue el) st = run_op bound (OpEnqueueMulti [el]) st.
Proof.
  unfold run_op, aq_enqueue. cbn [link_chain hd].
  unfold mbind, M_bind, bind. destruct (store_el_ptr el NULL st) as [[[] s]| | |]; reflexivity.
Qed.

End QueueInit.

Section Tally.
Import Queue QueueTrace.

(** ** Counting callbacks along a trace *)

Lemma fired_same st st' : calls st' = calls st → ∀ x, fired st' x = fired st x.
Proof. intros E x. unfold fired. now rewrite E. Qed.

Lemma fired_cons st st' a y :
  calls st' = (a, y) :: calls st →
  ∀ x, fired st' x = ((if decide (y = x) then 1 else 0) + fired st x)%nat.
Proof.
  intros E x. unfold fired. rewrite E. cbn [List.filter snd].
  destruct (Z.eqb_spec y x); case_decide; try contradiction; reflexivity.
Qed.

Lemma tally_enqueue g l' cnt' P R st st' :
  tally g P R st → calls st' = calls st →
  tally (Ghost (g_dummy g) l' (g_pend g) cnt') (λ x, (P x + 0)%nat) (λ x, (R x + 0)%nat) st'.
Proof.
  intros H E x. destruct (H x) as [H1 H2].
  rewrite (fired_same _ _ E). unfold lag, lead in *. cbn [g_dummy g_pend] in *.
  rewrite !Nat.add_0_r. auto.
Qed.

Lemma tally_dequeue d x l l' pend cnt P R st st' :
  tally (Ghost d l pend cnt) P R st → x ≠ d → x ∉ pend →
  calls st' = (if decide (d ∈ pend) then calls st
               else (freeer_arg (root st), d) :: calls st) →
  tally (Ghost x l' (x :: pend) cnt)
        (λ y, (P y + if decide (d = y) then 1 else 0)%nat) (λ y, (R y + 0)%nat) st'.
Proof.
  intros H Hxd Hxp E y. destruct (H y) as [H1 H2].
  unfold lag, lead in *. cbn [g_dummy g_pend] in *.
  rewrite Nat.add_0_r.
  assert (Hf : fired st' y = ((if decide (d = y ∧ d ∉ pend) then 1 else 0) + fired st y)%nat).
  { destruct (decide (d ∈ pend)) as [Hd|Hd].
    - rewrite (fired_same _ _ E). rewrite decide_False by tauto. reflexivity.
    - rewrite (fired_cons _ _ _ _ E).
      destruct (decide (d = y)); [rewrite decide_True by tauto|rewrite decide_False by tauto];
        reflexivity. }
  rewrite Hf. clear Hf E H.
  repeat case_decide; try lia; exfalso;
    rewrite ?elem_of_cons in *; intuition (subst; tauto).
Qed.

Lemma tally_release d l pend cnt el P R st st' :
  tally (Ghost d l pend cnt) P R st → el ∈ pend →
  calls st' = (if decide (el = d) then calls st
               else (freeer_arg (root st), el) :: calls st) →
  tally (Ghost d l (List.filter (λ y, negb (y =? el)) pend) cnt)
        (λ y, (P y + 0)%nat) (λ y, (R y + if decide (el = y) then 1 else 0)%nat) st'.
Proof.
  intros H Hel E y. destruct (H y) as [H1 H2].
  unfold lag, lead in *. cbn [g_dummy g_pend] in *.
  rewrite Nat.add_0_r.
  assert (Hf : fired st' y = ((if decide (el = y ∧ el ≠ d) then 1 else 0) + fired st y)%nat).
  { destruct (decide (el = d)) as [Hd|Hd].
    - rewrite (fired_same _ _ E). rewrite decide_False by tauto. reflexivity.
    - rewrite (fired_cons _ _ _ _ E).
      destruct (decide (el = y)); [rewrite decide_True by tauto|rewrite decide_False by tauto];
        reflexivity. }
  rewrite Hf. clear Hf E H.
  assert (Hiff : ∀ z, z ∈ List.filter (λ z, negb (z =? el)) pend ↔ z ∈ pend ∧ z ≠ el)
    by (intros z; apply filter_ne_elem_of).
  repeat case_decide; try lia; exfalso;
    rewrite ?Hiff in *; intuition (subst; tauto).
Qed.

Lemma tally_ext g P R P' R' st :
  (∀ x, P x = P' x) → (∀ x, R x = R' x) → tally g P R st → tally g P' R' st.
Proof. intros HP HR H x. rewrite <- HP, <- HR. apply H. Qed.

End Tally.

Section ValidTrace.
Import Queue QueueTrace.

(** ** One operation of a valid trace *)

Lemma fifo_run_cons g o ops :
  fifo_run (g_live g) (o :: ops)
  = fifo_run (g_live g) [o] ++ fifo_run (g_live (ghost_step g o)) ops.
Proof.
  destruct o; cbn [fifo_run ghost_step g_live]; try reflexivity.
  destruct (g_live g) eqn:E; cbn [g_live]; rewrite ?E; reflexivity.
Qed.

Lemma need_ge_1 ops : (1 ≤ need ops)%nat.
Proof. induction ops as [|o ops IH]; cbn [need foldr]; [lia|]. fold (need ops). lia. Qed.

Lemma step_op m0 g st o bound :
  inv m0 g st → op_ok m0 g o = true → (op_size o ≤ bound)%nat → (1 ≤ bound)%nat →
  ∃ e st', run_event bound o st = Ret (e, st') ∧
    inv m0 (ghost_step g o) st' ∧
    ev_op e = o ∧
    fifo_run (g_live g) [o] = [ev_result e] ∧
    freeer_arg (root st') = freeer_arg (root st) ∧
    ∀ P R, tally g P R st →
      tally (ghost_step g o) (λ x, (P x + Nat.b2n (is_pass x e))%nat)
            (λ x, (R x + Nat.b2n (is_release x e))%nat) st'.
Proof.
  intros Hinv Hok Hsz Hb. unfold run_event.
  destruct o as [el|ch| |el]; cbn [op_ok op_size] in *.
  - (* aq_enqueue *)
    destruct (step_enqueue_multi m0 g st [el] bound Hinv Hok Hsz)
      as (st' & Hrun & Hinv' & Hc & Ha).
    rewrite <- run_op_enqueue_single in Hrun.
    eexists _, st'. split; [mget; mstep Hrun; reflexivity|].
    split; [exact Hinv'|]. split; [reflexivity|]. split; [reflexivity|].
    split; [exact Ha|].
    intros P R HT. apply (tally_enqueue g _ _ P R st st' HT Hc).
  - (* aq_enqueue_multi *)
    destruct (step_enqueue_multi m0 g st ch bound Hinv Hok Hsz)
      as (st' & Hrun & Hinv' & Hc & Ha).
    eexists _, st'. split; [mget; mstep Hrun; reflexivity|].
    split; [exact Hinv'|]. split; [reflexivity|]. split; [reflexivity|].
    split; [exact Ha|].
    intros P R HT. apply (tally_enqueue g _ _ P R st st' HT Hc).
  - (* aq_dequeue *)
    destruct (g_live g) as [|x l'] eqn:El.
    + pose proof (step_dequeue_empty m0 g st bound Hinv El Hb) as Hrun.
      eexists _, st. split; [mget; mstep Hrun; reflexivity|].
      cbn [ghost_step]. rewrite El.
      split; [exact Hinv|]. split; [reflexivity|]. split; [reflexivity|].
      split; [reflexivity|].
      intros P R HT. eapply tally_ext; [| |exact HT]; intros x; cbn; lia.
    + destruct (step_dequeue m0 g st x l' bound Hinv El Hb)
        as (st' & Hrun & Hinv' & Hc & Ha).
      eexists _, st'. split; [mget; mstep Hrun; reflexivity|].
      split; [exact Hinv'|]. split; [reflexivity|]. split; [reflexivity|].
      split; [exact Ha|].
      intros P R HT. cbn [ghost_step]. rewrite El.
      assert (Hd : ptr (head (root st)) = g_dummy g) by apply Hinv.
      assert (Hx0 : x ≠ NULL).
      { destruct Hinv as [_ _ _ _ _ Hch _ _ _ _ _ _ _ _ _ _ _]. rewrite El in Hch. apply Hch. }
      assert (Hxd : x ≠ g_dummy g).
      { destruct Hinv as [_ _ _ _ _ _ Hnd _ _ _ _ _ _ _ _ _ _]. rewrite El in Hnd.
        apply NoDup_cons in Hnd as [Hnd _]. intros ->. apply Hnd, list_elem_of_here. }
      assert (Hxp : x ∉ g_pend g).
      { destruct Hinv as [_ _ _ _ _ _ _ _ _ Hpl _ _ _ _ _ _ _]. intros Hx.
        apply (Hpl x Hx). rewrite El. apply list_elem_of_here. }
      destruct g as [d l pend cnt]. cbn [g_dummy g_live g_pend g_count] in *.
      eapply tally_ext; [| |exact (tally_dequeue d x l l' pend cnt P R st st' HT Hxd Hxp Hc)].
      * intros y. cbn [is_pass ev_op ev_result ev_head]. rewrite Hd.
        destruct (Z.eqb_spec x NULL); [contradiction|]. cbn [negb andb].
        destruct (Z.eqb_spec d y); destruct (decide (d = y)); try contradiction; reflexivity.
      * intros y. reflexivity.
  - (* aq_el_free by the user *)
    destruct (step_release m0 g st el bound Hinv Hok) as (st' & Hrun & Hinv' & Hc & Ha).
    eexists _, st'. split; [mget; mstep Hrun; reflexivity|].
    split; [exact Hinv'|]. split; [reflexivity|]. split; [reflexivity|].
    split; [exact Ha|].
    intros P R HT. apply inb_spec in Hok.
    destruct g as [d l pend cnt]. cbn [g_dummy g_live g_pend g_count ghost_step] in *.
    eapply tally_ext; [| |exact (tally_release d l pend cnt el P R st st' HT Hok Hc)].
    + intros y. reflexivity.
    + intros y. cbn [is_release ev_op].
      destruct (Z.eqb_spec el y); destruct (decide (el = y)); try contradiction; reflexivity.
Qed.

(** ** A whole valid trace *)

Lemma run_valid m0 ops : ∀ g st bound P R,
  inv m0 g st → valid m0 g ops = true → (need ops ≤ bound)%nat → tally g P R st →
  ∃ evs st', run bound ops st = Ret (evs, st') ∧
    inv m0 (ghost_run g ops) st' ∧
    map ev_op evs = ops ∧
    map ev_result evs = fifo_run (g_live g) ops ∧
    freeer_arg (root st') = freeer_arg (root st) ∧
    tally (ghost_run g ops) (λ x, (P x + passed evs x)%nat)
          (λ x, (R x + released evs x)%nat) st'.
Proof.
  induction ops as [|o ops IH]; intros g st bound P R Hinv Hv Hb HT.
  - exists [], st. split; [reflexivity|]. split; [exact Hinv|].
    split; [reflexivity|]. split; [reflexivity|]. split; [reflexivity|].
    eapply tally_ext; [| |exact HT]; intros x; cbn; lia.
  - cbn [valid] in Hv. apply andb_true_iff in Hv as [Hok Hv].
    cbn [need foldr] in Hb. fold (need ops) in Hb. pose proof (need_ge_1 ops).
    destruct (step_op m0 g st o bound Hinv Hok ltac:(lia) ltac:(lia))
      as (e & st1 & Hrun & Hinv1 & Hop & Hres & Ha & HT1).
    destruct (IH (ghost_step g o) st1 bound _ _ Hinv1 Hv ltac:(lia) (HT1 P R HT))
      as (evs & st' & Hrun' & Hinv' & Hops & Hress & Ha' & HT').
    exists (e :: evs), st'. split; [|split; [|split; [|split; [|split]]]].
    + cbn [run]. mstep Hrun. mstep Hrun'. reflexivity.
    + exact Hinv'.
    + cbn [map]. now rewrite Hop, Hops.
    + rewrite fifo_run_cons, Hres. cbn [map app]. now rewrite Hress.
    + now rewrite Ha'.
    + eapply tally_ext; [| |exact HT']; intros x; unfold passed, released;
        cbn [List.filter]; [destruct (is_pass x e)|destruct (is_release x e)];
        cbn [Nat.b2n length]; lia.
Qed.

End ValidTrace.

(** ** Scenarios *)

Section Scenarios.
Import Queue QueueTrace Examples.

Lemma valid_take m0 ops : ∀ g k, valid m0 g ops = true → valid m0 g (take k ops) = true.
Proof.
  induction ops as [|o ops IH]; intros g k Hv; destruct k; try reflexivity.
  cbn [valid take] in *. apply andb_true_iff in Hv as [-> Hv]. now apply IH.
Qed.

Lemma need_take ops k : (need (take k ops) ≤ need ops)%nat.
Proof.
  revert k. induction ops as [|o ops IH]; intros k.
  - destruct k; cbn [take]; lia.
  - destruct k; cbn [take need foldr]; fold (need ops).
    + pose proof (need_ge_1 ops). lia.
    + fold (need (take k ops)). specialize (IH k). lia.
Qed.

Lemma scenario_ok_truncate sc k : scenario_ok sc = true → scenario_ok (truncate k sc) = true.
Proof.
  unfold scenario_ok. cbn [truncate sc_mb sc_dummy sc_freeer sc_mem sc_ops ghost0].
  rewrite !andb_true_iff. intros [H Hv]. split; [exact H|].
  now apply valid_take.
Qed.

Lemma tally_init sc st :
  calls st = [] → tally (ghost0 sc) (λ _, 0%nat) (preset (sc_dummy sc)) st.
Proof.
  intros Hc x. unfold fired, lag, lead, preset. rewrite Hc.
  cbn [List.filter length ghost0 g_dummy g_pend]. split; [reflexivity|].
  destruct (Z.eqb_spec x (sc_dummy sc)).
  - rewrite decide_True by (split; [assumption|apply not_elem_of_nil]).
    rewrite decide_False by tauto. reflexivity.
  - rewrite decide_False by tauto.
    rewrite decide_False by (intros [_ H]; now apply elem_of_nil in H). reflexivity.
Qed.

Lemma play_valid sc bound :
  scenario_ok sc = true → (need (sc_ops sc) ≤ bound)%nat →
  ∃ evs st, play bound sc = Ret (evs, st) ∧
    inv (sc_mem sc) (ghost_run (ghost0 sc) (sc_ops sc)) st ∧
    map ev_op evs = sc_ops sc ∧
    map ev_result evs = fifo_run [] (sc_ops sc) ∧
    freeer_arg (root st) = sc_arg sc ∧
    tally (ghost_run (ghost0 sc) (sc_ops sc)) (passed evs)
          (λ x, (preset (sc_dummy sc) x + released evs x)%nat) st.
Proof.
  intros Hok Hb. destruct (aq_init_inv sc Hok) as (st1 & Hinit & Hinv & Hc & Ha).
  assert (Hv : valid (sc_mem sc) (ghost0 sc) (sc_ops sc) = true).
  { unfold scenario_ok in Hok. now apply andb_true_iff in Hok as [_ ?]. }
  destruct (run_valid _ _ _ _ bound _ _ Hinv Hv Hb (tally_init sc st1 Hc))
    as (evs & st & Hrun & Hinv' & Hops & Hres & Ha' & HT).
  exists evs, st. split; [|split; [|split; [|split; [|split]]]]; try assumption.
  - unfold play. mstep Hinit. exact Hrun.
  - now rewrite Ha'.
Qed.

End Scenarios.

(** ** The release handshake *)

Section Handshake.
Import Queue QueueTrace Examples.

Lemma bit63_sign c : is_i64 c → Z.testbit c 63 = (c <? 0).
Proof.
  unfold is_i64. intros H. destruct (Z.ltb_spec c 0).
  - apply Z.testbit_true; [lia|].
    replace (c / 2 ^ 63) with (-1); [reflexivity|].
    apply Z.div_unique with (r := c + 2 ^ 63); lia.
  - apply Z.testbit_false; [lia|]. rewrite Z.div_small by lia. reflexivity.
Qed.

Lemma flip63_bit63 c : is_i64 c → Z.testbit (flip63 c) 63 = negb (Z.testbit c 63).
Proof.
  intros H. rewrite !bit63_sign by (try apply flip63_range; assumption).
  pose proof (flip63_sign c H). unfold is_i64 in H.
  destruct (Z.ltb_spec (flip63 c) 0); destruct (Z.ltb_spec c 0); try reflexivity; lia.
Qed.

Lemma flip63_low_bits c n : 0 ≤ n < 63 → Z.testbit (flip63 c) n = Z.testbit c n.
Proof.
  intros Hn. rewrite <- (Z.mod_pow2_bits_low (flip63 c) 63 n) by lia.
  rewrite flip63_low. apply Z.mod_pow2_bits_low. lia.
Qed.

Lemma aq_el_free_handshake st el c :
  els st !! el = Some c → is_i64 (ctr c) → freeer (root st) ≠ NULL →
  ∃ c', aq_el_free el st
        = Ret (tt, AqState (mb st) (root st) (<[el := CP (ptr c) c']> (els st))
                     (if Z.testbit (ctr c) 63
                      then (freeer_arg (root st), el) :: calls st else calls st)) ∧
        Z.testbit c' 63 = negb (Z.testbit (ctr c) 63) ∧
        ∀ n, 0 ≤ n < 63 → Z.testbit c' n = Z.testbit (ctr c) n.
Proof.
  intros Hc Hi Hf. exists (flip63 (ctr c)). split; [|split].
  - rewrite (aq_el_free_ok el c st Hc Hi Hf), bit63_sign by assumption. reflexivity.
  - now apply flip63_bit63.
  - intros n Hn. now apply flip63_low_bits.
Qed.

Lemma flip63_involutive c : is_i64 c → flip63 (flip63 c) = c.
Proof. unfold is_i64, flip63. intros H. repeat case_match; lia. Qed.

Lemma aq_el_free_twice st el c :
  els st !! el = Some c → is_i64 (ctr c) → freeer (root st) ≠ NULL →
  Z.testbit (ctr c) 63 = false →
  ∃ st1, aq_el_free el st = Ret (tt, st1) ∧ calls st1 = calls st ∧
         aq_el_free el st1
         = Ret (tt, AqState (mb st) (root st) (<[el := c]> (els st))
                      ((freeer_arg (root st), el) :: calls st)).
Proof.
  intros Hc Hi Hf Hbit. rewrite bit63_sign in Hbit by assumption.
  eexists. split; [apply (aq_el_free_ok el c st Hc Hi Hf)|].
  rewrite Hbit. split; [reflexivity|].
  erewrite aq_el_free_ok;
    [|cbn [els]; apply lookup_insert_eq|cbn [ctr]; now apply flip63_range|exact Hf].
  cbn [ptr ctr mb root els calls]. rewrite insert_insert_eq, flip63_involutive by assumption.
  pose proof (flip63_sign (ctr c) Hi) as Hs. apply Z.ltb_ge in Hbit.
  destruct (Z.ltb_spec (flip63 (ctr c)) 0); [|lia]. destruct c; reflexivity.
Qed.

(** C1.  In every valid single-threaded trace, at every point between two
    operations (after the first [k] of them), the number of callbacks on
    an element is the smaller of two counts: how often the dequeuer
    advanced [head] past it, and how often the user released it (the
    initial dummy counting as released once, its bit 63 being set by
    [aq_init]).  So the callback runs once per stay in the queue and not
    before both parties have called [aq_el_free].  Each [aq_el_free]
    toggles bit 63 of [next.ctr], leaves the other bits, and calls back
    exactly when the bit was set before; of two calls on an element whose
    bit is clear, the second one calls back. *)
Theorem release_callback_exactly_once sc bound k :
  scenario_ok sc = true → (need (sc_ops sc) ≤ bound)%nat →
  (∃ st1, aq_init (sc_dummy sc) (sc_freeer sc) (sc_arg sc) (sc_state sc) = Ret (tt, st1) ∧
          ∃ c, els st1 !! sc_dummy sc = Some (CP NULL c) ∧ Z.testbit c 63 = true) ∧
  (∀ st el c, els st !! el = Some c → is_i64 (ctr c) → freeer (root st) ≠ NULL →
     ∃ c', aq_el_free el st
           = Ret (tt, AqState (mb st) (root st) (<[el := CP (ptr c) c']> (els st))
                        (if Z.testbit (ctr c) 63
                         then (freeer_arg (root st), el) :: calls st else calls st)) ∧
           Z.testbit c' 63 = negb (Z.testbit (ctr c) 63) ∧
           ∀ n, 0 ≤ n < 63 → Z.testbit c' n = Z.testbit (ctr c) n) ∧
  (∀ st el c, els st !! el = Some c → is_i64 (ctr c) → freeer (root st) ≠ NULL →
     Z.testbit (ctr c) 63 = false →
     ∃ st1, aq_el_free el st = Ret (tt, st1) ∧ calls st1 = calls st ∧
            aq_el_free el st1
            = Ret (tt, AqState (mb st) (root st) (<[el := c]> (els st))
                         ((freeer_arg (root st), el) :: calls st))) ∧
  ∃ evs st, play bound (truncate k sc) = Ret (evs, st) ∧
    map ev_op evs = take k (sc_ops sc) ∧
    ∀ x, fired st x
         = Nat.min (passed evs x) (preset (sc_dummy sc) x + released evs x).
Proof.
  intros Hok Hb. split; [|split; [|split]].
  - unfold scenario_ok in Hok. rewrite !andb_true_iff in Hok.
    destruct Hok as [[[[[[Hmb Hd] _] _] Hal] _] _].
    apply allocated_spec in Hal as [c Hc].
    eexists. split; [apply aq_init_run with (c := c); assumption|].
    exists (- 2 ^ 63). split; [apply lookup_insert_eq|reflexivity].
  - apply aq_el_free_handshake.
  - apply aq_el_free_twice.
  - destruct (play_valid (truncate k sc) bound (scenario_ok_truncate sc k Hok))
      as (evs & st & Hplay & _ & Hops & _ & _ & HT).
    { pose proof (need_take (sc_ops sc) k). cbn [truncate sc_ops]. lia. }
    exists evs, st. split; [exact Hplay|]. split; [exact Hops|].
    intros x. apply (HT x).
Qed.

Lemma release_callback_exactly_once_witness :
  scenario_ok sc_late = true ∧ (need (sc_ops sc_late) ≤ 2)%nat ∧
  ∃ evs st, play 2 (truncate 9 sc_late) = Ret (evs, st) ∧
    map ev_op evs = take 9 (sc_ops sc_late) ∧
    ∀ x, fired st x = Nat.min (passed evs x) (preset (sc_dummy sc_late) x + released evs x).
Proof.
  split; [reflexivity|]. split; [vm_compute; lia|].
  destruct (release_callback_exactly_once sc_late 2 9) as (_ & _ & _ & H);
    [reflexivity|vm_compute; lia|exact H].
Defined.

End Handshake.

(** ** FIFO order *)

Section FifoOrder.
Import Queue QueueTrace Examples.

Lemma ghost_run_live g ops : g_live (ghost_run g ops) = fifo_after (g_live g) ops.
Proof.
  revert g. induction ops as [|o ops IH]; intros g; [reflexivity|].
  cbn [ghost_run]. rewrite IH. destruct o; cbn [ghost_step g_live fifo_after]; try reflexivity.
  destruct (g_live g) eqn:E; cbn [g_live List.tl]; rewrite ?E; reflexivity.
Qed.

Lemma fifo_run_app ops1 : ∀ q ops2,
  fifo_run q (ops1 ++ ops2) = fifo_run q ops1 ++ fifo_run (fifo_after q ops1) ops2.
Proof.
  induction ops1 as [|o ops1 IH]; intros q ops2; [reflexivity|].
  destruct o; cbn [app fifo_run fifo_after]; [| |destruct q|]; rewrite IH; reflexivity.
Qed.

Lemma fifo_drain q : fifo_run q (repeat OpDequeue (length q)) = q.
Proof. induction q as [|x q IH]; [reflexivity|]. cbn [length repeat fifo_run]. now rewrite IH. Qed.

(** C2.  The values returned along a valid single-threaded trace that
    starts with [aq_init] are those of the abstract FIFO list: every
    [aq_dequeue] returns the oldest element not yet dequeued, or [NULL]
    when there is none.  In particular a chain of [k] elements enqueued on
    an empty queue makes [aq_enqueue_multi] return [k], and the next [k]
    dequeues return the chain in order. *)
Theorem dequeue_in_enqueue_order sc bound :
  scenario_ok sc = true → (need (sc_ops sc) ≤ bound)%nat →
  ∃ evs st, play bound sc = Ret (evs, st) ∧
    map ev_op evs = sc_ops sc ∧
    map ev_result evs = fifo_run [] (sc_ops sc) ∧
    chain (els st) (ptr (head (root st))) (fifo_after [] (sc_ops sc)) ∧
    ∀ pre ch,
      sc_ops sc = pre ++ OpEnqueueMulti ch :: repeat OpDequeue (length ch) →
      fifo_after [] pre = [] →
      map ev_result evs = fifo_run [] pre ++ Z.of_nat (length ch) :: ch.
Proof.
  intros Hok Hb.
  destruct (play_valid sc bound Hok Hb) as (evs & st & Hplay & Hinv & Hops & Hres & _ & _).
  exists evs, st. split; [exact Hplay|]. split; [exact Hops|]. split; [exact Hres|].
  split.
  - destruct Hinv as [_ _ _ Hh _ Hch _ _ _ _ _ _ _ _ _ _ _].
    rewrite Hh. rewrite ghost_run_live in Hch. exact Hch.
  - intros pre ch E Hempty. rewrite Hres, E, fifo_run_app, Hempty.
    cbn [fifo_run app]. now rewrite fifo_drain.
Qed.

Lemma dequeue_in_enqueue_order_witness :
  scenario_ok sc_chain5 = true ∧ (need (sc_ops sc_chain5) ≤ 5)%nat ∧
  ∃ evs st, play 5 sc_chain5 = Ret (evs, st) ∧
    map ev_result evs = [5; 32; 48; 64; 80; 96].
Proof.
  split; [reflexivity|]. split; [vm_compute; lia|].
  destruct (dequeue_in_enqueue_order sc_chain5 5) as (evs & st & H1 & _ & H2 & _);
    [reflexivity|vm_compute; lia|].
  exists evs, st. split; [exact H1|exact H2].
Defined.

End FifoOrder.

(** ** The length reported *)

Section Length.
Import Queue QueueTrace Examples.

Lemma aq_queued_run st :
  aq_queued st = Ret (to_i64 (ctr (tail (root st)) - ctr (head (root st))), st).
Proof. reflexivity. Qed.



Lemma inv_queued m0 g st :
  inv m0 g st → aq_queued st = Ret (Z.of_nat (length (g_live g)), st).
Proof.
  intros [_ _ _ _ _ _ _ _ _ _ Hc Hl Ht Hh _ _ _]. rewrite aq_queued_run, Ht, Hh.
  rewrite to_i64_id; [do 2 f_equal; lia|unfold is_i64; lia].
Qed.

(** C5.  In any state whose dummy has a null [next.ptr], [aq_dequeue]
    returns [NULL] in its first iteration and leaves the whole state as it
    was, and [aq_empty] returns true.  Between two operations of a valid
    trace [aq_queued] returns 0 in such a state as well. *)
Theorem empty_queue_observations sc bound k :
  scenario_ok sc = true → (need (sc_ops sc) ≤ bound)%nat →
  (∀ st c b, els st !! ptr (head (root st)) = Some c → ptr c = NULL →
     aq_dequeue (S b) st = Ret (NULL, st) ∧ aq_empty st = Ret (true, st)) ∧
  ∃ evs st, play bound (truncate k sc) = Ret (evs, st) ∧
    ∀ c, els st !! ptr (head (root st)) = Some c → ptr c = NULL →
      (∀ b, aq_dequeue (S b) st = Ret (NULL, st)) ∧
      aq_queued st = Ret (0, st) ∧
      aq_empty st = Ret (true, st).
Proof.
  intros Hok Hb.
  assert (Hany : ∀ st c b, els st !! ptr (head (root st)) = Some c → ptr c = NULL →
            aq_dequeue (S b) st = Ret (NULL, st) ∧ aq_empty st = Ret (true, st)).
  { intros st c b Hc Hn. split; [now apply aq_dequeue_empty_run with (c := c)|].
    unfold aq_empty. mget. mstep (load_el_ok _ _ _ Hc). rewrite Hn. reflexivity. }
  split; [exact Hany|].
  destruct (play_valid (truncate k sc) bound (scenario_ok_truncate sc k Hok))
    as (evs & st & Hplay & Hinv & _).
  { pose proof (need_take (sc_ops sc) k). cbn [truncate sc_ops]. lia. }
  exists evs, st. split; [exact Hplay|]. intros c Hc Hn.
  split; [|split].
  - intros b. apply (Hany st c b Hc Hn).
  - rewrite (inv_queued _ _ _ Hinv).
    destruct Hinv as [_ _ _ Hh _ Hch _ _ _ _ _ _ _ _ _ _ _]. rewrite <- Hh in Hch.
    destruct (g_live _) as [|x l]; [reflexivity|].
    destruct Hch as (Hx & [c' Hc'] & _). rewrite Hc in Hc'. injection Hc' as ->.
    cbn [ptr] in Hn. contradiction.
  - apply (Hany st c 0%nat Hc Hn).
Qed.

Lemma empty_queue_observations_witness :
  scenario_ok sc_drained = true ∧ (need (sc_ops sc_drained) ≤ 1)%nat ∧
  ∃ evs st, play 1 (truncate 5 sc_drained) = Ret (evs, st) ∧
    aq_dequeue 1 st = Ret (NULL, st) ∧ aq_queued st = Ret (0, st) ∧
    aq_empty st = Ret (true, st).
Proof.
  split; [reflexivity|]. split; [vm_compute; lia|].
  destruct (empty_queue_observations sc_drained 1 5) as (_ & evs & st & H1 & H2);
    [reflexivity|vm_compute; lia|].
  exists evs, st. split; [exact H1|].
  assert (Est : st = match play 1 (truncate 5 sc_drained) with
                      | Ret (_, s) => s
                      | _ => st
                      end) by (rewrite H1; reflexivity).
  assert (Hc : els st !! ptr (head (root st)) = Some (CP NULL 1)).
  { rewrite Est. vm_compute. reflexivity. }
  destruct (H2 _ Hc eq_refl) as (Hd & Hq & He). auto.
Defined.

End Length.

(** ** Teardown *)

Section Teardown.
Import Queue QueueTrace Examples.

Lemma aq_free_loop_null bound st : aq_free_loop bound NULL st = Ret (tt, st).
Proof. destruct bound; reflexivity. Qed.

Lemma aq_free_loop_run l : ∀ el st hc bound,
  aligned16 (mb st) = true → freeer (root st) ≠ NULL →
  head (root st) = CP el hc → el ≠ NULL → chain (els st) el l →
  (length l < bound)%nat →
  ∃ hc', aq_free_loop bound el st
         = Ret (tt, AqState (mb st)
                      (AtomicQ (freeer (root st)) (freeer_arg (root st))
                               (CP NULL hc') (tail (root st)))
                      (els st)
                      (rev (map (pair (freeer_arg (root st))) (el :: l)) ++ calls st)).
Proof.
  induction l as [|x l IH]; intros el st hc bound Hmb Hfr Hhd Hel Hch Hb;
    (destruct bound as [|bound]; [simpl in Hb; lia|]).
  - destruct Hch as [c Hc]. exists (to_i64 (hc + 1)).
    cbn [aq_free_loop]. destruct (Z.eqb_spec el NULL); [contradiction|].
    mget. mstep (load_el_ok _ _ _ Hc).
    rewrite (bind_Ret _ _ _ _ _ (cas_head_ok _ 1 st Hmb ltac:(lia))).
    change (1 =? 0) with false. cbv iota.
    erewrite bind_Ret; [|apply call_freeer_ok; exact Hfr].
    mget. cbn [ptr ctr mb root els calls head freeer freeer_arg tail].
    rewrite aq_free_loop_null, Hhd. reflexivity.
  - destruct Hch as (Hx & [c Hc] & Hch).
    cbn [aq_free_loop]. destruct (Z.eqb_spec el NULL); [contradiction|].
    mget. mstep (load_el_ok _ _ _ Hc).
    rewrite (bind_Ret _ _ _ _ _ (cas_head_ok _ 1 st Hmb ltac:(lia))).
    change (1 =? 0) with false. cbv iota.
    erewrite bind_Ret; [|apply call_freeer_ok; exact Hfr].
    mget. cbn [ptr ctr mb root els calls head freeer freeer_arg tail].
    match goal with |- context [aq_free_loop bound x ?s] => set (st2 := s) end.
    destruct (IH x st2 (to_i64 (ctr (head (root st)) + 1)) bound) as [hc' Hrun];
      try assumption; try reflexivity; [simpl in Hb; lia|].
    exists hc'. rewrite Hrun. subst st2.
    cbn [mb root els calls freeer freeer_arg tail map rev].
    rewrite <- !app_assoc. reflexivity.
Qed.

Lemma aq_free_run m0 g st bound :
  inv m0 g st → (length (g_live g) < bound)%nat →
  aq_free bound st
  = Ret (tt, AqState (mb st)
               (AtomicQ NULL (freeer_arg (root st)) (CP NULL 0) (CP NULL 0))
               (els st)
               (rev (map (pair (freeer_arg (root st))) (g_dummy g :: g_live g)) ++ calls st)).
Proof.
  intros [Hmb Hfr _ Hh _ Hch _ Hn _ _ _ _ _ _ _ _ _] Hb.
  destruct (Hn (g_dummy g) (list_elem_of_here _ _)) as [Hd0 _].
  destruct (head (root st)) as [hp hc] eqn:Ehd. cbn [ptr] in Hh. subst hp.
  destruct (aq_free_loop_run _ _ st hc bound Hmb Hfr Ehd Hd0 Hch Hb) as [hc' Hrun].
  unfold aq_free. mget. rewrite Ehd. cbn [ptr]. mstep Hrun. mget. reflexivity.
Qed.

(** C8 (as the code has it).  After a valid trace, [aq_free] calls the
    callback once on every element of the chain, the dummy first and then
    the queued elements in order, by advancing [head] over them, and then
    clears [head], [tail] and [freeer]; it does not write [freeer_arg] or
    any element. *)
Theorem aq_free_drains_and_clears sc bound :
  scenario_ok sc = true → (need (sc_ops sc) ≤ bound)%nat →
  ∃ evs st l, play bound sc = Ret (evs, st) ∧
    chain (els st) (ptr (head (root st))) l ∧
    NoDup (ptr (head (root st)) :: l) ∧
    ∀ b, (length l < b)%nat →
      aq_free b st
      = Ret (tt, AqState (mb st)
                   (AtomicQ NULL (freeer_arg (root st)) (CP NULL 0) (CP NULL 0))
                   (els st)
                   (rev (map (pair (freeer_arg (root st))) (ptr (head (root st)) :: l))
                    ++ calls st)).
Proof.
  intros Hok Hb.
  destruct (play_valid sc bound Hok Hb) as (evs & st & Hplay & Hinv & _).
  exists evs, st, (g_live (ghost_run (ghost0 sc) (sc_ops sc))).
  split; [exact Hplay|].
  pose proof (λ b, aq_free_run _ _ st b Hinv) as Hfree.
  destruct Hinv as [_ _ _ Hh _ Hch Hnd _ _ _ _ _ _ _ _ _ _]. rewrite Hh.
  split; [exact Hch|]. split; [exact Hnd|]. exact Hfree.
Qed.

Lemma aq_free_drains_and_clears_witness :
  scenario_ok sc_late = true ∧ (need (sc_ops sc_late) ≤ 2)%nat ∧
  ∃ evs st l, play 2 sc_late = Ret (evs, st) ∧
    chain (els st) (ptr (head (root st))) l ∧
    ∀ b, (length l < b)%nat →
      aq_free b st
      = Ret (tt, AqState (mb st)
                   (AtomicQ NULL (freeer_arg (root st)) (CP NULL 0) (CP NULL 0))
                   (els st)
                   (rev (map (pair (freeer_arg (root st))) (ptr (head (root st)) :: l))
                    ++ calls st)).
Proof.
  split; [reflexivity|]. split; [vm_compute; lia|].
  destruct (aq_free_drains_and_clears sc_late 2) as (evs & st & l & H1 & H2 & _ & H3);
    [reflexivity|vm_compute; lia|].
  exists evs, st, l. auto.
Defined.

(** After [aq_free] the root still holds the callback argument. *)
Lemma aq_free_keeps_freeer_arg :
  ∃ st st', final_state (play 5 sc_chain5) = Some st ∧
            aq_free 5 st = Ret (tt, st') ∧
            freeer (root st') = NULL ∧
            freeer_arg (root st') = 3135106223 ∧
            freeer_arg (root st') ≠ NULL.
Proof.
  eexists _, _. split; [vm_compute; reflexivity|].
  split; [vm_compute; reflexivity|]. cbn [root freeer freeer_arg].
  split; [reflexivity|]. split; [reflexivity|]. discriminate.
Qed.

End Teardown.

(** ** What [aq_enqueue_multi] asserts *)

Section Assertions.
Import Queue QueueTrace Examples.

Lemma aq_chain_last_self_link xs : ∀ el count bound st x c,
  walks (els st) el xs x → els st !! x = Some (CP x c) → x ≠ NULL →
  (length xs < bound)%nat →
  aq_chain_last bound el count st = Abort.
Proof.
  induction xs as [|y xs IH]; intros el count bound st x c Hw Hx Hx0 Hb;
    (destruct bound as [|bound]; [simpl in Hb; lia|]).
  - cbn [walks] in Hw. subst x. cbn [aq_chain_last].
    mstep (load_el_ok _ _ _ Hx). cbn [ptr].
    destruct (Z.eqb_spec el NULL); [contradiction|].
    rewrite Z.eqb_refl. reflexivity.
  - destruct Hw as (Hy & [cy Hcy] & Hw). cbn [aq_chain_last].
    mstep (load_el_ok _ _ _ Hcy). cbn [ptr].
    destruct (Z.eqb_spec y NULL); [contradiction|].
    destruct (Z.eqb_spec el y); [reflexivity|]. cbn [negb].
    rewrite (bind_Ret _ _ _ _ _ (assert_true st)).
    apply (IH y _ bound st x c); try assumption. simpl in Hb. lia.
Qed.

(** C6 (as the code has it).  [aq_enqueue_multi] fails an assertion when
    the first element of the chain is not 16-byte aligned, when the first
    element has its handshake bit set, and when some element of the chain
    links to itself.  Nothing else is asserted about the chain: on a
    queue whose tail is its last element, a chain without repeated
    elements whose first element is aligned and has its bit clear is
    enqueued, whatever the alignment and the bits of the elements behind
    the first: the call returns the new [tail.ctr - head.ctr], the
    elements linked from the head are those of the queue followed by
    those of the chain, the tail is the last element of the chain with
    its counter advanced by the length of the chain, and only the [next]
    of the old last element and of the last element of the chain are
    written. *)
Theorem aq_enqueue_multi_assertions bound el st :
  (aligned16 el = false → aq_enqueue_multi bound el st = Abort) ∧
  (∀ c, els st !! el = Some c → is_i64 (ctr c) → Z.testbit (ctr c) 63 = true →
        aq_enqueue_multi bound el st = Abort) ∧
  (∀ xs x c, walks (els st) el xs x → els st !! x = Some (CP x c) → x ≠ NULL →
        (length xs < bound)%nat →
        aq_enqueue_multi bound el st = Abort) ∧
  (∀ l t tc cel ch,
        aligned16 (mb st) = true →
        chain (els st) (ptr (head (root st))) l → NoDup (ptr (head (root st)) :: l) →
        tail (root st) = CP t tc → t = List.last l (ptr (head (root st))) →
        aligned16 t = true →
        el ≠ NULL → aligned16 el = true → els st !! el = Some cel →
        is_i64 (ctr cel) → Z.testbit (ctr cel) 63 = false →
        chain (els st) el ch → NoDup (el :: ch) →
        (∀ x, x ∈ el :: ch → x ∉ ptr (head (root st)) :: l) →
        (length ch < bound)%nat → 1 + Z.of_nat (length ch) < 2 ^ 63 →
        ∃ st',
          aq_enqueue_multi bound el st
          = Ret (to_i64 (to_i64 (tc + (1 + Z.of_nat (length ch))) - ctr (head (root st))),
                 st') ∧
          chain (els st') (ptr (head (root st'))) (l ++ el :: ch) ∧
          head (root st') = head (root st) ∧
          tail (root st')
          = CP (List.last ch el) (to_i64 (tc + (1 + Z.of_nat (length ch)))) ∧
          (∃ c, els st' !! t = Some (CP el c)) ∧
          (∀ x, x ≠ t → x ≠ List.last ch el → els st' !! x = els st !! x) ∧
          mb st' = mb st ∧ calls st' = calls st ∧
          freeer (root st') = freeer (root st) ∧
          freeer_arg (root st') = freeer_arg (root st)).
Proof.
  split; [|split; [|split]].
  - intros Ha. unfold aq_enqueue_multi. rewrite Ha. reflexivity.
  - intros c Hc Hi Hbit. unfold aq_enqueue_multi.
    destruct (aligned16 el); [|reflexivity].
    rewrite (bind_Ret _ _ _ _ _ (assert_true st)). mstep (load_el_ok _ _ _ Hc).
    rewrite handshake_assert_test by assumption.
    rewrite bit63_sign in Hbit by assumption. apply Z.ltb_lt in Hbit.
    destruct (Z.leb_spec 0 (ctr c)); [lia|reflexivity].
  - intros xs x c Hw Hx Hx0 Hb. unfold aq_enqueue_multi.
    destruct (aligned16 el); [|reflexivity].
    rewrite (bind_Ret _ _ _ _ _ (assert_true st)).
    assert (∃ ce, els st !! el = Some ce) as [ce Hce].
    { destruct xs as [|y xs]; [cbn [walks] in Hw; subst; eauto|].
      destruct Hw as (_ & [cy Hcy] & _). eauto. }
    mstep (load_el_ok _ _ _ Hce).
    destruct (0 =? Z.land (ctr ce) (to_i64 (Z.shiftl 1 63))); [|reflexivity].
    rewrite (bind_Ret _ _ _ _ _ (assert_true st)).
    apply bind_Abort. now apply (aq_chain_last_self_link xs el 1 bound st x c).
  - intros l t tc cel ch Hmb Hq Hndq Htl Ht Hat Hel0 Hael Hel Hi Hbit Hch Hnd Hdisj Hb Hlen.
    rewrite bit63_sign in Hbit by assumption. apply Z.ltb_ge in Hbit.
    set (h := ptr (head (root st))) in *.
    destruct (chain_last_null _ _ _ Hq) as [ct Hct]. rewrite <- Ht in Hct.
    assert (Htq : t ∈ h :: l) by (rewrite Ht; apply last_elem_of).
    assert (Hnt : t ∉ el :: ch) by (intros Hin; exact (Hdisj t Hin Htq)).
    assert (Hlq : List.last ch el ∉ h :: l) by (apply Hdisj, last_elem_of).
    assert (Hlt : List.last ch el ≠ t) by (intros E; apply Hlq; now rewrite E).
    destruct (chain_last_null _ _ _ Hch) as [cl Hcl].
    eexists. split.
    { apply (aq_enqueue_multi_run st el ch t tc ct cel bound); assumption. }
    cbn [root head tail els mb calls freeer freeer_arg]. fold h.
    split; [|split; [reflexivity|]; split; [reflexivity|]; split; [|split]].
    + rewrite Ht. apply chain_link; try assumption.
      * now apply chain_frame.
      * apply (chain_ptr_ext (els st)); [|exact Hch]. intros x c Hx Hc.
        destruct (Z.eq_dec x (List.last ch el)) as [->|Hne].
        -- rewrite lookup_insert_eq. eexists. split; [reflexivity|].
           rewrite Hcl in Hc. now injection Hc as <-.
        -- rewrite lookup_insert_ne by congruence. eauto.
    + eexists. apply lookup_insert_eq.
    + intros x Hxt Hxl. now rewrite !lookup_insert_ne by congruence.
    + repeat split.
Qed.

Lemma aq_enqueue_multi_assertions_witness :
  aq_enqueue_multi 3 56 bad_state = Abort ∧
  aq_enqueue_multi 3 32 (with_next bad_state 32 (CP 56 (- 2 ^ 63))) = Abort ∧
  aq_enqueue_multi 3 32 (with_next bad_state 56 (CP 56 0)) = Abort ∧
  ∃ st', aq_enqueue_multi 3 32 bad_state = Ret (3, st') ∧
         chain (els st') (ptr (head (root st'))) [32; 56; 80] ∧
         tail (root st') = CP 80 3.
Proof.
  split; [|split; [|split]].
  - apply (aq_enqueue_multi_assertions 3 56 bad_state). reflexivity.
  - apply (aq_enqueue_multi_assertions 3 32 (with_next bad_state 32 (CP 56 (- 2 ^ 63))))
      with (c := CP 56 (- 2 ^ 63)); [reflexivity|cbn [ctr]; unfold is_i64; lia|reflexivity].
  - apply (aq_enqueue_multi_assertions 3 32 (with_next bad_state 56 (CP 56 0)))
      with (xs := [56]) (x := 56) (c := 0).
    + cbn [walks]. split; [discriminate|]. split; [exists 0; reflexivity|reflexivity].
    + reflexivity.
    + discriminate.
    + simpl. lia.
  - destruct (aq_enqueue_multi_assertions 3 32 bad_state) as (_ & _ & _ & H).
    destruct (H [] 16 0 (CP 56 0) [56; 80]) as (st' & H1 & H2 & _ & H3 & _);
      try reflexivity.
    + exists (- 2 ^ 63). reflexivity.
    + apply (bool_decide_unpack (NoDup [16])). vm_compute. exact I.
    + discriminate.
    + cbn [ctr]. unfold is_i64. lia.
    + cbn [chain]. split; [discriminate|]. split; [exists 0; reflexivity|].
      split; [discriminate|]. split; [exists (- 2 ^ 63); reflexivity|].
      exists 0. reflexivity.
    + apply (bool_decide_unpack (NoDup [32; 56; 80])). vm_compute. exact I.
    + intros x Hx Hx'. cbn [bad_state root head ptr] in Hx'.
      apply list_elem_of_singleton in Hx' as ->.
      revert Hx. apply (bool_decide_unpack (16 ∉ [32; 56; 80])). vm_compute. exact I.
    + simpl. lia.
    + exists st'. split; [exact H1|]. split; [exact H2|exact H3].
Defined.

(** A chain whose second element is misaligned and has its handshake bit
    set is enqueued without any assertion failing: on a freshly
    initialised queue the chain 32 -> 56 -> 80, whose elements lie apart
    in memory, is linked behind the dummy and 3 is returned. *)
Lemma aq_enqueue_multi_unchecked_tail_of_chain :
  aq_init 16 777 3135106223 (AqState 4096 garbage bad_pool []) = Ret (tt, bad_state) ∧
  chain (els bad_state) 32 [56; 80] ∧
  aligned16 56 = false ∧
  (∃ c, els bad_state !! 56 = Some c ∧ Z.testbit (ctr c) 63 = true) ∧
  ∃ st', aq_enqueue_multi 3 32 bad_state = Ret (3, st') ∧
         chain (els st') (ptr (head (root st'))) [32; 56; 80] ∧
         els st' !! 56 = Some (CP 80 (- 2 ^ 63)).
Proof.
  split; [vm_compute; reflexivity|].
  split.
  { cbn [chain]. split; [discriminate|]. split; [exists 0; reflexivity|].
    split; [discriminate|]. split; [exists (- 2 ^ 63); reflexivity|].
    exists 0. reflexivity. }
  split; [reflexivity|].
  split; [exists (CP 80 (- 2 ^ 63)); split; reflexivity|].
  eexists. split; [vm_compute; reflexivity|].
  split; [|reflexivity].
  cbn [chain]. split; [discriminate|]. split; [eexists; reflexivity|].
  split; [discriminate|]. split; [eexists; reflexivity|].
  split; [discriminate|]. split; [eexists; reflexivity|].
  eexists. reflexivity.
Qed.

End Assertions.

(** ** Single-element enqueue *)

Section SingleEnqueue.
Import Queue QueueTrace Examples.

(** C9.  [aq_enqueue] overwrites [el->next.ptr] with [NULL] and then runs
    [aq_enqueue_multi]: whatever link the element held before makes no
    difference to the result. *)
Theorem aq_enqueue_ignores_stale_link bound el st p c :
  aq_enqueue bound el (with_next st el (CP p c))
  = aq_enqueue_multi bound el (with_next st el (CP NULL c)) ∧
  aq_enqueue bound el (with_next st el (CP p c))
  = aq_enqueue bound el (with_next st el (CP NULL c)).
Proof.
  assert (H : ∀ q, aq_enqueue bound el (with_next st el (CP q c))
                   = aq_enqueue_multi bound el (with_next st el (CP NULL c))).
  { intros q. unfold aq_enqueue.
    erewrite bind_Ret; [|apply store_el_ptr_ok; cbn [with_next els]; apply lookup_insert_eq].
    unfold with_next. cbn [mb root els calls ctr]. rewrite insert_insert_eq. reflexivity. }
  split; [apply H|]. now rewrite !H.
Qed.

End SingleEnqueue.

(** ** Observers *)

Section Observers.
Import Queue QueueTrace Examples.

(** C10.  [aq_queued] and [as_empty] always return and leave the state as
    it was; [aq_empty] either faults on an unreadable [head.ptr] or
    returns and leaves the state as it was. *)
Theorem observers_do_not_write (st : aq_state) (s : Stack.as_state) :
  aq_queued st = Ret (to_i64 (ctr (tail (root st)) - ctr (head (root st))), st) ∧
  (aq_empty st = Fault ∨ ∃ b, aq_empty st = Ret (b, st)) ∧
  Stack.as_empty s = Ret (ptr (Stack.first s) =? NULL, s).
Proof.
  split; [reflexivity|]. split; [|reflexivity].
  unfold aq_empty. mget. unfold load_el, mbind, M_bind, bind.
  destruct (els st !! ptr (head (root st))); [right; eauto|left; reflexivity].
Qed.

End Observers.

Section StackFacts.
Import Stack StackTrace.

(** ** The stack *)

Lemma to_i64_add_l a b : to_i64 (to_i64 a + b) = to_i64 (a + b).
Proof.
  unfold to_i64. f_equal.
  replace ((a + 2 ^ 63) `mod` 2 ^ 64 - 2 ^ 63 + b + 2 ^ 63)
    with ((a + 2 ^ 63) `mod` 2 ^ 64 + b) by lia.
  rewrite Z.add_mod_idemp_l by lia. f_equal. lia.
Qed.

Lemma load_next_ok e n st : entries st !! e = Some n → load_next e st = Ret (n, st).
Proof. intros H. unfold load_next. now rewrite H. Qed.

Lemma store_next_ok e v n st :
  entries st !! e = Some n →
  store_next e v st = Ret (tt, AsState (s_addr st) (first st) (<[e := v]> (entries st))).
Proof. intros H. unfold store_next. now rewrite H. Qed.

Lemma cas_first_ok newptr inc st :
  aligned16 (s_addr st) = true → 0 < inc →
  cas_first (first st) newptr inc st
  = Ret (1, AsState (s_addr st) (CP newptr (to_i64 (ctr (first st) + inc))) (entries st)).
Proof. intros Ha Hi. unfold cas_first. now rewrite cas_hit. Qed.

Lemma as_push_run e n st bound :
  aligned16 (s_addr st) = true → entries st !! e = Some n → ptr (first st) ≠ e →
  as_push (S bound) e st
  = Ret (tt, AsState (s_addr st) (CP e (to_i64 (ctr (first st) + 1)))
               (<[e := ptr (first st)]> (entries st))).
Proof.
  intros Ha He Hne. cbn [as_push].
  assert (Hiter : as_push_iter e st
                  = Ret (1, AsState (s_addr st) (CP e (to_i64 (ctr (first st) + 1)))
                              (<[e := ptr (first st)]> (entries st)))).
  { unfold as_push_iter. mget. mstep (store_next_ok e (ptr (first st)) n st He).
    erewrite bind_Ret; [|apply load_next_ok; cbn [entries]; apply lookup_insert_eq].
    destruct (Z.eqb_spec (ptr (first st)) e); [contradiction|]. cbn [negb].
    match goal with |- (_ ≫= _) ?s = _ => set (st1 := s) end.
    rewrite (bind_Ret _ _ _ _ _ (assert_true st1)).
    change (first st) with (first st1). now rewrite cas_first_ok. }
  mstep Hiter. reflexivity.
Qed.

Lemma as_pop_run x n st bound :
  aligned16 (s_addr st) = true → ptr (first st) = x → x ≠ NULL →
  entries st !! x = Some n →
  as_pop (S bound) st
  = Ret (x, AsState (s_addr st) (CP n (to_i64 (ctr (first st) + 1))) (entries st)).
Proof.
  intros Ha Hx Hx0 Hn. cbn [as_pop]. mget. rewrite Hx.
  destruct (Z.eqb_spec x NULL); [contradiction|].
  mstep (load_next_ok _ _ _ Hn).
  rewrite (bind_Ret _ _ _ _ _ (cas_first_ok n 1 st Ha ltac:(lia))). reflexivity.
Qed.

Lemma as_pop_null st bound :
  ptr (first st) = NULL → as_pop (S bound) st = Ret (NULL, st).
Proof. intros H. cbn [as_pop]. mget. rewrite H. reflexivity. Qed.

Lemma schain_frame m p l e v : e ∉ l → schain m p l → schain (<[e := v]> m) p l.
Proof.
  revert p. induction l as [|x l IH]; intros p He H; [exact H|].
  destruct H as (-> & Hx & n & Hn & Hl). apply not_elem_of_cons in He as [Hex Hel].
  split; [reflexivity|]. split; [assumption|]. exists n.
  split; [now rewrite lookup_insert_ne|]. now apply IH.
Qed.

Lemma schain_top m p l : schain m p l → p = hd NULL l.
Proof. destruct l; [auto|]. now intros [-> _]. Qed.

Lemma srun_valid m0 ops : ∀ l st bound,
  sinv m0 l st → svalid m0 l ops = true → (1 ≤ bound)%nat →
  ∃ st', srun bound ops st = Ret (lifo_run l ops, st') ∧
    sinv m0 (lifo_final l ops) st' ∧
    ctr (first st') = to_i64 (ctr (first st) + lifo_moves l ops).
Proof.
  induction ops as [|o ops IH]; intros l st bound Hinv Hv Hb.
  - exists st. split; [reflexivity|]. split; [exact Hinv|].
    cbn [lifo_moves]. rewrite Z.add_0_r. symmetry. apply to_i64_id, Hinv.
  - destruct bound as [|bound]; [lia|].
    destruct Hinv as [Ha Hdom Hi Hch]. destruct o as [e|].
    + cbn [svalid] in Hv. rewrite !andb_true_iff, !negb_true_iff in Hv.
      destruct Hv as [[[He0 Hal] Hel] Hv]. apply Z.eqb_neq in He0.
      assert (Hel' : e ∉ l).
      { intros Hin. apply list_elem_of_In in Hin.
        assert (existsb (Z.eqb e) l = true); [|congruence].
        apply existsb_exists. exists e. split; [assumption|apply Z.eqb_refl]. }
      assert (is_Some (entries st !! e)) as [n Hn].
      { apply Hdom. destruct (m0 !! e); [eauto|discriminate]. }
      assert (Hne : ptr (first st) ≠ e).
      { rewrite (schain_top _ _ _ Hch). destruct l as [|x l']; [exact (not_eq_sym He0)|].
        cbn [hd]. intros ->. apply Hel', list_elem_of_here. }
      pose proof (as_push_run e n st bound Ha Hn Hne) as Hrun.
      match type of Hrun with _ = Ret (_, ?s) => set (st1 := s) in * end.
      destruct (IH (e :: l) st1 (S bound)) as (st' & Hrun' & Hinv' & Hctr); try assumption.
      { constructor; [exact Ha| |apply to_i64_range|].
        - intros x. rewrite <- Hdom. subst st1. cbn [entries].
          destruct (decide (x = e)) as [->|Hx].
          + rewrite lookup_insert_eq, Hn. split; eauto.
          + now rewrite lookup_insert_ne.
        - subst st1. cbn [entries first ptr schain].
          split; [reflexivity|]. split; [assumption|]. exists (ptr (first st)).
          split; [apply lookup_insert_eq|]. now apply schain_frame. }
      exists st'. split; [|split; [exact Hinv'|]].
      * cbn [srun srun_op lifo_run].
        assert (H0 : (as_push (S bound) e ≫= λ _, mret 0) st = Ret (0, st1))
          by (mstep Hrun; reflexivity).
        mstep H0. mstep Hrun'. reflexivity.
      * rewrite Hctr. subst st1. cbn [first ctr lifo_moves].
        rewrite to_i64_add_l. f_equal. lia.
    + cbn [svalid] in Hv. destruct l as [|x l'].
      * cbn [schain] in Hch. pose proof (as_pop_null st bound Hch) as Hrun.
        destruct (IH [] st (S bound)) as (st' & Hrun' & Hinv' & Hctr); try assumption.
        { now constructor. }
        exists st'. split; [|split; [exact Hinv'|exact Hctr]].
        cbn [srun srun_op lifo_run]. mstep Hrun. mstep Hrun'. reflexivity.
      * destruct Hch as (Hp & Hx0 & n & Hn & Hl).
        pose proof (as_pop_run x n st bound Ha Hp Hx0 Hn) as Hrun.
        match type of Hrun with _ = Ret (_, ?s) => set (st1 := s) in * end.
        destruct (IH l' st1 (S bound)) as (st' & Hrun' & Hinv' & Hctr); try assumption.
        { constructor; try assumption. apply to_i64_range. }
        exists st'. split; [|split; [exact Hinv'|]].
        -- cbn [srun srun_op lifo_run]. mstep Hrun. mstep Hrun'. reflexivity.
        -- rewrite Hctr. subst st1. cbn [first ctr lifo_moves].
           rewrite to_i64_add_l. f_equal. lia.
Qed.

Lemma lifo_run_pushes ns : ∀ l rest,
  lifo_run l (map SPush ns ++ rest) = repeat 0 (length ns) ++ lifo_run (rev ns ++ l) rest.
Proof.
  induction ns as [|n ns IH]; intros l rest; [reflexivity|].
  cbn [map app lifo_run length repeat rev]. rewrite IH, <- app_assoc. reflexivity.
Qed.

Lemma lifo_run_pops a : ∀ l, lifo_run (a ++ l) (repeat SPop (length a)) = a.
Proof. induction a as [|x a IH]; intros l; [reflexivity|]. cbn. now rewrite IH. Qed.

Lemma as_init_run st :
  aligned16 (s_addr st) = true →
  as_init st = Ret (tt, AsState (s_addr st) (CP NULL 0) (entries st)).
Proof. intros Ha. unfold as_init. mget. rewrite Ha. reflexivity. Qed.

(** C7.  A valid single-threaded trace on a stack that starts with
    [as_init] returns what the abstract LIFO list returns, so pops return
    entries in the reverse order of their pushes; the head counter ends at
    the number of pushes and successful pops.  A pop right after a push
    of [n] returns [n] and restores the head pointer; a pop on a null
    head returns [NULL] and changes nothing; each of these pushes and
    pops adds 1 to the head counter in 64-bit arithmetic. *)
Theorem stack_is_lifo st0 ops bound :
  stack_ok st0 ops = true → (1 ≤ bound)%nat →
  (∃ st, stack_play bound st0 ops = Ret (lifo_run [] ops, st) ∧
         schain (entries st) (ptr (first st)) (lifo_final [] ops) ∧
         ctr (first st) = to_i64 (lifo_moves [] ops)) ∧
  (∀ ns, ops = map SPush ns ++ repeat SPop (length ns) →
         lifo_run [] ops = repeat 0 (length ns) ++ rev ns) ∧
  (∀ st n b b',
     aligned16 (s_addr st) = true → is_Some (entries st !! n) →
     ptr (first st) ≠ n → n ≠ NULL →
     ∃ st1 st2,
       as_push (S b) n st = Ret (tt, st1) ∧
       first st1 = CP n (to_i64 (ctr (first st) + 1)) ∧
       as_pop (S b') st1 = Ret (n, st2) ∧
       first st2 = CP (ptr (first st)) (to_i64 (ctr (first st1) + 1))) ∧
  (∀ st x n b,
     aligned16 (s_addr st) = true → ptr (first st) = x → x ≠ NULL →
     entries st !! x = Some n →
     as_pop (S b) st
     = Ret (x, AsState (s_addr st) (CP n (to_i64 (ctr (first st) + 1))) (entries st))) ∧
  (∀ c, is_i64 (c + 1) → to_i64 (c + 1) = c + 1) ∧
  (∀ st b, ptr (first st) = NULL → as_pop (S b) st = Ret (NULL, st)).
Proof.
  intros Hok Hb. unfold stack_ok in Hok. apply andb_true_iff in Hok as [Ha Hv].
  split; [|split; [|split; [|split; [|split]]]].
  - set (st1 := AsState (s_addr st0) (CP NULL 0) (entries st0)).
    destruct (srun_valid (entries st0) ops [] st1 bound) as (st & Hrun & Hinv & Hctr);
      try assumption.
    { constructor; try assumption; try reflexivity. unfold is_i64. cbn. lia. }
    exists st. split; [|split].
    + unfold stack_play. mstep (as_init_run st0 Ha). exact Hrun.
    + apply Hinv.
    + rewrite Hctr. reflexivity.
  - intros ns ->. rewrite lifo_run_pushes, app_nil_r.
    rewrite <- (length_rev ns) at 2. rewrite <- (app_nil_r (rev ns)) at 1.
    now rewrite lifo_run_pops.
  - intros st n b b' Has [m Hm] Hne Hn0.
    eexists _, _. split; [apply (as_push_run n m st b Has Hm Hne)|].
    split; [reflexivity|]. split.
    + apply as_pop_run with (n := ptr (first st)); try assumption; try reflexivity.
      cbn [entries]. apply lookup_insert_eq.
    + reflexivity.
  - intros st x n b. apply as_pop_run.
  - intros c. apply to_i64_id.
  - intros st b. apply as_pop_null.
Qed.

Lemma stack_is_lifo_witness :
  stack_ok stack0 stack_ops = true ∧ (1 ≤ 1)%nat ∧
  ∃ st, stack_play 1 stack0 stack_ops = Ret ([0; 0; 0; 48; 32; 16; NULL], st) ∧
        ctr (first st) = 6.
Proof.
  split; [reflexivity|]. split; [lia|].
  destruct (stack_is_lifo stack0 stack_ops 1) as ((st & H1 & _ & H2) & _);
    [reflexivity|lia|].
  exists st. split; [exact H1|exact H2].
Defined.

End StackFacts.

(** * Further properties *)

Section Explicit.
Import Queue QueueTrace Examples QueueLag.

(** ** Operations of a valid trace, with their final state *)

Lemma bind_assoc {S A B C} (m : M S A) (k : A → M S B) (h : B → M S C) s :
  ((m ≫= k) ≫= h) s = (m ≫= λ a, k a ≫= h) s.
Proof. unfold mbind, M_bind, bind. destruct (m s) as [[a s1]| | |]; reflexivity. Qed.

Lemma aq_enqueue_multi_split bound el st :
  aq_enqueue_multi bound el st
  = (aq_enqueue_multi_link bound el ≫= λ p, aq_enqueue_multi_swing p.1 p.2) st.
Proof.
  unfold aq_enqueue_multi, aq_enqueue_multi_link, aq_enqueue_multi_swing.
  unfold mbind, M_bind, bind, mret, M_ret, ret.
  destruct (assert (aligned16 el) st) as [[[] s1]| | |]; try reflexivity.
  destruct (load_el el s1) as [[c s2]| | |]; try reflexivity.
  destruct (assert _ s2) as [[[] s3]| | |]; try reflexivity.
  destruct (aq_chain_last bound el 1 s3) as [[lc s4]| | |]; try reflexivity.
  destruct (aq_enqueue_loop bound el lc.1 s4) as [[tl s5]| | |]; reflexivity.
Qed.

Lemma dequeue_explicit m0 g st x l' bound :
  inv m0 g st → g_live g = x :: l' →
  ∃ c, els st !! g_dummy g = Some (CP x c) ∧
    run_op (S bound) OpDequeue st
    = Ret (x, AqState (mb st)
                (AtomicQ (freeer (root st)) (freeer_arg (root st))
                         (CP x (to_i64 (ctr (head (root st)) + 1))) (tail (root st)))
                (<[g_dummy g := CP x (flip63 c)]> (els st))
                (if c <? 0 then (freeer_arg (root st), g_dummy g) :: calls st else calls st)).
Proof.
  intros Hinv Hl.
  destruct g as [d l pend cnt]. cbn [g_dummy g_live g_pend g_count] in *. subst l.
  destruct Hinv as [Imb Ifr Idom Ihead Itail Ichain Ind Inodes Ipend Ipl Icount Ilive
                    Itctr Ihctr Ii64 Ibit Istamp].
  cbn [g_dummy g_live g_pend g_count] in *.
  destruct Ichain as (Hx0 & [c Hc] & Hch).
  apply NoDup_cons in Ind as [Hdl Hnd].
  rewrite last_cons_cons in Itail.
  assert (Hdt : d ≠ ptr (tail (root st))).
  { rewrite Itail. intros E. apply Hdl. rewrite E. apply last_elem_of. }
  destruct (head (root st)) as [hp hc] eqn:Ehd. cbn [ptr ctr] in *. subst hp.
  pose proof (aq_dequeue_loop_run st d hc x c bound Imb Ehd Hc Hx0 Hdt) as Hloop.
  exists c. split; [exact Hc|].
  unfold run_op, aq_dequeue. mstep Hloop. cbn [ptr].
  erewrite bind_Ret; [|apply (aq_el_free_ok d (CP x c)); [exact Hc|apply (Ii64 _ _ Hc)|exact Ifr]].
  reflexivity.
Qed.

Lemma release_explicit m0 g st el bound :
  inv m0 g st → inb el (g_pend g) = true →
  ∃ c, els st !! el = Some c ∧
    run_op bound (OpRelease el) st
    = Ret (0, AqState (mb st) (root st) (<[el := CP (ptr c) (flip63 (ctr c))]> (els st))
                (if ctr c <? 0 then (freeer_arg (root st), el) :: calls st else calls st)).
Proof.
  intros Hinv Hel. apply inb_spec in Hel.
  destruct Hinv as [Imb Ifr Idom Ihead Itail Ichain Ind Inodes Ipend Ipl Icount Ilive
                    Itctr Ihctr Ii64 Ibit Istamp].
  destruct (Ipl el Hel) as [_ [c Hc]]. exists c. split; [exact Hc|].
  unfold run_op. erewrite bind_Ret; [|apply (aq_el_free_ok el c st Hc (Ii64 _ _ Hc) Ifr)].
  reflexivity.
Qed.

(** The memory after the user linked [ch] and the enqueuer stamped and
    linked it behind [t]. *)
Lemma enqueue_setup m0 g st ch :
  inv m0 g st → chain_ok m0 g ch = true →
  ∃ el ch' m1 ct cel,
    ch = el :: ch' ∧
    link_chain ch st = Ret (tt, AqState (mb st) (root st) m1 (calls st)) ∧
    (∀ x, x ∉ ch → m1 !! x = els st !! x) ∧
    (∀ x, x ∈ ch → ∃ c p, els st !! x = Some c ∧ m1 !! x = Some (CP p (ctr c))) ∧
    chain m1 el ch' ∧
    els st !! List.last (g_live g) (g_dummy g) = Some (CP NULL ct) ∧
    m1 !! List.last (g_live g) (g_dummy g) = Some (CP NULL ct) ∧
    (List.last (g_live g) (g_dummy g) ∉ ch) ∧
    aligned16 (List.last (g_live g) (g_dummy g)) = true ∧
    aligned16 el = true ∧ m1 !! el = Some cel ∧ is_i64 (ctr cel) ∧ 0 ≤ ctr cel ∧
    NoDup ch ∧ (∀ x, x ∈ g_dummy g :: g_live g → x ∉ ch).
Proof.
  intros Hinv Hok.
  destruct (chain_ok_spec _ _ _ Hok) as (Hne & Hnd & Hall & Hcnt).
  destruct ch as [|el ch']; [congruence|]. clear Hne.
  destruct g as [d l pend cnt].
  destruct Hinv as [Imb Ifr Idom Ihead Itail Ichain Ind Inodes Ipend Ipl Icount Ilive
                    Itctr Ihctr Ii64 Ibit Istamp].
  cbn [g_dummy g_live g_pend g_count] in *.
  destruct (link_chain_ok (el :: ch') st Hnd) as (m1 & Hrun & Hout & Hin & Hch).
  { intros x Hx. destruct (Hall x Hx) as (? & ? & HS & ?). split; [assumption|].
    now apply Idom. }
  destruct (chain_last_null _ _ _ Ichain) as [ct Hct].
  set (t := List.last l d) in *.
  assert (Ht_in : t ∈ d :: l) by apply last_elem_of.
  assert (Hbusy : ∀ x, x ∈ d :: l → x ∉ el :: ch').
  { intros x Hx Hx'. destruct (Hall x Hx') as (_ & _ & _ & Hnb). apply Hnb.
    unfold busy. cbn [g_dummy g_live g_pend].
    apply elem_of_cons in Hx as [->|Hx]; [apply list_elem_of_here|].
    apply list_elem_of_further, elem_of_app. now left. }
  destruct (Hin el (list_elem_of_here _ _)) as (cel & pel & Hcel & Hm1el).
  assert (Hcel_pos : 0 ≤ ctr cel).
  { destruct (Z.lt_ge_cases (ctr cel) 0) as [Hneg|]; [|assumption].
    apply (Ibit _ _ Hcel) in Hneg. exfalso.
    destruct (Hall el (list_elem_of_here _ _)) as (_ & _ & _ & Hnb).
    apply Hnb. unfold busy. cbn [g_dummy g_live g_pend].
    destruct Hneg as [[-> _]|[_ Hp]]; [apply list_elem_of_here|].
    apply list_elem_of_further, elem_of_app. now right. }
  exists el, ch', m1, ct, (CP pel (ctr cel)).
  split; [reflexivity|]. split; [exact Hrun|]. split; [exact Hout|]. split; [exact Hin|].
  split; [exact Hch|]. split; [exact Hct|].
  split; [rewrite Hout; [exact Hct|now apply Hbusy]|].
  split; [now apply Hbusy|]. split; [apply (Inodes t Ht_in)|].
  split; [apply (Hall el (list_elem_of_here _ _))|].
  split; [exact Hm1el|]. split; [apply (Ii64 _ _ Hcel)|].
  split; [exact Hcel_pos|]. split; [exact Hnd|exact Hbusy].
Qed.

Lemma aq_enqueue_multi_link_run st el ch t tc ct cel bound :
  tail (root st) = CP t tc →
  els st !! t = Some (CP NULL ct) → aligned16 t = true →
  aligned16 el = true → els st !! el = Some cel → is_i64 (ctr cel) → 0 ≤ ctr cel →
  chain (els st) el ch → NoDup (el :: ch) → t ∉ el :: ch →
  (length ch < bound)%nat → 1 + Z.of_nat (length ch) < 2 ^ 63 →
  aq_enqueue_multi_link bound el st
  = Ret ((CP t tc, (List.last ch el, 1 + Z.of_nat (length ch))),
         AqState (mb st) (root st)
           (<[t := CP el (to_i64 (ct + 1))]> (<[List.last ch el := CP NULL tc]> (els st)))
           (calls st)).
Proof.
  intros Htl Ht Hat Hael Hel Hi64 Hpos Hch Hnd Hnt Hb Hlen.
  unfold aq_enqueue_multi_link. rewrite Hael.
  rewrite (bind_Ret _ _ _ _ _ (assert_true st)).
  mstep (load_el_ok _ _ _ Hel).
  rewrite handshake_assert_test by assumption.
  replace (0 <=? ctr cel) with true by (symmetry; now apply Z.leb_le).
  rewrite (bind_Ret _ _ _ _ _ (assert_true st)).
  rewrite (bind_Ret _ _ _ _ _
             (aq_chain_last_ok ch el 1 bound st Hch Hnd ltac:(lia) ltac:(lia) Hlen)).
  cbn [fst snd].
  destruct bound as [|bound]; [lia|].
  assert (Hne : t ≠ el) by (intros ->; apply Hnt, list_elem_of_here).
  assert (Hlast : t ≠ List.last ch el).
  { intros E. apply Hnt. rewrite E. apply last_elem_of. }
  destruct (chain_last_null _ _ _ Hch) as [cl Hcl].
  mstep (aq_enqueue_loop_run st el _ t tc ct cl bound Htl Ht Hat Hne Hlast Hcl).
  reflexivity.
Qed.

Lemma link_explicit m0 g st ch bound :
  inv m0 g st → chain_ok m0 g ch = true → (length ch ≤ bound)%nat →
  ∃ el ch' m1 ct,
    ch = el :: ch' ∧
    link_chain ch st = Ret (tt, AqState (mb st) (root st) m1 (calls st)) ∧
    els st !! List.last (g_live g) (g_dummy g) = Some (CP NULL ct) ∧
    let m3 := <[List.last (g_live g) (g_dummy g) := CP el (to_i64 (ct + 1))]>
                (<[List.last ch' el := CP NULL (g_count g)]> m1) in
    (link_chain ch ≫= λ _, aq_enqueue_multi_link bound (hd NULL ch)) st
    = Ret ((tail (root st), (List.last ch NULL, Z.of_nat (length ch))),
           AqState (mb st) (root st) m3 (calls st)) ∧
    run_op bound (OpEnqueueMulti ch) st
    = Ret (Z.of_nat (length (g_live g ++ ch)),
           AqState (mb st)
             (AtomicQ (freeer (root st)) (freeer_arg (root st)) (head (root st))
                      (CP (List.last (g_live g ++ ch) (g_dummy g))
                          (g_count g + Z.of_nat (length ch))))
             m3 (calls st)) ∧
    (∀ x, x ≠ List.last (g_live g) (g_dummy g) → x ∉ ch → m3 !! x = els st !! x).
Proof.
  intros Hinv Hok Hb.
  destruct (enqueue_setup m0 g st ch Hinv Hok)
    as (el & ch' & m1 & ct & cel & -> & Hlink & Hout & Hin & Hch & Hct & Hm1t & Htn & Hta
        & Hela & Hm1el & Hi & Hpos & Hnd & Hbusy).
  destruct (chain_ok_spec _ _ _ Hok) as (_ & _ & _ & Hcnt).
  pose proof Hinv as [Imb Ifr Idom Ihead Itail Ichain Ind Inodes Ipend Ipl Icount Ilive
                      Itctr Ihctr Ii64 Ibit Istamp].
  set (t := List.last (g_live g) (g_dummy g)) in *.
  destruct (tail (root st)) as [tp tc] eqn:Etl. cbn [ptr ctr] in *. subst tp tc.
  set (st1 := AqState (mb st) (root st) m1 (calls st)).
  assert (Hlen : Z.of_nat (length (el :: ch')) = 1 + Z.of_nat (length ch'))
    by (simpl length; lia).
  pose proof (aq_enqueue_multi_link_run st1 el ch' t (g_count g) ct cel bound
                Etl Hm1t Hta Hela Hm1el Hi Hpos Hch Hnd Htn
                ltac:(simpl in Hb; lia) ltac:(lia)) as Hl.
  exists el, ch', m1, ct.
  split; [reflexivity|]. split; [exact Hlink|]. split; [exact Hct|].
  cbv zeta. split; [|split].
  - mstep Hlink. fold st1. cbn [hd]. rewrite Hl. rewrite last_cons_cons, Hlen. reflexivity.
  - unfold run_op. mstep Hlink. fold st1. cbn [hd].
    rewrite aq_enqueue_multi_split. mstep Hl. cbn [fst snd].
    unfold aq_enqueue_multi_swing. cbn [fst snd].
    match goal with |- (_ ≫= _) ?s = _ => set (st2 := s) end.
    assert (Etl2 : tail (root st2) = CP t (g_count g)) by exact Etl.
    rewrite <- Etl2.
    erewrite bind_Ret; [|apply cas_tail_ok; [exact Imb|lia]].
    mget. rewrite Etl2. subst st2 st1.
    cbn [mb root els calls freeer freeer_arg head tail ptr ctr].
    rewrite Ihctr, last_app_cons, length_app, Nat2Z.inj_add, Hlen.
    rewrite (to_i64_id (g_count g + _)) by (unfold is_i64; lia).
    rewrite to_i64_id by (unfold is_i64; lia).
    unfold mret, M_ret, ret. repeat f_equal; lia.
  - intros x Hxt Hx. rewrite lookup_insert_ne by congruence.
    rewrite lookup_insert_ne; [now apply Hout|].
    intros E. apply Hx. rewrite <- E. apply last_elem_of.
Qed.

End Explicit.

(** ** A tail that lags *)

Section Lag.
Import Queue QueueTrace Examples QueueLag.

Lemma with_tail_id st : with_tail st (tail (root st)) = st.
Proof. destruct st as [m [f a h t] e c]. reflexivity. Qed.

Lemma lookup_last (l : list Z) (d : Z) : (d :: l) !! length l = Some (List.last l d).
Proof.
  revert d. induction l as [|x l IH]; intros d; [reflexivity|].
  rewrite last_cons_cons. cbn [length]. apply (IH x).
Qed.

Lemma chain_lookup m d l i p p' :
  chain m d l → (d :: l) !! i = Some p → (d :: l) !! S i = Some p' →
  p' ≠ NULL ∧ ∃ c, m !! p = Some (CP p' c).
Proof.
  revert d i. induction l as [|x l IH]; intros d i Hch Hp Hp'.
  - destruct i; discriminate.
  - destruct Hch as (Hx & Hc & Hl). destruct i as [|i].
    + cbn in Hp, Hp'. injection Hp as <-. injection Hp' as <-. auto.
    + apply (IH x i Hl Hp Hp').
Qed.

Lemma inv_to_linv m0 g st : inv m0 g st → linv m0 g 0 st.
Proof.
  intros Hinv. pose proof Hinv as [_ _ _ _ Ht _ _ _ _ _ _ _ Htc _ _ _ _].
  assert (E : tail_of g = tail (root st)).
  { unfold tail_of. destruct (tail (root st)); cbn [ptr ctr] in *. congruence. }
  constructor.
  - rewrite E, with_tail_id. exact Hinv.
  - lia.
  - rewrite Nat.sub_0_r, lookup_last, <- Ht. reflexivity.
  - rewrite Htc. lia.
Qed.

Lemma linv_to_inv m0 g st : linv m0 g 0 st → inv m0 g st.
Proof.
  intros [Hinv _ Ht Htc]. rewrite Nat.sub_0_r, lookup_last in Ht.
  assert (E : tail_of g = tail (root st)).
  { unfold tail_of. destruct (tail (root st)); cbn [ptr ctr] in *.
    injection Ht as <-. f_equal. lia. }
  rewrite E, with_tail_id in Hinv. exact Hinv.
Qed.

Lemma cas_tail_miss old newptr inc st :
  aligned16 (mb st) = true → 0 < inc → tail (root st) ≠ old →
  cas_tail old newptr inc st = Ret (0, st).
Proof.
  intros Ha Hi Hne. unfold cas_tail. mget.
  rewrite cas_miss; [|apply aligned16_add; [assumption|reflexivity]|assumption|assumption].
  destruct st as [m [f a h t] e c]. reflexivity.
Qed.

(** An operation on the lagging state that does, up to the tail, what it
    does on the state with the tail in place, keeps the invariant. *)
Lemma sim_linv m0 g n st o bound r st' n' :
  linv m0 g n st → op_ok m0 g o = true → (op_size o ≤ bound)%nat → (1 ≤ bound)%nat →
  run_op bound o st = Ret (r, st') →
  run_op bound o (with_tail st (tail_of g))
  = Ret (r, with_tail st' (tail_of (ghost_step g o))) →
  (n' ≤ length (g_live (ghost_step g o)))%nat →
  (g_dummy (ghost_step g o) :: g_live (ghost_step g o))
    !! (length (g_live (ghost_step g o)) - n')%nat = Some (ptr (tail (root st'))) →
  ctr (tail (root st')) = g_count (ghost_step g o) - Z.of_nat n' →
  run_event bound o st = Ret (Event o (g_dummy g) r, st') ∧
  linv m0 (ghost_step g o) n' st' ∧
  fifo_run (g_live g) [o] = [r] ∧
  freeer_arg (root st') = freeer_arg (root st) ∧
  ∀ P R, tally g P R st →
    tally (ghost_step g o) (λ x, (P x + Nat.b2n (is_pass x (Event o (g_dummy g) r)))%nat)
          (λ x, (R x + Nat.b2n (is_release x (Event o (g_dummy g) r)))%nat) st'.
Proof.
  intros [Hinv Hle Ht Htc] Hok Hsz Hb Hrun Hsim Hle' Ht' Htc'.
  destruct (step_op m0 g _ o bound Hinv Hok Hsz Hb)
    as (e & F' & He & Hinv' & _ & Hr & Hfa & Htally).
  unfold run_event in He. rewrite (bind_Ret get _ _ _ _ eq_refl) in He.
  rewrite (bind_Ret _ _ _ _ _ Hsim) in He. injection He as <- <-.
  pose proof Hinv as [_ _ _ Ihead _ _ _ _ _ _ _ _ _ _ _ _ _].
  cbn [with_tail root head ev_result] in *. rewrite Ihead in *.
  split; [|split; [|split; [|split]]].
  - unfold run_event. mget. mstep Hrun. rewrite Ihead. reflexivity.
  - constructor; assumption.
  - exact Hr.
  - exact Hfa.
  - intros P R HT. exact (Htally P R HT).
Qed.

Lemma lsim_release m0 g n st el bound :
  linv m0 g n st → inb el (g_pend g) = true →
  ∃ st', run_op bound (OpRelease el) st = Ret (0, st') ∧
    run_op bound (OpRelease el) (with_tail st (tail_of g))
    = Ret (0, with_tail st' (tail_of (ghost_step g (OpRelease el)))) ∧
    tail (root st') = tail (root st).
Proof.
  intros [Hinv Hle Ht Htc] Hel.
  destruct (release_explicit m0 g _ el bound Hinv Hel) as (c & Hc & Hrun).
  pose proof Hinv as [_ Ifr _ _ _ _ _ _ _ _ _ _ _ _ Ii64 _ _].
  cbn [with_tail els root freeer] in Hc, Ifr, Ii64.
  exists (AqState (mb st) (root st) (<[el := CP (ptr c) (flip63 (ctr c))]> (els st))
            (if ctr c <? 0 then (freeer_arg (root st), el) :: calls st else calls st)).
  split; [|split].
  - unfold run_op.
    erewrite bind_Ret; [|apply (aq_el_free_ok el c st Hc (Ii64 _ _ Hc) Ifr)]. reflexivity.
  - exact Hrun.
  - reflexivity.
Qed.

Lemma aq_dequeue_loop_help st d hc tc x c bound :
  aligned16 (mb st) = true →
  head (root st) = CP d hc → tail (root st) = CP d tc →
  els st !! d = Some (CP x c) → x ≠ NULL →
  aq_dequeue_loop (S bound) st
  = aq_dequeue_loop bound (with_tail st (CP x (to_i64 (tc + 1)))).
Proof.
  intros Hmb Hhd Htl Hd Hx. cbn [aq_dequeue_loop]. mget.
  rewrite Hhd, Htl. cbn [ptr ctr]. mstep (load_el_ok _ _ _ Hd). mget.
  rewrite Hhd, counted_ptr_eq_refl. cbn [negb ptr ctr].
  destruct (Z.eqb_spec x NULL); [contradiction|].
  rewrite Z.eqb_refl. cbn [orb].
  rewrite <- Htl. rewrite (bind_Ret _ _ _ _ _ (cas_tail_ok x 1 st Hmb ltac:(lia))).
  rewrite Htl. reflexivity.
Qed.

Lemma lsim_dequeue_empty m0 g n st bound :
  linv m0 g n st → g_live g = [] → (1 ≤ bound)%nat →
  run_op bound OpDequeue st = Ret (NULL, st) ∧
  run_op bound OpDequeue (with_tail st (tail_of g))
  = Ret (NULL, with_tail st (tail_of (ghost_step g OpDequeue))).
Proof.
  intros [Hinv Hle Ht Htc] Hl Hb. destruct bound as [|bound]; [lia|].
  destruct Hinv as [_ _ _ Ihead _ Ichain _ _ _ _ _ _ _ _ _ _ _].
  cbn [ghost_step]. rewrite Hl in *. destruct Ichain as [c Hc].
  cbn [with_tail root head els] in *. rewrite <- Ihead in Hc.
  split; now apply aq_dequeue_empty_run with (c := CP NULL c).
Qed.

Lemma lsim_dequeue m0 g n st x l' bound :
  linv m0 g n st → g_live g = x :: l' → (2 ≤ bound)%nat →
  ∃ st', run_op bound OpDequeue st = Ret (x, st') ∧
    run_op bound OpDequeue (with_tail st (tail_of g))
    = Ret (x, with_tail st' (tail_of (ghost_step g OpDequeue))) ∧
    tail (root st')
    = if (n =? length (g_live g))%nat
      then CP x (to_i64 (ctr (tail (root st)) + 1)) else tail (root st).
Proof.
  intros [Hinv Hle Ht Htc] Hl Hb.
  destruct bound as [|[|bound]]; try lia.
  destruct (dequeue_explicit m0 g _ x l' (S bound) Hinv Hl) as (c & Hc & Hrun).
  pose proof Hinv as [Imb Ifr _ Ihead _ Ichain Ind _ _ _ Icount Ilive _ _ Ii64 _ _].
  unfold tail_of in *. cbn [ghost_step]. rewrite Hl in *.
  cbn [with_tail mb els root freeer freeer_arg head tail calls g_dummy g_live g_count] in *.
  rewrite last_cons_cons in Hrun. rewrite last_cons_cons.
  destruct Ichain as (Hx0 & _ & _).
  apply NoDup_cons in Ind as [Hdl _].
  destruct (head (root st)) as [hp hc] eqn:Ehd. cbn [ptr ctr] in *. subst hp.
  destruct (tail (root st)) as [tp tc] eqn:Etl. cbn [ptr ctr] in *.
  destruct (Nat.eqb_spec n (length (x :: l'))) as [En|En].
  - (* head and tail on the dummy: the dequeuer moves the tail first *)
    subst n. rewrite Nat.sub_diag in Ht. injection Ht as <-.
    exists (AqState (mb st)
              (AtomicQ (freeer (root st)) (freeer_arg (root st))
                       (CP x (to_i64 (hc + 1))) (CP x (to_i64 (tc + 1))))
              (<[g_dummy g := CP x (flip63 c)]> (els st))
              (if c <? 0 then (freeer_arg (root st), g_dummy g) :: calls st else calls st)).
    split; [|split].
    + unfold run_op, aq_dequeue.
      assert (Hloop : aq_dequeue_loop (S (S bound)) st
                = Ret (Some (CP (g_dummy g) hc, CP x c),
                       AqState (mb st)
                         (AtomicQ (freeer (root st)) (freeer_arg (root st))
                                  (CP x (to_i64 (hc + 1))) (CP x (to_i64 (tc + 1))))
                         (els st) (calls st))).
      { rewrite (aq_dequeue_loop_help st _ hc tc x c (S bound) Imb Ehd Etl Hc Hx0).
        apply (aq_dequeue_loop_run (with_tail st (CP x (to_i64 (tc + 1)))));
          cbn [with_tail mb root els head tail ptr]; try assumption.
        intros E. apply Hdl. rewrite E. apply list_elem_of_here. }
      mstep Hloop. cbn [ptr].
      erewrite bind_Ret;
        [|apply (aq_el_free_ok (g_dummy g) (CP x c)); [exact Hc|apply (Ii64 _ _ Hc)|exact Ifr]].
      reflexivity.
    + exact Hrun.
    + reflexivity.
  - (* the tail is further down *)
    assert (Hdt : g_dummy g ≠ tp).
    { intros E. apply Hdl. rewrite E.
      cbn [length] in Ht, Hle, En.
      replace (S (length l') - n)%nat with (S (length l' - n)) in Ht by lia.
      apply list_elem_of_lookup. eauto. }
    exists (AqState (mb st)
              (AtomicQ (freeer (root st)) (freeer_arg (root st))
                       (CP x (to_i64 (hc + 1))) (CP tp tc))
              (<[g_dummy g := CP x (flip63 c)]> (els st))
              (if c <? 0 then (freeer_arg (root st), g_dummy g) :: calls st else calls st)).
    split; [|split].
    + unfold run_op, aq_dequeue.
      assert (Hloop : aq_dequeue_loop (S (S bound)) st
                = Ret (Some (CP (g_dummy g) hc, CP x c),
                       AqState (mb st)
                         (AtomicQ (freeer (root st)) (freeer_arg (root st))
                                  (CP x (to_i64 (hc + 1))) (CP tp tc))
                         (els st) (calls st))).
      { rewrite <- Etl. apply aq_dequeue_loop_run; try assumption. now rewrite Etl. }
      mstep Hloop. cbn [ptr].
      erewrite bind_Ret;
        [|apply (aq_el_free_ok (g_dummy g) (CP x c)); [exact Hc|apply (Ii64 _ _ Hc)|exact Ifr]].
      reflexivity.
    + exact Hrun.
    + reflexivity.
Qed.

Lemma run_op_inv m0 g st o bound r st' :
  inv m0 g st → op_ok m0 g o = true → (op_size o ≤ bound)%nat → (1 ≤ bound)%nat →
  run_op bound o st = Ret (r, st') →
  inv m0 (ghost_step g o) st' ∧ fifo_run (g_live g) [o] = [r].
Proof.
  intros Hinv Hok Hsz Hb Hrun.
  destruct (step_op m0 g st o bound Hinv Hok Hsz Hb) as (e & st1 & He & Hinv1 & _ & Hr & _).
  unfold run_event in He. rewrite (bind_Ret get _ _ _ _ eq_refl) in He.
  rewrite (bind_Ret _ _ _ _ _ Hrun) in He. injection He as <- <-. auto.
Qed.

Lemma aq_enqueue_loop_help d l el last : ∀ n st bound,
  aligned16 (mb st) = true → chain (els st) d l → el ∉ d :: l →
  (n ≤ length l)%nat →
  (d :: l) !! (length l - n)%nat = Some (ptr (tail (root st))) →
  is_i64 (ctr (tail (root st))) →
  aq_enqueue_loop (n + bound) el last st
  = aq_enqueue_loop bound el last
      (with_tail st (CP (List.last l d) (to_i64 (ctr (tail (root st)) + Z.of_nat n)))).
Proof.
  induction n as [|n IH]; intros st bound Hmb Hch Hel Hle Ht Hi.
  - rewrite Nat.sub_0_r, lookup_last in Ht. injection Ht as Ht.
    rewrite Z.add_0_r, to_i64_id by assumption. rewrite Ht.
    replace (CP (ptr (tail (root st))) (ctr (tail (root st)))) with (tail (root st))
      by (destruct (tail (root st)); reflexivity).
    now rewrite with_tail_id.
  - destruct (tail (root st)) as [p tc] eqn:Etl. cbn [ptr ctr] in *.
    assert (is_Some ((d :: l) !! S (length l - S n))) as [p' Hp'].
    { apply lookup_lt_is_Some. cbn [length]. lia. }
    destruct (chain_lookup _ _ _ _ _ _ Hch Ht Hp') as [Hp0 [c Hc]].
    assert (Hpel : p ≠ el).
    { intros ->. apply Hel. apply list_elem_of_lookup. eauto. }
    change (S n + bound)%nat with (S (n + bound)). cbn [aq_enqueue_loop]. mget.
    rewrite Etl. cbn [ptr ctr]. mstep (load_el_ok _ _ _ Hc).
    destruct (Z.eqb_spec p el); [contradiction|]. cbn [negb].
    rewrite (bind_Ret _ _ _ _ _ (assert_true st)). mget.
    rewrite Etl, counted_ptr_eq_refl. cbn [negb ptr ctr].
    destruct (Z.eqb_spec p' NULL); [contradiction|].
    rewrite <- Etl. rewrite (bind_Ret _ _ _ _ _ (cas_tail_ok p' 1 st Hmb ltac:(lia))).
    rewrite Etl. cbn [ctr].
    change (AqState (mb st) _ (els st) (calls st))
      with (with_tail st (CP p' (to_i64 (tc + 1)))).
    rewrite IH; cbn [with_tail mb root els tail ptr ctr]; try assumption.
    + rewrite to_i64_add_l. do 4 f_equal. lia.
    + lia.
    + replace (length l - n)%nat with (S (length l - S n)) by lia. exact Hp'.
    + apply to_i64_range.
Qed.

Lemma link_chain_root ch : ∀ st m r,
  link_chain ch st = Ret (tt, AqState (mb st) (root st) m (calls st)) →
  link_chain ch (AqState (mb st) r (els st) (calls st))
  = Ret (tt, AqState (mb st) r m (calls st)).
Proof.
  induction ch as [|x ch IH]; intros st m r H.
  - cbn [link_chain] in *. unfold mret, M_ret, ret in *. injection H as H.
    destruct st; cbn in *. congruence.
  - cbn [link_chain] in *. destruct (els st !! x) as [c0|] eqn:E.
    + rewrite (bind_Ret _ _ _ _ _ (store_el_ptr_ok x _ c0 st E)) in H.
      erewrite bind_Ret; [|apply (store_el_ptr_ok x _ c0); exact E].
      match type of H with link_chain _ ?s = _ => exact (IH s m r H) end.
    + exfalso. unfold store_el_ptr, load_el, mbind, M_bind, bind in H.
      rewrite E in H. discriminate.
Qed.

Lemma link_prefix st el ch cel bound :
  aligned16 el = true → els st !! el = Some cel → is_i64 (ctr cel) → 0 ≤ ctr cel →
  chain (els st) el ch → NoDup (el :: ch) →
  (length ch < bound)%nat → 1 + Z.of_nat (length ch) < 2 ^ 63 →
  aq_enqueue_multi_link bound el st
  = (aq_enqueue_loop bound el (List.last ch el)
     ≫= λ tl, mret (tl, (List.last ch el, 1 + Z.of_nat (length ch)))) st.
Proof.
  intros Hael Hel Hi64 Hpos Hch Hnd Hb Hlen.
  unfold aq_enqueue_multi_link. rewrite Hael.
  rewrite (bind_Ret _ _ _ _ _ (assert_true st)).
  mstep (load_el_ok _ _ _ Hel).
  rewrite handshake_assert_test by assumption.
  replace (0 <=? ctr cel) with true by (symmetry; now apply Z.leb_le).
  rewrite (bind_Ret _ _ _ _ _ (assert_true st)).
  rewrite (bind_Ret _ _ _ _ _
             (aq_chain_last_ok ch el 1 bound st Hch Hnd ltac:(lia) ltac:(lia) Hlen)).
  reflexivity.
Qed.

Lemma llink m0 g n st ch bound :
  linv m0 g n st → chain_ok m0 g ch = true → (n + length ch ≤ bound)%nat →
  ∃ st1,
    (link_chain ch ≫= λ _, aq_enqueue_multi_link bound (hd NULL ch)) st
    = Ret ((CP (List.last (g_live g) (g_dummy g)) (g_count g),
            (List.last ch NULL, Z.of_nat (length ch))), st1) ∧
    tail (root st1) = CP (List.last (g_live g) (g_dummy g)) (g_count g) ∧
    linv m0 (ghost_step g (OpEnqueueMulti ch)) (length ch) st1 ∧
    run_op bound (OpEnqueueMulti ch) st
    = Ret (Z.of_nat (length (g_live g ++ ch)),
           with_tail st1 (tail_of (ghost_step g (OpEnqueueMulti ch)))) ∧
    run_op bound (OpEnqueueMulti ch) (with_tail st (tail_of g))
    = Ret (Z.of_nat (length (g_live g ++ ch)),
           with_tail st1 (tail_of (ghost_step g (OpEnqueueMulti ch)))).
Proof.
  intros [Hinv Hle Ht Htc] Hok Hb.
  destruct st as [mb0 [fr fa hd0 [tp tc]] m c0]. unfold with_tail, tail_of in *.
  cbn [with_tail mb root els calls freeer freeer_arg head tail ptr ctr] in *.
  set (t := List.last (g_live g) (g_dummy g)) in *.
  set (F := AqState mb0 (AtomicQ fr fa hd0 (CP t (g_count g))) m c0) in *.
  destruct (enqueue_setup m0 g F ch Hinv Hok)
    as (el & ch' & m1 & ct & cel & -> & Hlink & Hout & Hin & Hch & Hct & Hm1t & Htn & Hta
        & Hela & Hm1el & Hi & Hpos & Hnd & Hbusy).
  destruct (link_explicit m0 g F (el :: ch') bound Hinv Hok ltac:(lia))
    as (el' & ch'' & m1' & ct' & E & Hlink' & Hct' & Hl3 & Hrun & Hframe).
  injection E as <- <-. rewrite Hlink in Hlink'. injection Hlink' as <-.
  assert (ct' = ct) as -> by congruence. clear Hct' Hl3 Hframe.
  destruct (chain_ok_spec _ _ _ Hok) as (_ & _ & _ & Hcnt).
  pose proof Hinv as [Imb Ifr Idom Ihead Itail Ichain Ind Inodes Ipend Ipl Icount Ilive
                      Itctr Ihctr Ii64 Ibit Istamp].
  cbn [F mb root els calls freeer freeer_arg head tail ptr ctr] in *.
  set (m3 := <[t := CP el (to_i64 (ct + 1))]> (<[List.last ch' el := CP NULL (g_count g)]> m1))
    in *.
  set (st0 := AqState mb0 (AtomicQ fr fa hd0 (CP tp tc)) m c0).
  set (st1 := AqState mb0 (AtomicQ fr fa hd0 (CP tp tc)) m1 c0).
  assert (Hlink0 : link_chain (el :: ch') st0 = Ret (tt, st1)).
  { exact (link_chain_root (el :: ch') F m1 (AtomicQ fr fa hd0 (CP tp tc)) Hlink). }
  assert (Hlen : Z.of_nat (length (el :: ch')) = 1 + Z.of_nat (length ch'))
    by (simpl length; lia).
  simpl length in Hb.
  assert (Hchl : chain m1 (g_dummy g) (g_live g)).
  { apply (chain_ext m); [|exact Ichain]. intros x Hx. apply Hout. now apply Hbusy. }
  assert (Hel : el ∉ g_dummy g :: g_live g).
  { intros Hx. apply (Hbusy _ Hx), list_elem_of_here. }
  assert (Hloop : aq_enqueue_loop bound el (List.last ch' el) st1
                  = Ret (CP t (g_count g),
                         AqState mb0 (AtomicQ fr fa hd0 (CP t (g_count g))) m3 c0)).
  { replace bound with (n + S (bound - n - 1))%nat by lia.
    rewrite (aq_enqueue_loop_help (g_dummy g) (g_live g) el _ n st1 _ Imb Hchl Hel Hle Ht).
    2:{ cbn [st1 root tail ctr]. rewrite Htc. unfold is_i64. lia. }
    cbn [st1 root tail ctr with_tail mb els calls freeer freeer_arg head].
    rewrite Htc. replace (g_count g - Z.of_nat n + Z.of_nat n) with (g_count g) by lia.
    rewrite to_i64_id by (unfold is_i64; lia). fold t.
    assert (Hne : t ≠ el) by (intros E; apply Htn, elem_of_cons; left; exact E).
    assert (Hlast : t ≠ List.last ch' el).
    { intros E. apply Htn. fold t. rewrite E. apply last_elem_of. }
    destruct (chain_last_null _ _ _ Hch) as [cl Hcl].
    rewrite (aq_enqueue_loop_run (AqState mb0 (AtomicQ fr fa hd0 (CP t (g_count g))) m1 c0)
               el _ t (g_count g) ct cl _ eq_refl Hm1t Hta Hne Hlast Hcl).
    reflexivity. }
  assert (Hl : aq_enqueue_multi_link bound el st1
               = Ret ((CP t (g_count g), (List.last ch' el, 1 + Z.of_nat (length ch'))),
                      AqState mb0 (AtomicQ fr fa hd0 (CP t (g_count g))) m3 c0)).
  { rewrite (link_prefix st1 el ch' cel bound Hela Hm1el Hi Hpos Hch Hnd
               ltac:(lia) ltac:(lia)).
    mstep Hloop. reflexivity. }
  exists (AqState mb0 (AtomicQ fr fa hd0 (CP t (g_count g))) m3 c0).
  assert (Hfin : inv m0 (ghost_step g (OpEnqueueMulti (el :: ch')))
                   (AqState mb0
                      (AtomicQ fr fa hd0
                         (CP (List.last (g_live g ++ el :: ch') (g_dummy g))
                             (g_count g + Z.of_nat (length (el :: ch'))))) m3 c0)).
  { apply (proj1 (run_op_inv m0 g F (OpEnqueueMulti (el :: ch')) bound _ _ Hinv Hok ltac:(cbn; lia) ltac:(lia) Hrun)). }
  split; [|split; [|split; [|split]]]; [| | | |exact Hrun].
  - mstep Hlink0. cbn [hd]. rewrite Hl, last_cons_cons, Hlen. reflexivity.
  - reflexivity.
  - constructor; cbn [ghost_step g_dummy g_live g_count with_tail mb root els calls
                      freeer freeer_arg head tail ptr ctr].
    + exact Hfin.
    + rewrite length_app. lia.
    + rewrite length_app. replace (_ + _ - _)%nat with (length (g_live g)) by lia.
      fold t. change (g_dummy g :: g_live g ++ el :: ch')
        with ((g_dummy g :: g_live g) ++ el :: ch').
      rewrite lookup_app_l by (cbn [length]; lia). apply lookup_last.
    + lia.
  - unfold run_op. mstep Hlink0. cbn [hd].
    rewrite aq_enqueue_multi_split. mstep Hl. cbn [fst snd].
    unfold aq_enqueue_multi_swing. cbn [fst snd].
    erewrite bind_Ret; [|apply (cas_tail_ok _ _ (AqState mb0 (AtomicQ fr fa hd0 (CP t (g_count g))) m3 c0)); [exact Imb|lia]].
    mget. unfold with_tail, tail_of.
    cbn [mb root els calls freeer freeer_arg head tail ptr ctr ghost_step
         g_dummy g_live g_count].
    rewrite Ihctr, last_app_cons, length_app, Nat2Z.inj_add, Hlen.
    rewrite (to_i64_id (g_count g + _)) by (unfold is_i64; lia).
    rewrite to_i64_id by (unfold is_i64; lia).
    unfold mret, M_ret, ret. repeat f_equal; lia.
Qed.

Lemma lag_after_cons g n o ops :
  lag_after n (g_live g) (o :: ops)
  = lag_after (lag_after n (g_live g) [o]) (g_live (ghost_step g o)) ops.
Proof.
  destruct o; cbn [lag_after ghost_step g_live]; try reflexivity.
  destruct (g_live g) eqn:E; cbn [g_live]; rewrite ?E; reflexivity.
Qed.

Lemma lag_after_le ops : ∀ n q, (lag_after n q ops ≤ n)%nat.
Proof.
  induction ops as [|o ops IH]; intros n q; [reflexivity|].
  destruct o; cbn [lag_after].
  - etransitivity; [apply IH|lia].
  - etransitivity; [apply IH|lia].
  - destruct q; [apply IH|]. etransitivity; [apply IH|].
    destruct (n =? _)%nat; lia.
  - apply IH.
Qed.

(** One operation of a valid trace on a queue whose tail lags. *)
Lemma lstep_op m0 g n st o bound :
  linv m0 g n st → op_ok m0 g o = true → (op_size o + n + 1 ≤ bound)%nat →
  ∃ r st', run_event bound o st = Ret (Event o (g_dummy g) r, st') ∧
    linv m0 (ghost_step g o) (lag_after n (g_live g) [o]) st' ∧
    fifo_run (g_live g) [o] = [r] ∧
    freeer_arg (root st') = freeer_arg (root st) ∧
    ∀ P R, tally g P R st →
      tally (ghost_step g o) (λ x, (P x + Nat.b2n (is_pass x (Event o (g_dummy g) r)))%nat)
            (λ x, (R x + Nat.b2n (is_release x (Event o (g_dummy g) r)))%nat) st'.
Proof.
  intros Hl Hok Hb. destruct o as [el|ch| |el].
  - (* aq_enqueue *)
    cbn [op_size] in Hb.
    destruct (llink m0 g n st [el] bound Hl Hok ltac:(cbn [length]; lia))
      as (st1 & _ & _ & _ & Hrun & Hsim).
    rewrite <- run_op_enqueue_single in Hrun, Hsim.
    eexists _, _.
    apply (sim_linv m0 g n st (OpEnqueue el) bound _ _ 0 Hl Hok
             ltac:(cbn [op_size]; lia) ltac:(lia) Hrun Hsim).
    + lia.
    + rewrite Nat.sub_0_r. apply lookup_last.
    + cbn. lia.
  - (* aq_enqueue_multi *)
    cbn [op_size] in Hb.
    destruct (llink m0 g n st ch bound Hl Hok ltac:(lia))
      as (st1 & _ & _ & _ & Hrun & Hsim).
    eexists _, _.
    apply (sim_linv m0 g n st (OpEnqueueMulti ch) bound _ _ 0 Hl Hok
             ltac:(cbn [op_size]; lia) ltac:(lia) Hrun Hsim).
    + lia.
    + rewrite Nat.sub_0_r. apply lookup_last.
    + cbn. lia.
  - (* aq_dequeue *)
    cbn [op_size] in Hb.
    assert (Hcase : g_live g = [] ∨ ∃ x l', g_live g = x :: l')
      by (destruct (g_live g); eauto).
    destruct Hcase as [El|(x & l' & El)].
    + destruct (lsim_dequeue_empty m0 g n st bound Hl El ltac:(lia)) as [Hrun Hsim].
      pose proof Hl as [_ Hle Ht Htc].
      assert (Eg : ghost_step g OpDequeue = g) by (cbn [ghost_step]; now rewrite El).
      exists NULL, st.
      replace (lag_after n (g_live g) [OpDequeue]) with n by (rewrite El; reflexivity).
      apply (sim_linv m0 g n st OpDequeue bound _ _ n Hl Hok
               ltac:(cbn [op_size]; lia) ltac:(lia) Hrun Hsim); rewrite Eg; assumption.
    + destruct (lsim_dequeue m0 g n st x l' bound Hl El ltac:(lia))
        as (st' & Hrun & Hsim & Htl).
      pose proof Hl as [[_ _ _ _ _ _ _ _ _ _ Icount Ilive _ _ _ _ _] Hle Ht Htc].
      assert (Eg : ghost_step g OpDequeue = Ghost x l' (x :: g_pend g) (g_count g))
        by (cbn [ghost_step]; now rewrite El).
      exists x, st'.
      replace (lag_after n (g_live g) [OpDequeue])
        with (if (n =? length (g_live g))%nat then pred n else n)
        by (rewrite El; reflexivity).
      apply (sim_linv m0 g n st OpDequeue bound _ _ _ Hl Hok
               ltac:(cbn [op_size]; lia) ltac:(lia) Hrun Hsim);
        rewrite Eg, ?Htl; rewrite El in *; cbn [g_dummy g_live g_count length] in *;
        destruct (Nat.eqb_spec n (S (length l'))) as [En|En]; cbn [ptr ctr].
      * lia.
      * lia.
      * replace (_ - _)%nat with 0%nat by lia. reflexivity.
      * replace (S (length l') - n)%nat with (S (length l' - n)) in Ht by lia. exact Ht.
      * rewrite Htc, to_i64_id; [lia|unfold is_i64; lia].
      * exact Htc.
  - (* aq_el_free by the user *)
    destruct (lsim_release m0 g n st el bound Hl Hok) as (st' & Hrun & Hsim & Htl).
    pose proof Hl as [_ Hle Ht Htc].
    exists 0, st'.
    apply (sim_linv m0 g n st (OpRelease el) bound _ _ n Hl Hok
             ltac:(cbn [op_size]; lia) ltac:(lia) Hrun Hsim);
      rewrite ?Htl; cbn [ghost_step g_dummy g_live g_count]; assumption.
Qed.

(** A valid trace on a queue whose tail lags. *)
Lemma run_linv m0 ops : ∀ g n st bound P R,
  linv m0 g n st → valid m0 g ops = true → (need ops + n + 1 ≤ bound)%nat →
  tally g P R st →
  ∃ evs st', run bound ops st = Ret (evs, st') ∧
    linv m0 (ghost_run g ops) (lag_after n (g_live g) ops) st' ∧
    map ev_op evs = ops ∧
    map ev_result evs = fifo_run (g_live g) ops ∧
    freeer_arg (root st') = freeer_arg (root st) ∧
    tally (ghost_run g ops) (λ x, (P x + passed evs x)%nat)
          (λ x, (R x + released evs x)%nat) st'.
Proof.
  induction ops as [|o ops IH]; intros g n st bound P R Hl Hv Hb HT.
  - exists [], st. split; [reflexivity|]. split; [exact Hl|].
    split; [reflexivity|]. split; [reflexivity|]. split; [reflexivity|].
    eapply tally_ext; [| |exact HT]; intros x; cbn; lia.
  - cbn [valid] in Hv. apply andb_true_iff in Hv as [Hok Hv].
    cbn [need foldr] in Hb. fold (need ops) in Hb. pose proof (need_ge_1 ops).
    destruct (lstep_op m0 g n st o bound Hl Hok ltac:(lia))
      as (r & st1 & Hrun & Hl1 & Hres & Ha & HT1).
    pose proof (lag_after_le [o] n (g_live g)).
    destruct (IH (ghost_step g o) _ st1 bound _ _ Hl1 Hv ltac:(lia) (HT1 P R HT))
      as (evs & st' & Hrun' & Hl' & Hops & Hress & Ha' & HT').
    exists (Event o (g_dummy g) r :: evs), st'. split; [|split; [|split; [|split; [|split]]]].
    + cbn [run]. mstep Hrun. mstep Hrun'. reflexivity.
    + cbn [ghost_run]. rewrite lag_after_cons. exact Hl'.
    + cbn [map ev_op]. now rewrite Hops.
    + rewrite fifo_run_cons, Hres. cbn [map app ev_result]. now rewrite Hress.
    + now rewrite Ha'.
    + eapply tally_ext; [| |exact HT']; intros x; unfold passed, released;
        cbn [List.filter];
        [destruct (is_pass x (Event o (g_dummy g) r))
        |destruct (is_release x (Event o (g_dummy g) r))];
        cbn [Nat.b2n length]; lia.
Qed.

Lemma valid_app m0 ops1 : ∀ g ops2,
  valid m0 g (ops1 ++ ops2) = true →
  valid m0 g ops1 = true ∧ valid m0 (ghost_run g ops1) ops2 = true.
Proof.
  induction ops1 as [|o ops1 IH]; intros g ops2 Hv; [split; [reflexivity|exact Hv]|].
  cbn [app valid ghost_run] in *. apply andb_true_iff in Hv as [-> Hv].
  now apply IH.
Qed.

(** The tail counter never goes back, and while it keeps its value the
    tail stays on its element and the last element stays the last. *)
Lemma tail_stable_step m0 g n o :
  op_ok m0 g o = true → (n ≤ length (g_live g))%nat →
  let g' := ghost_step g o in
  let n' := lag_after n (g_live g) [o] in
  (n' ≤ length (g_live g'))%nat ∧
  g_count g - Z.of_nat n ≤ g_count g' - Z.of_nat n' ∧
  (g_count g - Z.of_nat n = g_count g' - Z.of_nat n' →
   n' = n ∧ g_count g' = g_count g ∧
   (g_dummy g' :: g_live g') !! (length (g_live g') - n')%nat
   = (g_dummy g :: g_live g) !! (length (g_live g) - n)%nat ∧
   ((1 ≤ n)%nat → List.last (g_live g') (g_dummy g') = List.last (g_live g) (g_dummy g))).
Proof.
  intros Hok Hn. destruct g as [d l pend cnt]. cbn [g_dummy g_live g_pend g_count] in *.
  destruct o as [el|ch| |el]; cbn [ghost_step lag_after g_dummy g_live g_count op_ok] in *.
  - rewrite length_app. cbn [length]. split; [lia|]. split; [lia|]. intros E. lia.
  - destruct (chain_ok_spec _ _ _ Hok) as (Hne & _).
    assert (0 < length ch)%nat by (destruct ch; [congruence|cbn; lia]).
    rewrite length_app. split; [lia|]. split; [lia|]. intros E. lia.
  - destruct l as [|x l']; cbn [g_dummy g_live g_count length] in *.
    + split; [lia|]. split; [lia|]. intros _. auto.
    + destruct (Nat.eqb_spec n (S (length l'))) as [En|En].
      * split; [lia|]. split; [lia|]. intros E. lia.
      * split; [lia|]. split; [lia|]. intros _.
        split; [reflexivity|]. split; [reflexivity|]. split.
        -- replace (S (length l') - n)%nat with (S (length l' - n)) by lia. reflexivity.
        -- intros _. now rewrite last_cons_cons.
  - split; [lia|]. split; [lia|]. intros _. auto.
Qed.

Lemma tail_stable m0 ops : ∀ g n,
  valid m0 g ops = true → (n ≤ length (g_live g))%nat →
  let g' := ghost_run g ops in
  let n' := lag_after n (g_live g) ops in
  (n' ≤ length (g_live g'))%nat ∧
  g_count g - Z.of_nat n ≤ g_count g' - Z.of_nat n' ∧
  (g_count g - Z.of_nat n = g_count g' - Z.of_nat n' →
   n' = n ∧ g_count g' = g_count g ∧
   (g_dummy g' :: g_live g') !! (length (g_live g') - n')%nat
   = (g_dummy g :: g_live g) !! (length (g_live g) - n)%nat ∧
   ((1 ≤ n)%nat → List.last (g_live g') (g_dummy g') = List.last (g_live g) (g_dummy g))).
Proof.
  induction ops as [|o ops IH]; intros g n Hv Hn; cbv zeta.
  - cbn [ghost_run lag_after]. split; [exact Hn|]. split; [lia|]. auto.
  - cbn [valid] in Hv. apply andb_true_iff in Hv as [Hok Hv].
    destruct (tail_stable_step m0 g n o Hok Hn) as (Hn1 & Hle1 & Heq1).
    destruct (IH (ghost_step g o) _ Hv Hn1) as (Hn2 & Hle2 & Heq2).
    cbn [ghost_run]. rewrite lag_after_cons.
    split; [exact Hn2|]. split; [lia|]. intros E.
    destruct (Heq1 ltac:(lia)) as (E1 & E2 & E3 & E4).
    destruct (Heq2 ltac:(lia)) as (E1' & E2' & E3' & E4').
    split; [congruence|]. split; [congruence|]. split; [congruence|].
    intros H1. rewrite E4' by (rewrite E1; exact H1). now apply E4.
Qed.

(** The late compare and swap on the tail: it puts the tail in place if
    nobody moved it, and fails without writing otherwise. *)
Lemma lswing m0 g ch ops g2 n2 st2 :
  let g1 := ghost_step g (OpEnqueueMulti ch) in
  chain_ok m0 g ch = true → valid m0 g1 ops = true →
  g2 = ghost_run g1 ops → n2 = lag_after (length ch) (g_live g1) ops →
  linv m0 g2 n2 st2 →
  ∃ r n3 st3,
    aq_enqueue_multi_swing (tail_of g) (List.last ch NULL, Z.of_nat (length ch)) st2
    = Ret (r, st3) ∧
    linv m0 g2 n3 st3 ∧ (n3 ≤ length ch)%nat ∧
    r = Z.of_nat (length (g_live g2)) - Z.of_nat n3 ∧
    calls st3 = calls st2 ∧ els st3 = els st2 ∧ head (root st3) = head (root st2) ∧
    freeer_arg (root st3) = freeer_arg (root st2) ∧
    (st3 = st2 ∨ (tail (root st2) = tail_of g ∧ n3 = 0%nat)).
Proof.
  intros g1 Hok Hv -> -> Hl.
  destruct (chain_ok_spec _ _ _ Hok) as (Hne & _ & _ & Hcnt).
  assert (Hlen : (1 ≤ length ch)%nat) by (destruct ch; [congruence|cbn; lia]).
  assert (Hn1 : (length ch ≤ length (g_live g1))%nat).
  { cbn [g1 ghost_step g_live]. rewrite length_app. lia. }
  destruct (tail_stable m0 ops g1 (length ch) Hv Hn1) as (Hn2 & Hle & Heq).
  set (g2 := ghost_run g1 ops) in *. set (n2 := lag_after _ _ ops) in *.
  pose proof Hl as [Hinv _ Ht Htc].
  pose proof Hinv as [Imb _ _ _ _ _ _ _ _ _ Icount Ilive _ Ihctr _ _ _].
  cbn [with_tail mb root head] in Imb, Ihctr.
  unfold aq_enqueue_multi_swing. cbn [fst snd].
  destruct (Z.eq_dec (g_count g1 - Z.of_nat (length ch)) (g_count g2 - Z.of_nat n2))
    as [E|E].
  - (* nobody moved the tail *)
    destruct (Heq E) as (En & Ec & Ep & Elast). specialize (Elast Hlen).
    assert (Etl : tail (root st2) = tail_of g).
    { unfold tail_of. destruct (tail (root st2)) as [tp tc]. cbn [ptr ctr] in *.
      rewrite Ep in Ht. cbn [g1 ghost_step g_dummy g_live g_count] in Ht, Htc, Ec.
      rewrite length_app in Ht.
      replace (length (g_live g) + length ch - length ch)%nat
        with (length (g_live g)) in Ht by lia.
      change (g_dummy g :: g_live g ++ ch) with ((g_dummy g :: g_live g) ++ ch) in Ht.
      rewrite lookup_app_l, lookup_last in Ht by (cbn [length]; lia).
      injection Ht as <-. f_equal. lia. }
    assert (Ef : with_tail st2 (CP (List.last ch NULL)
                                   (to_i64 (ctr (tail (root st2)) + Z.of_nat (length ch))))
                 = with_tail st2 (tail_of g2)).
    { unfold tail_of. rewrite Elast, Etl. cbn [g1 ghost_step g_dummy g_live g_count tail_of ctr] in *.
      rewrite Ec. rewrite to_i64_id by (unfold is_i64; lia).
      destruct ch as [|el ch']; [congruence|]. rewrite last_app_cons.
      rewrite (last_cons_cons el ch' NULL). reflexivity. }
    exists (Z.of_nat (length (g_live g2))), 0%nat, (with_tail st2 (tail_of g2)).
    split; [|split; [|split; [|split; [|split; [|split; [|split; [|split]]]]]]];
      try reflexivity.
    + rewrite <- Etl.
      erewrite bind_Ret; [|apply cas_tail_ok; [exact Imb|lia]]. mget.
      fold (with_tail st2 (CP (List.last ch NULL)
                              (to_i64 (ctr (tail (root st2)) + Z.of_nat (length ch))))).
      rewrite Ef. cbn [with_tail root tail head tail_of ctr]. rewrite Ihctr.
      unfold mret, M_ret, ret. rewrite to_i64_id; [do 2 f_equal; lia|unfold is_i64; lia].
    + apply inv_to_linv. exact Hinv.
    + lia.
    + lia.
    + right. auto.
  - (* the tail has moved: the compare and swap fails *)
    assert (Hne' : tail (root st2) ≠ tail_of g).
    { intros Etl. apply E. rewrite <- Htc, Etl. cbn [tail_of ctr g1 ghost_step g_count]. lia. }
    exists (Z.of_nat (length (g_live g2)) - Z.of_nat n2), n2, st2.
    split; [|split; [|split; [|split; [|split; [|split; [|split; [|split]]]]]]];
      try reflexivity.
    + rewrite (bind_Ret _ _ _ _ _ (cas_tail_miss (tail_of g) (List.last ch NULL) (Z.of_nat (length ch))
                                   st2 Imb ltac:(lia) Hne')). mget.
      rewrite Htc, Ihctr. unfold mret, M_ret, ret.
      rewrite to_i64_id; [do 2 f_equal; lia|unfold is_i64; lia].
    + exact Hl.
    + pose proof (lag_after_le ops (length ch) (g_live g1)). lia.
    + left. reflexivity.
Qed.

Lemma fifo_after_app ops1 : ∀ q ops2,
  fifo_after q (ops1 ++ ops2) = fifo_after (fifo_after q ops1) ops2.
Proof.
  induction ops1 as [|o ops1 IH]; intros q ops2; [reflexivity|].
  destruct o; cbn [app fifo_after]; apply IH.
Qed.

Lemma ghost_run_app ops1 : ∀ g ops2,
  ghost_run g (ops1 ++ ops2) = ghost_run (ghost_run g ops1) ops2.
Proof. induction ops1 as [|o ops1 IH]; intros g ops2; [reflexivity|]. apply IH. Qed.

Lemma passed_app evs1 evs2 x : passed (evs1 ++ evs2) x = (passed evs1 x + passed evs2 x)%nat.
Proof. unfold passed. now rewrite List.filter_app, length_app. Qed.

Lemma released_app evs1 evs2 x :
  released (evs1 ++ evs2) x = (released evs1 x + released evs2 x)%nat.
Proof. unfold released. now rewrite List.filter_app, length_app. Qed.

(** X1.  An enqueuer that is interrupted between its two compare and
    swaps, after it linked its chain behind the last element and before
    it moved [mb->tail].  The operations that run in between and after
    all return, with the results of the list to which the chain was
    appended when it was linked; they move the late tail forward where
    they find it behind.  The compare and swap of the interrupted
    enqueuer then either finds the tail as it left it, or fails and
    writes nothing; what it returns is at most the length of the queue.
    At the end the elements linked from the head are the list, and every
    element has had its callback once for each completed pair of release
    and passing of the head. *)
Theorem interrupted_enqueue_is_linearised sc ch ops2 ops3 bound :
  scenario_ok sc = true →
  chain_ok (sc_mem sc) (ghost_run (ghost0 sc) (sc_ops sc)) ch = true →
  valid (sc_mem sc) (ghost_step (ghost_run (ghost0 sc) (sc_ops sc)) (OpEnqueueMulti ch))
        (ops2 ++ ops3) = true →
  (need (sc_ops sc) ≤ bound)%nat →
  (need ops2 + length ch + 1 ≤ bound)%nat → (need ops3 + length ch + 1 ≤ bound)%nat →
  ∃ evs st p st1 evs2 st2 r st3 evs3 st4,
    play bound sc = Ret (evs, st) ∧
    (link_chain ch ≫= λ _, aq_enqueue_multi_link bound (hd NULL ch)) st = Ret (p, st1) ∧
    run bound ops2 st1 = Ret (evs2, st2) ∧
    aq_enqueue_multi_swing p.1 p.2 st2 = Ret (r, st3) ∧
    run bound ops3 st3 = Ret (evs3, st4) ∧
    p.1 = tail (root st) ∧ tail (root st1) = tail (root st) ∧
    map ev_result (evs2 ++ evs3)
    = fifo_run (fifo_after [] (sc_ops sc) ++ ch) (ops2 ++ ops3) ∧
    (st3 = st2 ∨ tail (root st2) = tail (root st)) ∧
    0 ≤ r ≤ Z.of_nat (length (fifo_after (fifo_after [] (sc_ops sc) ++ ch) ops2)) ∧
    chain (els st4) (ptr (head (root st4)))
          (fifo_after (fifo_after [] (sc_ops sc) ++ ch) (ops2 ++ ops3)) ∧
    ∀ x, fired st4 x
         = Nat.min (passed (evs ++ evs2 ++ evs3) x)
                   (preset (sc_dummy sc) x + released (evs ++ evs2 ++ evs3) x).
Proof.
  intros Hsc Hok Hv Hb1 Hb2 Hb3.
  destruct (play_valid sc bound Hsc Hb1) as (evs & st & Hplay & Hinv & _ & _ & _ & HT).
  set (m0 := sc_mem sc) in *. set (g := ghost_run (ghost0 sc) (sc_ops sc)) in *.
  set (g1 := ghost_step g (OpEnqueueMulti ch)) in *.
  apply valid_app in Hv as [Hv2 Hv3].
  pose proof (need_ge_1 ops2). pose proof (need_ge_1 ops3).
  assert (Hq : g_live g = fifo_after [] (sc_ops sc)) by apply ghost_run_live.
  assert (Htl0 : tail (root st) = tail_of g).
  { destruct Hinv as [_ _ _ _ Ht _ _ _ _ _ _ _ Htc _ _ _ _].
    unfold tail_of. destruct (tail (root st)); cbn [ptr ctr] in *. congruence. }
  (* the chain is linked *)
  destruct (llink m0 g 0 st ch bound (inv_to_linv _ _ _ Hinv) Hok ltac:(lia))
    as (st1 & Hlink & Htl1 & Hl1 & Hrun1 & Hsim1).
  destruct (sim_linv m0 g 0 st (OpEnqueueMulti ch) bound _ _ 0 (inv_to_linv _ _ _ Hinv) Hok
              ltac:(cbn [op_size]; lia) ltac:(lia) Hrun1 Hsim1 ltac:(lia)
              ltac:(rewrite Nat.sub_0_r; apply lookup_last) ltac:(cbn; lia))
    as (_ & _ & _ & _ & HT1).
  specialize (HT1 _ _ HT).
  assert (HT1' : tally g1 (passed evs) (λ x, (preset (sc_dummy sc) x + released evs x)%nat) st1).
  { eapply tally_ext; [| |exact HT1]; intros x; cbn; lia. }
  (* the operations in between *)
  destruct (run_linv m0 ops2 g1 (length ch) st1 bound _ _ Hl1 Hv2 ltac:(lia) HT1')
    as (evs2 & st2 & Hrun2 & Hl2 & _ & Hres2 & _ & HT2).
  (* the late compare and swap *)
  destruct (lswing m0 g ch ops2 _ _ st2 Hok Hv2 eq_refl eq_refl Hl2)
    as (r & n3 & st3 & Hsw & Hl3 & Hn3 & Hr & Hc3 & _ & _ & _ & Hcase).
  assert (HT3 : tally (ghost_run g1 ops2)
                  (λ x, (passed evs x + passed evs2 x)%nat)
                  (λ x, (preset (sc_dummy sc) x + released evs x + released evs2 x)%nat) st3).
  { intros x. destruct (HT2 x) as [H1 H2]. split; [|exact H2].
    rewrite (fired_same _ _ Hc3). exact H1. }
  (* the operations after it *)
  destruct (run_linv m0 ops3 _ n3 st3 bound _ _ Hl3 Hv3 ltac:(lia) HT3)
    as (evs3 & st4 & Hrun3 & Hl4 & _ & Hres3 & _ & HT4).
  assert (Hq1 : g_live g1 = fifo_after [] (sc_ops sc) ++ ch).
  { cbn [g1 ghost_step g_live]. now rewrite Hq. }
  subst g1.
  exists evs, st, (tail_of g, (List.last ch NULL, Z.of_nat (length ch))), st1,
         evs2, st2, r, st3, evs3, st4.
  split; [exact Hplay|]. split; [exact Hlink|]. split; [exact Hrun2|].
  split; [exact Hsw|]. split; [exact Hrun3|].
  split; [now rewrite Htl0|]. split; [now rewrite Htl0|].
  split; [|split; [|split; [|split]]].
  - rewrite map_app, Hres2, Hres3, fifo_run_app, ghost_run_live, Hq1. reflexivity.
  - destruct Hcase as [->|[E _]]; [now left|right; now rewrite Htl0].
  - destruct Hl3 as [_ Hle3 _ _]. rewrite ghost_run_live, Hq1 in Hr, Hle3. lia.
  - destruct Hl4 as [[_ _ _ Ih _ Ich _ _ _ _ _ _ _ _ _ _ _] _ _ _].
    cbn [with_tail root head els] in Ih, Ich. rewrite Ih.
    rewrite fifo_after_app, <- Hq1, <- !ghost_run_live. exact Ich.
  - intros x. destruct (HT4 x) as [H1 _]. rewrite H1.
    rewrite !passed_app, !released_app. f_equal; lia.
Qed.

Lemma interrupted_enqueue_is_linearised_witness :
  ∃ evs st p st1 evs2 st2 r st3 evs3 st4,
    play 5 (scenario_of [OpEnqueue 32]) = Ret (evs, st) ∧
    (link_chain [48; 64] ≫= λ _, aq_enqueue_multi_link 5 48) st = Ret (p, st1) ∧
    run 5 [OpDequeue; OpDequeue] st1 = Ret (evs2, st2) ∧
    aq_enqueue_multi_swing p.1 p.2 st2 = Ret (r, st3) ∧
    run 5 [OpEnqueue 80; OpDequeue; OpDequeue; OpDequeue] st3 = Ret (evs3, st4) ∧
    map ev_result (evs2 ++ evs3) = [32; 48; 2; 64; 80; NULL].
Proof.
  destruct (interrupted_enqueue_is_linearised (scenario_of [OpEnqueue 32]) [48; 64]
              [OpDequeue; OpDequeue] [OpEnqueue 80; OpDequeue; OpDequeue; OpDequeue] 5)
    as (evs & st & p & st1 & evs2 & st2 & r & st3 & evs3 & st4
        & H1 & H2 & H3 & H4 & H5 & _ & _ & H6 & _);
    [reflexivity|reflexivity|reflexivity|vm_compute; lia|vm_compute; lia|vm_compute; lia|].
  exists evs, st, p, st1, evs2, st2, r, st3, evs3, st4.
  split; [exact H1|]. split; [exact H2|]. split; [exact H3|]. split; [exact H4|].
  split; [exact H5|exact H6].
Defined.

Lemma linv_queued m0 g n st :
  linv m0 g n st →
  aq_queued st = Ret (Z.of_nat (length (g_live g)) - Z.of_nat n, st).
Proof.
  intros [[_ _ _ _ _ _ _ _ _ _ Hc Hl _ Hh _ _ _] Hle _ Ht].
  cbn [with_tail root head] in Hh.
  rewrite aq_queued_run, Ht, Hh.
  rewrite to_i64_id; [do 2 f_equal; lia|unfold is_i64; lia].
Qed.

Lemma linv_empty m0 g n st :
  linv m0 g n st →
  aq_empty st = Ret (match g_live g with [] => true | _ => false end, st).
Proof.
  intros [[_ _ _ Hh _ Hch _ _ _ _ _ _ _ _ _ _ _] _ _ _].
  cbn [with_tail root head els] in Hh, Hch. unfold aq_empty. mget. rewrite Hh.
  destruct (g_live g) as [|x l].
  - destruct Hch as [c Hc]. mstep (load_el_ok _ _ _ Hc). reflexivity.
  - destruct Hch as (Hx & [c Hc] & _). mstep (load_el_ok _ _ _ Hc). cbn [ptr].
    destruct (Z.eqb_spec x NULL); [contradiction|reflexivity].
Qed.

Lemma link_after_play sc ch bound :
  scenario_ok sc = true →
  chain_ok (sc_mem sc) (ghost_run (ghost0 sc) (sc_ops sc)) ch = true →
  (need (sc_ops sc) ≤ bound)%nat → (length ch ≤ bound)%nat →
  ∃ evs st st1,
    play bound sc = Ret (evs, st) ∧
    (link_chain ch ≫= λ _, aq_enqueue_multi_link bound (hd NULL ch)) st
    = Ret ((tail_of (ghost_run (ghost0 sc) (sc_ops sc)),
            (List.last ch NULL, Z.of_nat (length ch))), st1) ∧
    inv (sc_mem sc) (ghost_run (ghost0 sc) (sc_ops sc)) st ∧
    linv (sc_mem sc) (ghost_step (ghost_run (ghost0 sc) (sc_ops sc)) (OpEnqueueMulti ch))
         (length ch) st1 ∧
    tally (ghost_step (ghost_run (ghost0 sc) (sc_ops sc)) (OpEnqueueMulti ch))
          (passed evs) (λ x, (preset (sc_dummy sc) x + released evs x)%nat) st1.
Proof.
  intros Hsc Hok Hb1 Hb2.
  destruct (play_valid sc bound Hsc Hb1) as (evs & st & Hplay & Hinv & _ & _ & _ & HT).
  set (m0 := sc_mem sc) in *. set (g := ghost_run (ghost0 sc) (sc_ops sc)) in *.
  destruct (chain_ok_spec _ _ _ Hok) as (Hne & _).
  assert (1 ≤ length ch)%nat by (destruct ch; [congruence|cbn; lia]).
  destruct (llink m0 g 0 st ch bound (inv_to_linv _ _ _ Hinv) Hok ltac:(lia))
    as (st1 & Hlink & Htl1 & Hl1 & Hrun1 & Hsim1).
  destruct (sim_linv m0 g 0 st (OpEnqueueMulti ch) bound _ _ 0 (inv_to_linv _ _ _ Hinv) Hok
              ltac:(cbn [op_size]; lia) ltac:(lia) Hrun1 Hsim1 ltac:(lia)
              ltac:(rewrite Nat.sub_0_r; apply lookup_last) ltac:(cbn; lia))
    as (_ & _ & _ & _ & HT1).
  specialize (HT1 _ _ HT).
  exists evs, st, st1. split; [exact Hplay|]. split; [exact Hlink|].
  split; [exact Hinv|]. split; [exact Hl1|].
  eapply tally_ext; [| |exact HT1]; intros x; cbn; lia.
Qed.

(** X2.  What the observers return while the tail lags.  After an
    enqueuer linked its chain and before it moved [mb->tail], and after
    any valid operations that follow, [aq_queued] returns the length of
    the queue minus the number of elements the tail is behind, while
    [aq_empty] returns whether the queue is empty.  Right after the link
    [aq_queued] still returns the length without the chain, 0 on a queue
    that was empty, although [aq_empty] returns false. *)
Theorem observers_while_tail_lags sc ch ops2 bound :
  scenario_ok sc = true →
  chain_ok (sc_mem sc) (ghost_run (ghost0 sc) (sc_ops sc)) ch = true →
  valid (sc_mem sc) (ghost_step (ghost_run (ghost0 sc) (sc_ops sc)) (OpEnqueueMulti ch))
        ops2 = true →
  (need (sc_ops sc) ≤ bound)%nat → (need ops2 + length ch + 1 ≤ bound)%nat →
  ∃ evs st p st1 evs2 st2,
    play bound sc = Ret (evs, st) ∧
    (link_chain ch ≫= λ _, aq_enqueue_multi_link bound (hd NULL ch)) st = Ret (p, st1) ∧
    run bound ops2 st1 = Ret (evs2, st2) ∧
    aq_queued st1 = Ret (Z.of_nat (length (fifo_after [] (sc_ops sc))), st1) ∧
    aq_empty st1 = Ret (false, st1) ∧
    let q1 := fifo_after [] (sc_ops sc) ++ ch in
    (lag_after (length ch) q1 ops2 ≤ length (fifo_after q1 ops2))%nat ∧
    aq_queued st2
    = Ret (Z.of_nat (length (fifo_after q1 ops2))
           - Z.of_nat (lag_after (length ch) q1 ops2), st2) ∧
    aq_empty st2 = Ret (match fifo_after q1 ops2 with [] => true | _ => false end, st2).
Proof.
  intros Hsc Hok Hv Hb1 Hb2.
  pose proof (need_ge_1 ops2).
  destruct (link_after_play sc ch bound Hsc Hok Hb1 ltac:(lia))
    as (evs & st & st1 & Hplay & Hlink & Hinv & Hl1 & HT1).
  set (m0 := sc_mem sc) in *. set (g := ghost_run (ghost0 sc) (sc_ops sc)) in *.
  assert (Hq : g_live g = fifo_after [] (sc_ops sc)) by apply ghost_run_live.
  destruct (chain_ok_spec _ _ _ Hok) as (Hne & _).
  destruct (run_linv m0 ops2 _ (length ch) st1 bound _ _ Hl1 Hv ltac:(lia) HT1)
    as (evs2 & st2 & Hrun2 & Hl2 & _).
  exists evs, st, (tail_of g, (List.last ch NULL, Z.of_nat (length ch))), st1, evs2, st2.
  split; [exact Hplay|]. split; [exact Hlink|]. split; [exact Hrun2|].
  assert (Hq1 : g_live (ghost_step g (OpEnqueueMulti ch)) = fifo_after [] (sc_ops sc) ++ ch).
  { cbn [ghost_step g_live]. now rewrite Hq. }
  split; [|split; [|cbv zeta; split; [|split]]].
  - rewrite (linv_queued _ _ _ _ Hl1), Hq1, length_app, Nat2Z.inj_add.
    do 2 f_equal. lia.
  - rewrite (linv_empty _ _ _ _ Hl1), Hq1.
    destruct ch; [congruence|]. now destruct (fifo_after [] (sc_ops sc)).
  - destruct Hl2 as [_ Hle _ _]. now rewrite ghost_run_live, Hq1 in Hle.
  - rewrite (linv_queued _ _ _ _ Hl2), ghost_run_live, Hq1. reflexivity.
  - rewrite (linv_empty _ _ _ _ Hl2), ghost_run_live, Hq1. reflexivity.
Qed.

Lemma observers_while_tail_lags_witness :
  ∃ evs st p st1,
    play 4 (scenario_of []) = Ret (evs, st) ∧
    (link_chain [32; 48] ≫= λ _, aq_enqueue_multi_link 4 32) st = Ret (p, st1) ∧
    aq_queued st1 = Ret (0, st1) ∧ aq_empty st1 = Ret (false, st1).
Proof.
  destruct (observers_while_tail_lags (scenario_of []) [32; 48] [] 4)
    as (evs & st & p & st1 & evs2 & st2 & H1 & H2 & _ & H3 & H4 & _);
    [reflexivity|reflexivity|reflexivity|vm_compute; lia|vm_compute; lia|].
  exists evs, st, p, st1. split; [exact H1|]. split; [exact H2|].
  split; [exact H3|exact H4].
Defined.

End Lag.

(** ** What [aq_queued] counts *)

Section QueuedValue.
Import Ccas Queue QueueTrace Examples QueueLag.





End QueuedValue.

(** ** Who owns an element *)

Section Ownership.
Import Queue QueueTrace Examples QueueLag.

(** The user may write what it likes into an element that neither the
    queue nor a consumer holds, as long as bit 63 of the counter is
    clear. *)
Lemma inv_overwrite_free m0 g st el p c :
  inv m0 g st → el ∉ busy g → is_Some (m0 !! el) → 0 ≤ c < 2 ^ 63 →
  inv m0 g (with_next st el (CP p c)).
Proof.
  intros [Imb Ifr Idom Ihead Itail Ichain Ind Inodes Ipend Ipl Icount Ilive
          Itctr Ihctr Ii64 Ibit Istamp] Hfree Hal Hc.
  unfold busy in Hfree. apply not_elem_of_cons in Hfree as [Hd Hfree].
  apply not_elem_of_app in Hfree as [Hl Hp].
  assert (Hdl : el ∉ g_dummy g :: g_live g) by (apply not_elem_of_cons; auto).
  assert (Hlast : List.last (g_live g) (g_dummy g) ≠ el).
  { intros E. apply Hdl. rewrite <- E. apply last_elem_of. }
  constructor; cbn [with_next mb root els calls]; try assumption.
  - intros x. destruct (decide (x = el)) as [->|Hx].
    + rewrite lookup_insert_eq. split; [intros _; exact Hal|eauto].
    + rewrite lookup_insert_ne by congruence. apply Idom.
  - now apply chain_frame.
  - intros x Hx. destruct (Ipl x Hx) as [H1 H2]. split; [exact H1|].
    apply lookup_insert_is_Some'. now right.
  - intros x c0. destruct (decide (x = el)) as [->|Hx].
    + rewrite lookup_insert_eq. intros [= <-]. cbn [ctr]. unfold is_i64. lia.
    + rewrite lookup_insert_ne by congruence. apply Ii64.
  - intros x c0. destruct (decide (x = el)) as [->|Hx].
    + rewrite lookup_insert_eq. intros [= <-]. cbn [ctr].
      split; [lia|]. intros [[E _]|[_ E]]; exfalso; [now apply Hd|now apply Hp].
    + rewrite lookup_insert_ne by congruence. apply Ibit.
  - intros c0. rewrite lookup_insert_ne by congruence. apply Istamp.
Qed.

(** X3.  [aq_el_init] makes an element fit for the queue whatever its 16
    bytes held: on an element that neither the queue nor a consumer
    holds, with any pointer and any counter in it, [aq_el_init] followed
    by [aq_enqueue] and any valid operations returns what the list
    returns and keeps the count of callbacks.  Without [aq_el_init] an
    element whose counter has bit 63 set makes [aq_enqueue] fail its
    assertion. *)
Theorem aq_el_init_prepares_element sc el p c ops bound :
  scenario_ok sc = true →
  valid (sc_mem sc) (ghost_run (ghost0 sc) (sc_ops sc)) (OpEnqueue el :: ops) = true →
  is_i64 c →
  (need (sc_ops sc) ≤ bound)%nat → (need (OpEnqueue el :: ops) ≤ bound)%nat →
  ∃ evs st, play bound sc = Ret (evs, st) ∧
    (∃ evs' st',
       (aq_el_init el ≫= λ _, run bound (OpEnqueue el :: ops)) (with_next st el (CP p c))
       = Ret (evs', st') ∧
       map ev_result evs'
       = fifo_run (fifo_after [] (sc_ops sc)) (OpEnqueue el :: ops) ∧
       ∀ x, fired st' x
            = Nat.min (passed (evs ++ evs') x)
                      (preset (sc_dummy sc) x + released (evs ++ evs') x)) ∧
    (c < 0 → ∀ b, aq_enqueue b el (with_next st el (CP p c)) = Abort).
Proof.
  intros Hsc Hv Hc Hb1 Hb2.
  destruct (play_valid sc bound Hsc Hb1) as (evs & st & Hplay & Hinv & _ & _ & _ & HT).
  set (m0 := sc_mem sc) in *. set (g := ghost_run (ghost0 sc) (sc_ops sc)) in *.
  pose proof Hv as Hv'. cbn [valid] in Hv'. apply andb_true_iff in Hv' as [Hok _].
  cbn [op_ok] in Hok. destruct (chain_ok_spec _ _ _ Hok) as (_ & _ & Hall & _).
  destruct (Hall el (list_elem_of_here _ _)) as (Hel0 & Hela & Hal & Hfree).
  exists evs, st. split; [exact Hplay|]. split.
  - assert (Hinv0 : inv m0 g (with_next st el (CP p 0))).
    { apply inv_overwrite_free; try assumption. lia. }
    assert (HT0 : tally g (passed evs) (λ x, (preset (sc_dummy sc) x + released evs x)%nat)
                    (with_next st el (CP p 0))) by exact HT.
    destruct (run_valid m0 _ g _ bound _ _ Hinv0 Hv Hb2 HT0)
      as (evs' & st' & Hrun & _ & _ & Hres & _ & HT').
    exists evs', st'. split; [|split].
    + erewrite bind_Ret; [exact Hrun|]. unfold aq_el_init.
      rewrite (store_el_ctr_ok el 0 (CP p c)) by apply lookup_insert_eq.
      unfold with_next. cbn [mb root els calls ptr]. now rewrite insert_insert_eq.
    + rewrite Hres. unfold g. now rewrite ghost_run_live.
    + intros x. destruct (HT' x) as [H1 _]. rewrite H1.
      rewrite passed_app, released_app. f_equal. lia.
  - intros Hneg b. unfold aq_enqueue.
    rewrite (bind_Ret _ _ _ _ _ (store_el_ptr_ok el NULL (CP p c) _ (lookup_insert_eq _ _ _))).
    unfold aq_enqueue_multi. rewrite Hela.
    match goal with |- (_ ≫= _) ?s = _ => set (s1 := s) end.
    rewrite (bind_Ret _ _ _ _ _ (assert_true s1)).
    assert (Hl : els s1 !! el = Some (CP NULL c)) by apply lookup_insert_eq.
    mstep (load_el_ok _ _ _ Hl). cbn [ctr ptr].
    rewrite handshake_assert_test by assumption.
    destruct (Z.leb_spec 0 c); [lia|]. reflexivity.
Qed.

Lemma aq_el_init_prepares_element_witness :
  ∃ evs st, play 2 (scenario_of [OpEnqueue 32; OpDequeue]) = Ret (evs, st) ∧
    (∃ evs' st',
       (aq_el_init 48 ≫= λ _, run 2 [OpEnqueue 48; OpDequeue; OpDequeue])
         (with_next st 48 (CP 12345 (- 7)))
       = Ret (evs', st') ∧
       map ev_result evs' = [1; 48; NULL]) ∧
    aq_enqueue 2 48 (with_next st 48 (CP 12345 (- 7))) = Abort.
Proof.
  destruct (aq_el_init_prepares_element (scenario_of [OpEnqueue 32; OpDequeue]) 48 12345 (- 7)
              [OpDequeue; OpDequeue] 2)
    as (evs & st & H1 & (evs' & st' & H2 & H3 & _) & H4);
    [reflexivity|reflexivity|unfold is_i64; lia|vm_compute; lia|vm_compute; lia|].
  exists evs, st. split; [exact H1|]. split; [|apply H4; lia].
  exists evs', st'. split; [exact H2|exact H3].
Defined.

Lemma busy_step g o y :
  y ∈ busy (ghost_step g o) → y ∈ busy g ∨ y ∈ op_nodes o.
Proof.
  unfold busy. destruct o as [el|ch| |el]; cbn [ghost_step op_nodes g_dummy g_live g_pend];
    [| |destruct (g_live g) as [|x l'] eqn:E; cbn [g_dummy g_live g_pend]; rewrite ?E|];
    repeat first [rewrite elem_of_cons | rewrite elem_of_app | rewrite elem_of_nil
                 | rewrite filter_ne_elem_of];
    tauto.
Qed.

(** One operation of a valid trace leaves the elements alone that
    neither the queue nor a consumer holds and that it does not
    enqueue. *)
Lemma step_frame m0 g st o bound r st' x :
  inv m0 g st → op_ok m0 g o = true → (op_size o ≤ bound)%nat → (1 ≤ bound)%nat →
  run_op bound o st = Ret (r, st') →
  x ∉ busy g → x ∉ op_nodes o → els st' !! x = els st !! x.
Proof.
  intros Hinv Hok Hsz Hb Hrun Hx Hxo.
  unfold busy in Hx. apply not_elem_of_cons in Hx as [Hxd Hx].
  apply not_elem_of_app in Hx as [Hxl Hxp].
  assert (Hlast : x ≠ List.last (g_live g) (g_dummy g)).
  { intros E. pose proof (last_elem_of (g_live g) (g_dummy g)) as Hin.
    rewrite <- E in Hin. apply elem_of_cons in Hin as [?|?]; contradiction. }
  destruct o as [el|ch| |el]; cbn [op_nodes op_size op_ok] in *.
  - rewrite run_op_enqueue_single in Hrun.
    destruct (link_explicit m0 g st [el] bound Hinv Hok ltac:(cbn [length]; lia))
      as (el' & ch' & m1 & ct & _ & _ & _ & _ & Hrun' & Hfr).
    rewrite Hrun' in Hrun. injection Hrun as _ <-. cbn [els]. now apply Hfr.
  - destruct (link_explicit m0 g st ch bound Hinv Hok Hsz)
      as (el' & ch' & m1 & ct & _ & _ & _ & _ & Hrun' & Hfr).
    rewrite Hrun' in Hrun. injection Hrun as _ <-. cbn [els]. now apply Hfr.
  - destruct bound as [|bound]; [lia|].
    destruct (g_live g) as [|y l'] eqn:El.
    + rewrite (step_dequeue_empty m0 g st (S bound) Hinv El Hb) in Hrun.
      injection Hrun as _ <-. reflexivity.
    + destruct (dequeue_explicit m0 g st y l' bound Hinv El) as (c & _ & Hrun').
      rewrite Hrun' in Hrun. injection Hrun as _ <-. cbn [els].
      now rewrite lookup_insert_ne by congruence.
  - destruct (release_explicit m0 g st el bound Hinv Hok) as (c & _ & Hrun').
    rewrite Hrun' in Hrun. injection Hrun as _ <-. cbn [els].
    rewrite lookup_insert_ne; [reflexivity|]. intros <-. apply Hxp. now apply inb_spec.
Qed.

Lemma run_frame m0 ops : ∀ g st bound evs st' x,
  inv m0 g st → valid m0 g ops = true → (need ops ≤ bound)%nat →
  run bound ops st = Ret (evs, st') →
  x ∉ busy g → x ∉ enqueued ops → els st' !! x = els st !! x.
Proof.
  induction ops as [|o ops IH]; intros g st bound evs st' x Hinv Hv Hb Hrun Hx Hxo.
  - injection Hrun as _ <-. reflexivity.
  - cbn [valid] in Hv. apply andb_true_iff in Hv as [Hok Hv].
    cbn [need foldr] in Hb. fold (need ops) in Hb. pose proof (need_ge_1 ops).
    unfold enqueued in Hxo. cbn [flat_map] in Hxo. fold (enqueued ops) in Hxo.
    apply not_elem_of_app in Hxo as [Hxo1 Hxo2].
    destruct (step_op m0 g st o bound Hinv Hok ltac:(lia) ltac:(lia))
      as (e & st1 & He & Hinv1 & _).
    cbn [run] in Hrun. rewrite (bind_Ret _ _ _ _ _ He) in Hrun.
    apply bind_inv in Hrun as (evs' & st2 & Hrun' & Hret). injection Hret as _ <-.
    unfold run_event in He. rewrite (bind_Ret get _ _ _ _ eq_refl) in He.
    apply bind_inv in He as (r & st1' & Hop & Hret). injection Hret as _ <-.
    rewrite (IH _ _ bound _ _ x Hinv1 Hv ltac:(lia) Hrun').
    + apply (step_frame m0 g st o bound r st1' x Hinv Hok ltac:(lia) ltac:(lia) Hop);
        [exact Hx|exact Hxo1].
    + intros Hin. apply busy_step in Hin as [?|?]; contradiction.
    + exact Hxo2.
Qed.

(** X4.  The queue never writes to an element that is free.  An element
    that after a valid trace is neither the dummy, nor queued, nor handed
    out by a dequeue and not yet released, keeps its 16 bytes through any
    valid operations that do not enqueue it again. *)
Theorem free_elements_are_not_written sc ops2 bound x :
  scenario_ok sc = true →
  valid (sc_mem sc) (ghost_run (ghost0 sc) (sc_ops sc)) ops2 = true →
  (need (sc_ops sc) ≤ bound)%nat → (need ops2 ≤ bound)%nat →
  inb x (busy (ghost_run (ghost0 sc) (sc_ops sc))) = false →
  inb x (enqueued ops2) = false →
  ∃ evs st evs2 st2,
    play bound sc = Ret (evs, st) ∧ run bound ops2 st = Ret (evs2, st2) ∧
    els st2 !! x = els st !! x.
Proof.
  intros Hsc Hv Hb1 Hb2 Hx Hxo. apply inb_false in Hx, Hxo.
  destruct (play_valid sc bound Hsc Hb1) as (evs & st & Hplay & Hinv & _ & _ & _ & HT).
  destruct (run_valid _ _ _ _ bound _ _ Hinv Hv Hb2 HT) as (evs2 & st2 & Hrun & _).
  exists evs, st, evs2, st2. split; [exact Hplay|]. split; [exact Hrun|].
  exact (run_frame _ _ _ _ _ _ _ x Hinv Hv Hb2 Hrun Hx Hxo).
Qed.

Lemma free_elements_are_not_written_witness :
  ∃ evs st evs2 st2,
    play 2 (scenario_of [OpEnqueue 32; OpDequeue]) = Ret (evs, st) ∧
    run 2 [OpEnqueueMulti [48; 64]; OpDequeue; OpRelease 32; OpDequeue] st
    = Ret (evs2, st2) ∧
    els st2 !! 16 = els st !! 16.
Proof.
  apply (free_elements_are_not_written (scenario_of [OpEnqueue 32; OpDequeue])
           [OpEnqueueMulti [48; 64]; OpDequeue; OpRelease 32; OpDequeue] 2 16);
    [reflexivity|reflexivity|vm_compute; lia|vm_compute; lia|reflexivity|reflexivity].
Defined.

End Ownership.

(** ** The queue after [aq_free] *)

Section AfterFree.
Import Queue QueueTrace Examples QueueLag.

Lemma bind_Fault {S A B} (m : M S A) (k : A → M S B) s :
  m s = Fault → (m ≫= k) s = Fault.
Proof. intros H. unfold mbind, M_bind, bind. now rewrite H. Qed.

Lemma load_el_fault el st : els st !! el = None → load_el el st = Fault.
Proof. intros H. unfold load_el. now rewrite H. Qed.

Lemma aq_free_freed st bound : freed st → aq_free bound st = Ret (tt, st).
Proof.
  intros (Hh & Ht & Hf). unfold aq_free. mget. rewrite Hh. cbn [ptr].
  rewrite (bind_Ret _ _ _ _ _ (aq_free_loop_null bound st)). mget.
  destruct st as [m [f a h t] e c]. cbn in *. subst. reflexivity.
Qed.

Lemma aq_queued_freed st : freed st → aq_queued st = Ret (0, st).
Proof. intros (Hh & Ht & _). rewrite aq_queued_run, Hh, Ht. reflexivity. Qed.

Lemma aq_empty_freed st : freed st → els st !! NULL = None → aq_empty st = Fault.
Proof.
  intros (Hh & _) Hn. unfold aq_empty. mget. rewrite Hh. cbn [ptr].
  now rewrite (bind_Fault _ _ _ (load_el_fault _ _ Hn)).
Qed.

Lemma aq_dequeue_freed st bound :
  freed st → els st !! NULL = None → aq_dequeue (S bound) st = Fault.
Proof.
  intros (Hh & _) Hn. unfold aq_dequeue. apply bind_Fault.
  cbn [aq_dequeue_loop]. mget. rewrite Hh. cbn [ptr].
  now rewrite (bind_Fault _ _ _ (load_el_fault _ _ Hn)).
Qed.

Lemma aq_enqueue_freed st el c bound :
  freed st → els st !! NULL = None →
  els st !! el = Some c → aligned16 el = true → 0 ≤ ctr c < 2 ^ 63 →
  aq_enqueue (S bound) el st = Fault.
Proof.
  intros (_ & Ht & _) Hn Hel Ha Hc. unfold aq_enqueue.
  mstep (store_el_ptr_ok el NULL c st Hel). unfold aq_enqueue_multi. rewrite Ha.
  match goal with |- (_ ≫= _) ?s = _ => set (s1 := s) end.
  rewrite (bind_Ret _ _ _ _ _ (assert_true s1)).
  assert (Hl : els s1 !! el = Some (CP NULL (ctr c))) by apply lookup_insert_eq.
  mstep (load_el_ok _ _ _ Hl). cbn [ctr].
  rewrite handshake_assert_test by (unfold is_i64; lia).
  destruct (Z.leb_spec 0 (ctr c)); [|lia].
  rewrite (bind_Ret _ _ _ _ _ (assert_true s1)).
  assert (Hlast : aq_chain_last (S bound) el 1 s1 = Ret ((el, 1), s1)).
  { cbn [aq_chain_last]. mstep (load_el_ok _ _ _ Hl). reflexivity. }
  mstep Hlast. cbn [fst snd]. apply bind_Fault.
  cbn [aq_enqueue_loop]. mget. cbn [s1 root]. rewrite Ht. cbn [ptr].
  apply bind_Fault, load_el_fault. subst s1. cbn [els].
  rewrite lookup_insert_ne; [exact Hn|]. intros E. rewrite E in Hel. congruence.
Qed.

Lemma aq_el_free_freed st el c :
  freed st → els st !! el = Some c → is_i64 (ctr c) → ctr c < 0 →
  aq_el_free el st = Fault.
Proof.
  intros (_ & _ & Hf) Hel Hi Hc. unfold aq_el_free. mstep (load_el_ok _ _ _ Hel).
  rewrite fetch_xor_value, fetch_xor_test by assumption.
  erewrite bind_Ret; [|apply (store_el_ok el _ c); exact Hel].
  destruct (Z.leb_spec 0 (ctr c)); [lia|].
  unfold call_freeer. cbn [root]. now rewrite Hf.
Qed.

(** X5.  The queue after [aq_free].  A second [aq_free] changes nothing
    and [aq_queued] returns 0; with no element at address 0,
    [aq_empty], [aq_dequeue] and [aq_enqueue] dereference the null head
    or tail; and releasing an element that a dequeue handed out before
    and that the head has passed calls through the cleared callback
    pointer. *)
Theorem queue_after_aq_free sc bound :
  scenario_ok sc = true → (need (sc_ops sc) ≤ bound)%nat →
  allocated (sc_mem sc) NULL = false →
  ∃ evs st st', play bound sc = Ret (evs, st) ∧
    (∀ b, (length (fifo_after [] (sc_ops sc)) < b)%nat → aq_free b st = Ret (tt, st')) ∧
    els st' = els st ∧
    (∀ b, aq_free b st' = Ret (tt, st')) ∧
    aq_queued st' = Ret (0, st') ∧
    aq_empty st' = Fault ∧
    (∀ b, aq_dequeue (S b) st' = Fault) ∧
    (∀ b el c, els st' !! el = Some c → aligned16 el = true → 0 ≤ ctr c →
               aq_enqueue (S b) el st' = Fault) ∧
    (∀ x, inb x (g_pend (ghost_run (ghost0 sc) (sc_ops sc))) = true →
          x ≠ ptr (head (root st)) → aq_el_free x st' = Fault).
Proof.
  intros Hsc Hb Hnull.
  destruct (play_valid sc bound Hsc Hb) as (evs & st & Hplay & Hinv & _).
  set (g := ghost_run (ghost0 sc) (sc_ops sc)) in *.
  set (st' := AqState (mb st) (AtomicQ NULL (freeer_arg (root st)) (CP NULL 0) (CP NULL 0))
                (els st)
                (rev (map (pair (freeer_arg (root st))) (g_dummy g :: g_live g)) ++ calls st)).
  assert (Hfreed : freed st') by (repeat split).
  pose proof Hinv as [_ _ Idom Ihead _ _ _ _ _ Ipl _ _ _ _ Ii64 Ibit _].
  assert (Hn : els st' !! NULL = None).
  { cbn [st' els]. destruct (els st !! NULL) as [c0|] eqn:E; [|reflexivity].
    assert (Hs : is_Some (sc_mem sc !! NULL)) by (apply Idom; eauto).
    unfold allocated in Hnull. destruct Hs as [c1 Hs]. rewrite Hs in Hnull. discriminate. }
  exists evs, st, st'. split; [exact Hplay|].
  split; [|split; [reflexivity|split; [|split; [|split; [|split; [|split]]]]]].
  - intros b Hlen. apply (aq_free_run _ _ _ _ Hinv).
    unfold g. now rewrite ghost_run_live.
  - intros b. now apply aq_free_freed.
  - now apply aq_queued_freed.
  - now apply aq_empty_freed.
  - intros b. now apply aq_dequeue_freed.
  - intros b el c Hel Ha Hc. apply (aq_enqueue_freed st' el c b Hfreed Hn Hel Ha).
    pose proof (Ii64 el c Hel). unfold is_i64 in *. lia.
  - intros x Hx Hxd. apply inb_spec in Hx. destruct (Ipl x Hx) as [_ [c Hc]].
    apply (aq_el_free_freed st' x c Hfreed Hc (Ii64 _ _ Hc)).
    apply (Ibit _ _ Hc). right. split; [congruence|exact Hx].
Qed.

Lemma queue_after_aq_free_witness :
  ∃ evs st st',
    play 1 (scenario_of [OpEnqueue 32; OpEnqueue 48; OpDequeue; OpDequeue]) = Ret (evs, st) ∧
    aq_free 1 st = Ret (tt, st') ∧ aq_free 1 st' = Ret (tt, st') ∧
    aq_dequeue 1 st' = Fault ∧ aq_el_free 32 st' = Fault.
Proof.
  destruct (queue_after_aq_free
              (scenario_of [OpEnqueue 32; OpEnqueue 48; OpDequeue; OpDequeue]) 1)
    as (evs & st & st' & H1 & H2 & _ & H3 & _ & _ & H4 & _ & H5);
    [reflexivity|vm_compute; lia|reflexivity|].
  exists evs, st, st'. split; [exact H1|]. split; [apply H2; cbn; lia|].
  split; [apply H3|]. split; [apply H4|]. apply H5; [reflexivity|].
  assert (Est : st = match play 1 (scenario_of [OpEnqueue 32; OpEnqueue 48;
                                                 OpDequeue; OpDequeue]) with
                     | Ret (_, s) => s | _ => st end) by (now rewrite H1).
  rewrite Est. vm_compute. discriminate.
Defined.

End AfterFree.

(** ** The stack between a read and its compare and swap *)

Section StackMore.
Import Stack StackTrace StackLag.

Lemma as_pop_split bound st :
  as_pop (S bound) st
  = (as_pop_read ≫= λ o, match o with
                         | None => mret NULL
                         | Some (r, n) => as_pop_cas bound r n
                         end) st.
Proof.
  cbn [as_pop]. unfold as_pop_read, as_pop_cas.
  unfold mbind, M_bind, bind, get, mret, M_ret, ret.
  destruct (Z.eqb_spec (ptr (first st)) NULL) as [E|E]; [now rewrite E|].
  destruct (load_next (ptr (first st)) st) as [[n s1]| | |]; reflexivity.
Qed.

Lemma as_push_split bound e st :
  as_push (S bound) e st = (as_push_prepare e ≫= as_push_cas bound e) st.
Proof.
  cbn [as_push]. unfold as_push_iter, as_push_prepare, as_push_cas.
  unfold mbind, M_bind, bind, get, mret, M_ret, ret.
  destruct (store_next e (ptr (first st)) st) as [[[] s1]| | |]; try reflexivity.
  destruct (load_next e s1) as [[n s2]| | |]; try reflexivity.
  destruct (assert (negb (n =? e)) s2) as [[[] s3]| | |]; reflexivity.
Qed.

Lemma svalid_app m0 ops1 : ∀ l ops2,
  svalid m0 l (ops1 ++ ops2) = true →
  svalid m0 l ops1 = true ∧ svalid m0 (lifo_final l ops1) ops2 = true.
Proof.
  induction ops1 as [|o ops1 IH]; intros l ops2 Hv; [split; [reflexivity|exact Hv]|].
  destruct o as [e|]; cbn [app svalid lifo_final] in *.
  - rewrite !andb_true_iff in *. destruct Hv as [H Hv]. destruct (IH _ _ Hv). auto.
  - now apply IH.
Qed.

Lemma lifo_run_app ops1 : ∀ l ops2,
  lifo_run l (ops1 ++ ops2) = lifo_run l ops1 ++ lifo_run (lifo_final l ops1) ops2.
Proof.
  induction ops1 as [|o ops1 IH]; intros l ops2; [reflexivity|].
  destruct o as [e|]; cbn [app lifo_run lifo_final]; [|destruct l]; rewrite IH; reflexivity.
Qed.

Lemma lifo_final_app ops1 : ∀ l ops2,
  lifo_final l (ops1 ++ ops2) = lifo_final (lifo_final l ops1) ops2.
Proof.
  induction ops1 as [|o ops1 IH]; intros l ops2; [reflexivity|].
  destruct o as [e|]; cbn [app lifo_final]; apply IH.
Qed.

(** A counter that was incremented between 1 and 2^64 - 1 times differs
    from what it was. *)
Lemma to_i64_moved c m : is_i64 c → 0 < m < 2 ^ 64 → to_i64 (c + m) ≠ c.
Proof.
  unfold is_i64, to_i64. intros Hc Hm E.
  assert (E' : (c + 2 ^ 63 + m) mod 2 ^ 64 = c + 2 ^ 63).
  { replace (c + 2 ^ 63 + m) with (c + m + 2 ^ 63) by lia. lia. }
  destruct (Z.lt_ge_cases (c + 2 ^ 63 + m) (2 ^ 64)) as [Hlt|Hge].
  - rewrite Z.mod_small in E' by lia. lia.
  - replace (c + 2 ^ 63 + m) with ((c + 2 ^ 63 + m - 2 ^ 64) + 1 * 2 ^ 64) in E' by lia.
    rewrite Z.mod_add in E' by lia. rewrite Z.mod_small in E' by lia. lia.
Qed.

Lemma cas_first_miss old newptr inc st :
  aligned16 (s_addr st) = true → 0 < inc → first st ≠ old →
  cas_first old newptr inc st = Ret (0, st).
Proof.
  intros Ha Hi Hne. unfold cas_first. rewrite cas_miss by assumption.
  destruct st. reflexivity.
Qed.

Lemma stack_play_valid st0 ops bound :
  stack_ok st0 ops = true → (1 ≤ bound)%nat →
  ∃ st, stack_play bound st0 ops = Ret (lifo_run [] ops, st) ∧
    sinv (entries st0) (lifo_final [] ops) st ∧
    ctr (first st) = to_i64 (lifo_moves [] ops).
Proof.
  intros Hok Hb. unfold stack_ok in Hok. apply andb_true_iff in Hok as [Ha Hv].
  set (st1 := AsState (s_addr st0) (CP NULL 0) (entries st0)).
  destruct (srun_valid (entries st0) ops [] st1 bound) as (st & Hrun & Hinv & Hctr);
    try assumption.
  { constructor; try assumption; try reflexivity. unfold is_i64. cbn. lia. }
  exists st. split; [|split; [exact Hinv|rewrite Hctr; reflexivity]].
  unfold stack_play. mstep (as_init_run st0 Ha). exact Hrun.
Qed.

(** X6.  The counter protects a pop against the ABA case.  A pop reads
    the head and the top entry's [next] and is then interrupted by
    operations of which between 1 and 2^64 - 1 change the stack.  Its
    compare and swap with the values read fails and writes nothing, also
    when the head points to the same entry again; the pop then starts
    over and returns the entry that is on top now. *)
Theorem as_pop_survives_aba st0 ops1 ops2 x l bound :
  stack_ok st0 (ops1 ++ ops2) = true → (1 ≤ bound)%nat →
  lifo_final [] ops1 = x :: l →
  (0 <? lifo_moves (x :: l) ops2) && (lifo_moves (x :: l) ops2 <? 2 ^ 64) = true →
  ∃ rs1 st1 r n st2 st3,
    stack_play bound st0 ops1 = Ret (rs1, st1) ∧
    as_pop_read st1 = Ret (Some (r, n), st1) ∧ ptr r = x ∧
    srun bound ops2 st1 = Ret (lifo_run (x :: l) ops2, st2) ∧
    ptr (first st2) = hd NULL (lifo_final [] (ops1 ++ ops2)) ∧
    cas_first r n 1 st2 = Ret (0, st2) ∧
    as_pop_cas bound r n st2 = Ret (hd NULL (lifo_final [] (ops1 ++ ops2)), st3) ∧
    schain (entries st3) (ptr (first st3)) (List.tl (lifo_final [] (ops1 ++ ops2))).
Proof.
  intros Hok Hb Hl Hm. apply andb_true_iff in Hm as [Hm1 Hm2].
  apply Z.ltb_lt in Hm1, Hm2.
  pose proof Hok as Hok'. unfold stack_ok in Hok'. apply andb_true_iff in Hok' as [Ha Hv].
  apply svalid_app in Hv as [Hv1 Hv2].
  destruct (stack_play_valid st0 ops1 bound) as (st1 & Hplay & Hinv1 & _);
    [unfold stack_ok; now rewrite Ha, Hv1|exact Hb|].
  rewrite Hl in Hinv1, Hv2.
  destruct (srun_valid _ ops2 _ st1 bound Hinv1 Hv2 Hb) as (st2 & Hrun2 & Hinv2 & Hctr).
  pose proof Hinv1 as [Ha1 _ Hi1 Hch1]. destruct Hch1 as (Hp & Hx0 & n & Hn & _).
  pose proof Hinv2 as [Ha2 _ Hi2 Hch2].
  assert (Hne : first st2 ≠ first st1).
  { intros E. rewrite E in Hctr. symmetry in Hctr. revert Hctr.
    now apply to_i64_moved. }
  assert (Hcas : cas_first (first st1) n 1 st2 = Ret (0, st2))
    by (apply cas_first_miss; [exact Ha2|lia|exact Hne]).
  assert (Hfin : lifo_final [] (ops1 ++ ops2) = lifo_final (x :: l) ops2)
    by (now rewrite lifo_final_app, Hl).
  assert (Hpop : ∃ st3, as_pop bound st2 = Ret (hd NULL (lifo_final (x :: l) ops2), st3) ∧
                   schain (entries st3) (ptr (first st3)) (List.tl (lifo_final (x :: l) ops2))).
  { destruct bound as [|b]; [lia|].
    destruct (lifo_final (x :: l) ops2) as [|y l'].
    - exists st2. split; [now apply as_pop_null|exact Hch2].
    - destruct Hch2 as (Hp2 & Hy0 & n2 & Hn2 & Hl2).
      eexists. split; [apply (as_pop_run y n2 st2 b Ha2 Hp2 Hy0 Hn2)|exact Hl2]. }
  destruct Hpop as (st3 & Hpop & Hch3).
  exists (lifo_run [] ops1), st1, (first st1), n, st2, st3.
  split; [exact Hplay|].
  split; [|split; [exact Hp|split; [exact Hrun2|split; [|split; [exact Hcas|]]]]].
  - unfold as_pop_read. mget. rewrite Hp.
    destruct (Z.eqb_spec x NULL); [contradiction|].
    mstep (load_next_ok _ _ _ Hn). reflexivity.
  - rewrite Hfin. apply (schain_top _ _ _ Hch2).
  - rewrite Hfin. split; [|exact Hch3].
    unfold as_pop_cas. mstep Hcas. exact Hpop.
Qed.

Lemma as_pop_survives_aba_witness :
  ∃ rs1 st1 r n st2 st3,
    stack_play 1 stack0 [SPush 16; SPush 32] = Ret (rs1, st1) ∧
    as_pop_read st1 = Ret (Some (r, n), st1) ∧ ptr r = 32 ∧
    srun 1 [SPop; SPop; SPush 32] st1 = Ret ([32; 16; 0], st2) ∧
    ptr (first st2) = 32 ∧
    cas_first r n 1 st2 = Ret (0, st2) ∧
    as_pop_cas 1 r n st2 = Ret (32, st3) ∧
    schain (entries st3) (ptr (first st3)) [].
Proof.
  apply (as_pop_survives_aba stack0 [SPush 16; SPush 32] [SPop; SPop; SPush 32] 32 [16] 1);
    [reflexivity|lia|reflexivity|reflexivity].
Defined.

Lemma svalid_nodup m0 ops : ∀ l,
  NoDup l → svalid m0 l ops = true → NoDup (lifo_final l ops).
Proof.
  induction ops as [|o ops IH]; intros l Hnd Hv; [exact Hnd|].
  destruct o as [e|]; cbn [svalid lifo_final] in *.
  - rewrite !andb_true_iff, !negb_true_iff in Hv. destruct Hv as [[[_ _] Hel] Hv].
    apply IH; [|exact Hv]. apply NoDup_cons. split; [|exact Hnd].
    intros Hin. apply list_elem_of_In in Hin.
    assert (existsb (Z.eqb e) l = true); [|congruence].
    apply existsb_exists. exists e. split; [assumption|apply Z.eqb_refl].
  - apply IH; [|exact Hv]. destruct l as [|x l]; [exact Hnd|].
    now apply NoDup_cons in Hnd as [_ Hnd].
Qed.

Lemma schain_next m : ∀ l1 p e l2,
  schain m p (l1 ++ e :: l2) →
  (e ≠ NULL ∧ is_Some (m !! e)) ∧
  ∀ x, x ∈ l1 → x ≠ NULL ∧ ∃ n, m !! x = Some n ∧ n ∈ l1 ++ [e].
Proof.
  induction l1 as [|y l1 IH]; intros p e l2 H.
  - cbn [app] in H. destruct H as (_ & He & n & Hn & _).
    split; [eauto|]. intros x Hx. now apply elem_of_nil in Hx.
  - cbn [app] in H. destruct H as (_ & Hy & n & Hn & Hl).
    destruct (IH _ _ _ Hl) as [He Hall]. split; [exact He|].
    intros x Hx. apply elem_of_cons in Hx as [->|Hx].
    + split; [exact Hy|]. exists n. split; [exact Hn|].
      rewrite (schain_top _ _ _ Hl). destruct l1; cbn; [apply list_elem_of_further,
        list_elem_of_here|apply list_elem_of_further, list_elem_of_here].
    + destruct (Hall x Hx) as (Hx0 & n' & Hn' & Hin). split; [exact Hx0|].
      exists n'. split; [exact Hn'|]. cbn [app]. now apply list_elem_of_further.
Qed.

(** Pops on entries whose [next] pointers never leave the set [C]. *)
Lemma pops_cycle (C : list Z) b : ∀ k st,
  (∀ x, x ∈ C → x ≠ NULL ∧ ∃ n, entries st !! x = Some n ∧ n ∈ C) →
  aligned16 (s_addr st) = true → ptr (first st) ∈ C →
  ∃ rs st', srun (S b) (repeat SPop k) st = Ret (rs, st') ∧ length rs = k ∧
    Forall (λ r, r ∈ C ∧ r ≠ NULL) rs.
Proof.
  induction k as [|k IH]; intros st Hcl Ha Hp.
  - exists [], st. split; [reflexivity|]. split; [reflexivity|constructor].
  - destruct (Hcl _ Hp) as (Hx0 & n & Hn & Hin).
    pose proof (as_pop_run _ n st b Ha eq_refl Hx0 Hn) as Hrun.
    match type of Hrun with _ = Ret (_, ?s) => set (st1 := s) in * end.
    destruct (IH st1 Hcl Ha Hin) as (rs & st' & Hrun' & Hlen & Hall).
    exists (ptr (first st) :: rs), st'. split; [|split].
    + cbn [repeat srun srun_op]. mstep Hrun. mstep Hrun'. reflexivity.
    + cbn [length]. now rewrite Hlen.
    + constructor; [split; assumption|exact Hall].
Qed.

(** X7.  What the assertion of [as_push] catches.  Pushing the entry
    that is on top fails the assertion [e->next != e].  Pushing an entry
    that is on the stack below the top is not noticed: the push returns,
    and from then on no pop returns [NULL] and every pop returns that
    entry or one of those above it, so the entries below it are lost. *)
Theorem as_push_twice st0 ops e l1 l2 bound b :
  stack_ok st0 ops = true → (1 ≤ bound)%nat →
  lifo_final [] ops = l1 ++ e :: l2 →
  ∃ st, stack_play bound st0 ops = Ret (lifo_run [] ops, st) ∧
    (l1 = [] → as_push (S b) e st = Abort) ∧
    (l1 ≠ [] → ∃ st1, as_push (S b) e st = Ret (tt, st1) ∧
       ∀ k, ∃ rs st', srun (S b) (repeat SPop k) st1 = Ret (rs, st') ∧ length rs = k ∧
              Forall (λ r, r ∈ e :: l1 ∧ r ≠ NULL) rs).
Proof.
  intros Hok Hb Hl.
  destruct (stack_play_valid st0 ops bound Hok Hb) as (st & Hplay & Hinv & _).
  assert (Hnd : NoDup (lifo_final [] ops)).
  { unfold stack_ok in Hok. apply andb_true_iff in Hok as [_ Hv].
    apply (svalid_nodup _ _ [] (NoDup_nil_2) Hv). }
  rewrite Hl in Hinv, Hnd. destruct Hinv as [Ha _ _ Hch].
  destruct (schain_next _ _ _ _ _ Hch) as [[He0 [n Hn]] Hall].
  exists st. split; [exact Hplay|]. split.
  - intros ->. cbn [app] in Hch. destruct Hch as (Hp & _).
    cbn [as_push]. apply bind_Abort. unfold as_push_iter. mget. rewrite Hp.
    mstep (store_next_ok e e n st Hn).
    erewrite bind_Ret; [|apply (load_next_ok e e); apply lookup_insert_eq].
    rewrite Z.eqb_refl. reflexivity.
  - intros Hne. destruct l1 as [|y l1]; [congruence|]. clear Hne.
    apply NoDup_app in Hnd as (_ & Hdisj & _).
    assert (Hye : y ≠ e).
    { intros ->. apply (Hdisj e); apply list_elem_of_here. }
    assert (Hp : ptr (first st) = y) by (cbn [app] in Hch; apply Hch).
    eexists. split; [apply (as_push_run e n st b Ha Hn); congruence|].
    intros k. apply pops_cycle; cbn [entries s_addr first ptr]; [|exact Ha|apply list_elem_of_here].
    intros x Hx. apply elem_of_cons in Hx as [->|Hx].
    + split; [exact He0|]. exists y. rewrite Hp. split; [apply lookup_insert_eq|].
      apply list_elem_of_further, list_elem_of_here.
    + destruct (Hall x Hx) as (Hx0 & n' & Hn' & Hin). split; [exact Hx0|].
      assert (Hxe : x ≠ e).
      { intros ->. apply (Hdisj e Hx), list_elem_of_here. }
      exists n'. split; [now rewrite lookup_insert_ne|].
      apply elem_of_app in Hin as [Hin|Hin].
      * now apply list_elem_of_further.
      * apply list_elem_of_singleton in Hin as ->. apply list_elem_of_here.
Qed.

Lemma as_push_twice_witness :
  ∃ st, stack_play 1 stack0 [SPush 16; SPush 32; SPush 48] = Ret ([0; 0; 0], st) ∧
    as_push 1 48 st = Abort ∧
    ∃ st1, as_push 1 32 st = Ret (tt, st1) ∧
      ∃ rs st', srun 1 (repeat SPop 5) st1 = Ret (rs, st') ∧ length rs = 5%nat ∧
        Forall (λ r, r ∈ [32; 48] ∧ r ≠ NULL) rs.
Proof.
  destruct (as_push_twice stack0 [SPush 16; SPush 32; SPush 48] 48 [] [32; 16] 1 0)
    as (st & H1 & H2 & _); [reflexivity|lia|reflexivity|].
  destruct (as_push_twice stack0 [SPush 16; SPush 32; SPush 48] 32 [48] [16] 1 0)
    as (st' & H1' & _ & H3); [reflexivity|lia|reflexivity|].
  rewrite H1 in H1'. injection H1' as <-.
  exists st. split; [exact H1|]. split; [now apply H2|].
  destruct H3 as (st1 & H4 & H5); [congruence|].
  exists st1. split; [exact H4|]. apply (H5 5%nat).
Defined.

(** X8.  [as_empty] after a valid trace returns whether the list of the
    entries pushed and not popped is empty. *)
Theorem as_empty_reports_empty_stack st0 ops bound :
  stack_ok st0 ops = true → (1 ≤ bound)%nat →
  ∃ st, stack_play bound st0 ops = Ret (lifo_run [] ops, st) ∧
    as_empty st = Ret (match lifo_final [] ops with [] => true | _ => false end, st).
Proof.
  intros Hok Hb.
  destruct (stack_play_valid st0 ops bound Hok Hb) as (st & Hplay & [_ _ _ Hch] & _).
  exists st. split; [exact Hplay|]. unfold as_empty. mget.
  destruct (lifo_final [] ops) as [|x l].
  - cbn [schain] in Hch. now rewrite Hch.
  - destruct Hch as (-> & Hx & _). now destruct (Z.eqb_spec x NULL).
Qed.

Lemma as_empty_reports_empty_stack_witness :
  ∃ st, stack_play 1 stack0 stack_ops = Ret ([0; 0; 0; 48; 32; 16; NULL], st) ∧
    as_empty st = Ret (true, st).
Proof.
  apply (as_empty_reports_empty_stack stack0 stack_ops 1); [reflexivity|lia].
Defined.

Lemma svalid_push m0 l e :
  svalid m0 l [SPush e] = true → e ≠ NULL ∧ is_Some (m0 !! e) ∧ e ∉ l.
Proof.
  cbn [svalid]. rewrite !andb_true_iff, !negb_true_iff.
  intros [[[He0 Hal] Hel] _]. apply Z.eqb_neq in He0.
  split; [exact He0|]. split; [destruct (m0 !! e); [eauto|discriminate]|].
  intros Hin. apply list_elem_of_In in Hin.
  assert (existsb (Z.eqb e) l = true); [|congruence].
  apply existsb_exists. exists e. split; [assumption|apply Z.eqb_refl].
Qed.

(** X9.  A push that is interrupted after it stored [e->next] and
    before its compare and swap, by operations of which between 1 and
    2^64 - 1 change the stack: the compare and swap with the head read
    before fails and writes nothing, the push starts over, and the entry
    ends up on top of the stack as the operations in between left it. *)
Theorem as_push_survives_interruption st0 ops1 ops2 e bound :
  stack_ok st0 (ops1 ++ [SPush e]) = true →
  stack_ok st0 (ops1 ++ ops2 ++ [SPush e]) = true → (1 ≤ bound)%nat →
  (0 <? lifo_moves (lifo_final [] ops1) ops2)
  && (lifo_moves (lifo_final [] ops1) ops2 <? 2 ^ 64) = true →
  ∃ rs1 st1 old st1' st2 st3,
    stack_play bound st0 ops1 = Ret (rs1, st1) ∧
    as_push_prepare e st1 = Ret (old, st1') ∧ old = first st1 ∧
    srun bound ops2 st1' = Ret (lifo_run (lifo_final [] ops1) ops2, st2) ∧
    cas_first old e 1 st2 = Ret (0, st2) ∧
    as_push_cas bound e old st2 = Ret (tt, st3) ∧
    schain (entries st3) (ptr (first st3)) (e :: lifo_final [] (ops1 ++ ops2)).
Proof.
  intros Hok1 Hok2 Hb Hm. apply andb_true_iff in Hm as [Hm1 Hm2].
  apply Z.ltb_lt in Hm1, Hm2.
  unfold stack_ok in Hok1, Hok2.
  apply andb_true_iff in Hok1 as [Ha Hv1]. apply andb_true_iff in Hok2 as [_ Hv2].
  apply svalid_app in Hv1 as [Hv1 Hve1].
  apply svalid_app in Hv2 as [_ Hv2]. apply svalid_app in Hv2 as [Hv2 Hve2].
  destruct (svalid_push _ _ _ Hve1) as (He0 & Hal & Hel1).
  destruct (svalid_push _ _ _ Hve2) as (_ & _ & Hel2).
  destruct (stack_play_valid st0 ops1 bound) as (st1 & Hplay & Hinv1 & _);
    [unfold stack_ok; now rewrite Ha, Hv1|exact Hb|].
  set (l1 := lifo_final [] ops1) in *.
  pose proof Hinv1 as [Ha1 Hdom1 Hi1 Hch1].
  assert (is_Some (entries st1 !! e)) as [n Hn] by (now apply Hdom1).
  assert (Htop : ptr (first st1) ≠ e).
  { rewrite (schain_top _ _ _ Hch1). destruct l1 as [|y l1']; [exact (not_eq_sym He0)|].
    cbn [hd]. intros ->. apply Hel1, list_elem_of_here. }
  set (st1' := AsState (s_addr st1) (first st1) (<[e := ptr (first st1)]> (entries st1))).
  assert (Hprep : as_push_prepare e st1 = Ret (first st1, st1')).
  { unfold as_push_prepare. mget. mstep (store_next_ok e (ptr (first st1)) n st1 Hn).
    erewrite bind_Ret; [|apply (load_next_ok e (ptr (first st1))); apply lookup_insert_eq].
    destruct (Z.eqb_spec (ptr (first st1)) e); [contradiction|]. reflexivity. }
  assert (Hinv1' : sinv (entries st0) l1 st1').
  { constructor; cbn [st1' s_addr first entries]; try assumption.
    - intros x. rewrite <- Hdom1. destruct (decide (x = e)) as [->|Hx].
      + rewrite lookup_insert_eq, Hn. split; eauto.
      + now rewrite lookup_insert_ne.
    - now apply schain_frame. }
  destruct (srun_valid _ ops2 _ st1' bound Hinv1' Hv2 Hb) as (st2 & Hrun2 & Hinv2 & Hctr).
  pose proof Hinv2 as [Ha2 Hdom2 Hi2 Hch2].
  assert (Hne : first st2 ≠ first st1).
  { intros E. rewrite E in Hctr. symmetry in Hctr. revert Hctr.
    now apply to_i64_moved. }
  assert (Hcas : cas_first (first st1) e 1 st2 = Ret (0, st2))
    by (apply cas_first_miss; [exact Ha2|lia|exact Hne]).
  assert (is_Some (entries st2 !! e)) as [n2 Hn2] by (now apply Hdom2).
  assert (Htop2 : ptr (first st2) ≠ e).
  { rewrite (schain_top _ _ _ Hch2).
    destruct (lifo_final l1 ops2) as [|y l2']; [exact (not_eq_sym He0)|].
    cbn [hd]. intros ->. apply Hel2, list_elem_of_here. }
  destruct bound as [|b]; [lia|].
  pose proof (as_push_run e n2 st2 b Ha2 Hn2 Htop2) as Hpush.
  eexists (lifo_run [] ops1), st1, (first st1), st1', st2, _.
  split; [exact Hplay|]. split; [exact Hprep|]. split; [reflexivity|].
  split; [exact Hrun2|]. split; [exact Hcas|]. split.
  - unfold as_push_cas. mstep Hcas. exact Hpush.
  - cbn [entries first ptr schain]. split; [reflexivity|]. split; [exact He0|].
    exists (ptr (first st2)). split; [apply lookup_insert_eq|].
    rewrite lifo_final_app. fold l1. now apply schain_frame.
Qed.

Lemma as_push_survives_interruption_witness :
  ∃ rs1 st1 old st1' st2 st3,
    stack_play 1 stack0 [SPush 16] = Ret (rs1, st1) ∧
    as_push_prepare 48 st1 = Ret (old, st1') ∧ old = first st1 ∧
    srun 1 [SPop; SPush 32] st1' = Ret ([16; 0], st2) ∧
    cas_first old 48 1 st2 = Ret (0, st2) ∧
    as_push_cas 1 48 old st2 = Ret (tt, st3) ∧
    schain (entries st3) (ptr (first st3)) [48; 32].
Proof.
  apply (as_push_survives_interruption stack0 [SPush 16] [SPop; SPush 32] 48 1);
    [reflexivity|reflexivity|lia|reflexivity].
Defined.

End StackMore.

(** ** The message pool of aq_test.c *)

Section TestPool.
Import Queue AqTest.

Lemma bit_mask_pow2 bit : bit_mask bit = 2 ^ (bit mod 64).
Proof.
  unfold bit_mask, to_u64. pose proof (Z.mod_pos_bound bit 64 ltac:(lia)) as Hk.
  rewrite Z.shiftl_1_l. apply Z.mod_small. split; [apply Z.pow_nonneg; lia|].
  apply Z.pow_lt_mono_r; lia.
Qed.

Lemma land_pow2_test w k : 0 ≤ k → (Z.land w (2 ^ k) =? 0) = negb (Z.testbit w k).
Proof.
  intros Hk.
  assert (E : Z.land w (2 ^ k) = if Z.testbit w k then 2 ^ k else 0).
  { apply Z.bits_inj'. intros n Hn. rewrite Z.land_spec, Z.pow2_bits_eqb by assumption.
    destruct (Z.eqb_spec k n) as [->|Hne].
    - destruct (Z.testbit w n); [now rewrite Z.pow2_bits_eqb, Z.eqb_refl|
                                 now rewrite Z.bits_0].
    - rewrite andb_false_r. destruct (Z.testbit w k); [|now rewrite Z.bits_0].
      rewrite Z.pow2_bits_eqb by assumption. symmetry. now apply Z.eqb_neq. }
  rewrite E. destruct (Z.testbit w k); [|reflexivity].
  apply Z.eqb_neq. pose proof (Z.pow_pos_nonneg 2 k). lia.
Qed.

Lemma u64_fix w : 0 ≤ w < 2 ^ 64 ↔ w mod 2 ^ 64 = w.
Proof.
  split; [apply Z.mod_small|]. intros <-. apply Z.mod_pos_bound. lia.
Qed.

Lemma u64_high w j : 0 ≤ w < 2 ^ 64 → 64 ≤ j → Z.testbit w j = false.
Proof. intros Hw Hj. apply u64_fix in Hw. rewrite <- Hw. apply Z.mod_pow2_bits_high. lia. Qed.

Lemma lor_u64 a b : 0 ≤ a < 2 ^ 64 → 0 ≤ b < 2 ^ 64 → 0 ≤ Z.lor a b < 2 ^ 64.
Proof.
  intros Ha Hb. apply u64_fix. apply Z.bits_inj'. intros n Hn.
  rewrite Z.testbit_mod_pow2 by lia. destruct (Z.ltb_spec n 64); [reflexivity|].
  cbn [andb]. rewrite Z.lor_spec, (u64_high a), (u64_high b) by assumption. reflexivity.
Qed.

Lemma land_u64 a b : 0 ≤ a < 2 ^ 64 → 0 ≤ Z.land a b < 2 ^ 64.
Proof.
  intros Ha. apply u64_fix. apply Z.bits_inj'. intros n Hn.
  rewrite Z.testbit_mod_pow2 by lia. destruct (Z.ltb_spec n 64); [reflexivity|].
  cbn [andb]. rewrite Z.land_spec, (u64_high a) by assumption. reflexivity.
Qed.

Lemma set_word_bits w k j :
  0 ≤ k → 0 ≤ j → Z.testbit (Z.lor w (2 ^ k)) j = Z.testbit w j || (k =? j).
Proof. intros Hk Hj. now rewrite Z.lor_spec, Z.pow2_bits_eqb. Qed.

Lemma clear_word_bits w k j :
  0 ≤ k → 0 ≤ j < 64 →
  Z.testbit (Z.land w (to_u64 (Z.lnot (2 ^ k)))) j = Z.testbit w j && negb (k =? j).
Proof.
  intros Hk Hj. unfold to_u64.
  rewrite Z.land_spec, Z.testbit_mod_pow2, Z.lnot_spec, Z.pow2_bits_eqb by lia.
  destruct (Z.ltb_spec j 64); [reflexivity|lia].
Qed.

Lemma word_index bit : 0 ≤ bit < MAX_BIT → (Z.to_nat (bit / 64) < 8)%nat.
Proof.
  unfold MAX_BIT. intros H.
  assert (0 ≤ bit / 64 < 8) by (split; [apply Z.div_pos; lia|apply Z.div_lt_upper_bound; lia]).
  lia.
Qed.

Lemma map_ok_spec m :
  map_ok m = true ↔ length m = 8%nat ∧ Forall (λ w, 0 ≤ w < 2 ^ 64) m.
Proof.
  unfold map_ok. rewrite andb_true_iff, Nat.eqb_eq, forallb_forall, Forall_forall.
  split; intros [H1 H2]; (split; [exact H1|]); intros w Hw.
  - apply list_elem_of_In, H2 in Hw. lia.
  - apply list_elem_of_In, H2 in Hw. lia.
Qed.

Lemma map_ok_lookup m bit :
  map_ok m = true → 0 ≤ bit < MAX_BIT →
  ∃ w, m !! Z.to_nat (bit / 64) = Some w ∧ 0 ≤ w < 2 ^ 64.
Proof.
  intros [Hlen Hall]%map_ok_spec Hb. pose proof (word_index bit Hb) as Hi.
  destruct (lookup_lt_is_Some_2 m (Z.to_nat (bit / 64))) as [w Hw]; [lia|].
  exists w. split; [exact Hw|]. rewrite Forall_forall in Hall.
  apply Hall. apply list_elem_of_lookup. eauto.
Qed.

Lemma map_ok_insert m i w :
  map_ok m = true → 0 ≤ w < 2 ^ 64 → map_ok (<[i := w]> m) = true.
Proof.
  intros [Hlen Hall]%map_ok_spec Hw. apply map_ok_spec.
  split; [now rewrite length_insert|].
  apply Forall_insert; assumption.
Qed.

Lemma bit_of_insert m bit w' b' :
  length m = 8%nat → 0 ≤ bit < MAX_BIT → 0 ≤ b' < MAX_BIT →
  bit_of (<[Z.to_nat (bit / 64) := w']> m) b'
  = if b' / 64 =? bit / 64 then Z.testbit w' (b' mod 64) else bit_of m b'.
Proof.
  intros Hlen Hb Hb'. unfold bit_of. pose proof (word_index bit Hb).
  destruct (Z.eqb_spec (b' / 64) (bit / 64)) as [E|E].
  - rewrite E, list_lookup_insert_eq by lia. reflexivity.
  - rewrite list_lookup_insert_ne; [reflexivity|].
    unfold MAX_BIT in *. intros E'. apply E. apply Z2Nat.inj in E'; [congruence| |];
      apply Z.div_pos; lia.
Qed.

Lemma other_bit bit b' :
  b' ≠ bit → b' / 64 = bit / 64 → (bit mod 64 =? b' mod 64) = false.
Proof.
  intros Hne E. apply Z.eqb_neq. intros E'. apply Hne.
  rewrite (Z.div_mod b' 64), (Z.div_mod bit 64) by lia. congruence.
Qed.

Lemma load_word_ok st idx w :
  0 ≤ idx → map st !! Z.to_nat idx = Some w → load_word idx st = Ret (w, st).
Proof.
  intros Hi Hw. unfold load_word. destruct (Z.ltb_spec idx 0); [lia|]. now rewrite Hw.
Qed.

Lemma store_word_ok st idx w w0 :
  0 ≤ idx → map st !! Z.to_nat idx = Some w0 →
  store_word idx w st
  = Ret (tt, TestState (q st) (<[Z.to_nat idx := w]> (map st))
                       (cur_msg st) (num_free st) (errors st)).
Proof.
  intros Hi Hw. unfold store_word. destruct (Z.ltb_spec idx 0); [lia|]. now rewrite Hw.
Qed.

Lemma load_word_fault st idx :
  (length (map st) ≤ Z.to_nat idx)%nat → load_word idx st = Fault.
Proof.
  intros H. unfold load_word. destruct (idx <? 0); [reflexivity|].
  now rewrite (lookup_ge_None_2 _ _ H).
Qed.

Lemma testbit_run st bit :
  map_ok (map st) = true → 0 ≤ bit < MAX_BIT →
  testbit bit st = Ret (bit_of (map st) bit, st).
Proof.
  intros Hok Hb. destruct (map_ok_lookup _ _ Hok Hb) as (w & Hw & _).
  assert (Hidx : 0 ≤ bit / 64) by (apply Z.div_pos; unfold MAX_BIT in Hb; lia).
  pose proof (Z.mod_pos_bound bit 64 ltac:(lia)).
  unfold testbit. mstep (load_word_ok st (bit / 64) w Hidx Hw).
  rewrite bit_mask_pow2, land_pow2_test, negb_involutive by lia.
  unfold bit_of. now rewrite Hw.
Qed.

Lemma setbit_run st bit :
  map_ok (map st) = true → 0 ≤ bit < MAX_BIT →
  ∃ m', setbit bit st
        = Ret (bit_of (map st) bit,
               TestState (q st) m' (cur_msg st) (num_free st) (errors st)) ∧
    map_ok m' = true ∧ bit_of m' bit = true ∧
    ∀ b', 0 ≤ b' < MAX_BIT → b' ≠ bit → bit_of m' b' = bit_of (map st) b'.
Proof.
  intros Hok Hb. destruct (map_ok_lookup _ _ Hok Hb) as (w & Hw & Hwr).
  assert (Hidx : 0 ≤ bit / 64) by (apply Z.div_pos; unfold MAX_BIT in Hb; lia).
  pose proof (Z.mod_pos_bound bit 64 ltac:(lia)) as Hk.
  assert (Hpr : 0 ≤ 2 ^ (bit mod 64) < 2 ^ 64).
  { split; [apply Z.pow_nonneg; lia|apply Z.pow_lt_mono_r; lia]. }
  exists (<[Z.to_nat (bit / 64) := Z.lor w (2 ^ (bit mod 64))]> (map st)).
  split; [|split; [|split]].
  - unfold setbit. mstep (load_word_ok st (bit / 64) w Hidx Hw).
    rewrite bit_mask_pow2.
    rewrite (bind_Ret _ _ _ _ _ (store_word_ok st (bit / 64) _ w Hidx Hw)).
    rewrite land_pow2_test, negb_involutive by lia.
    unfold bit_of. now rewrite Hw.
  - apply map_ok_insert; [exact Hok|]. now apply lor_u64.
  - rewrite bit_of_insert, Z.eqb_refl by (try apply (map_ok_spec _), Hok; assumption).
    rewrite set_word_bits, Z.eqb_refl by lia. apply orb_true_r.
  - intros b' Hb' Hne. rewrite bit_of_insert by (try apply (map_ok_spec _), Hok; assumption).
    destruct (Z.eqb_spec (b' / 64) (bit / 64)) as [E|E]; [|reflexivity].
    pose proof (Z.mod_pos_bound b' 64 ltac:(lia)).
    rewrite set_word_bits, (other_bit _ _ Hne E), orb_false_r by lia.
    unfold bit_of. now rewrite E, Hw.
Qed.

Lemma clearbit_run st bit :
  map_ok (map st) = true → 0 ≤ bit < MAX_BIT →
  ∃ m', clearbit bit st
        = Ret (bit_of (map st) bit,
               TestState (q st) m' (cur_msg st) (num_free st) (errors st)) ∧
    map_ok m' = true ∧ bit_of m' bit = false ∧
    ∀ b', 0 ≤ b' < MAX_BIT → b' ≠ bit → bit_of m' b' = bit_of (map st) b'.
Proof.
  intros Hok Hb. destruct (map_ok_lookup _ _ Hok Hb) as (w & Hw & Hwr).
  assert (Hidx : 0 ≤ bit / 64) by (apply Z.div_pos; unfold MAX_BIT in Hb; lia).
  pose proof (Z.mod_pos_bound bit 64 ltac:(lia)) as Hk.
  exists (<[Z.to_nat (bit / 64)
          := Z.land w (to_u64 (Z.lnot (2 ^ (bit mod 64))))]> (map st)).
  split; [|split; [|split]].
  - unfold clearbit. mstep (load_word_ok st (bit / 64) w Hidx Hw).
    rewrite bit_mask_pow2.
    rewrite (bind_Ret _ _ _ _ _ (store_word_ok st (bit / 64) _ w Hidx Hw)).
    rewrite land_pow2_test, negb_involutive by lia.
    unfold bit_of. now rewrite Hw.
  - apply map_ok_insert; [exact Hok|]. now apply land_u64.
  - rewrite bit_of_insert, Z.eqb_refl by (try apply (map_ok_spec _), Hok; assumption).
    rewrite clear_word_bits, Z.eqb_refl by lia. apply andb_false_r.
  - intros b' Hb' Hne. rewrite bit_of_insert by (try apply (map_ok_spec _), Hok; assumption).
    destruct (Z.eqb_spec (b' / 64) (bit / 64)) as [E|E]; [|reflexivity].
    pose proof (Z.mod_pos_bound b' 64 ltac:(lia)).
    rewrite clear_word_bits, (other_bit _ _ Hne E), andb_true_r by lia.
    unfold bit_of. now rewrite E, Hw.
Qed.

(** X10.  The bit map of the test.  On the eight words of the map and for
    a bit below [MAX_BIT], [testbit] returns the bit, [setbit] and
    [clearbit] return the bit as it was and leave it set and clear, and
    all three leave every other bit and every other global as it was.
    For a bit from [MAX_BIT] on they access a word outside the map. *)
Theorem bitmap_helpers st bit :
  map_ok (map st) = true → 0 ≤ bit →
  (bit < MAX_BIT →
   testbit bit st = Ret (bit_of (map st) bit, st) ∧
   (∃ m', setbit bit st
          = Ret (bit_of (map st) bit,
                 TestState (q st) m' (cur_msg st) (num_free st) (errors st)) ∧
      map_ok m' = true ∧ bit_of m' bit = true ∧
      ∀ b', 0 ≤ b' < MAX_BIT → b' ≠ bit → bit_of m' b' = bit_of (map st) b') ∧
   (∃ m', clearbit bit st
          = Ret (bit_of (map st) bit,
                 TestState (q st) m' (cur_msg st) (num_free st) (errors st)) ∧
      map_ok m' = true ∧ bit_of m' bit = false ∧
      ∀ b', 0 ≤ b' < MAX_BIT → b' ≠ bit → bit_of m' b' = bit_of (map st) b')) ∧
  (MAX_BIT ≤ bit →
   testbit bit st = Fault ∧ setbit bit st = Fault ∧ clearbit bit st = Fault).
Proof.
  intros Hok Hb. split.
  - intros Hlt. split; [now apply testbit_run|].
    split; [now apply setbit_run|now apply clearbit_run].
  - intros Hge. apply map_ok_spec in Hok as [Hlen _]. unfold MAX_BIT in Hge.
    assert (Hi : (length (map st) ≤ Z.to_nat (bit / 64))%nat).
    { rewrite Hlen. assert (8 ≤ bit / 64) by (apply Z.div_le_lower_bound; lia). lia. }
    unfold testbit, setbit, clearbit.
    rewrite !(bind_Fault _ _ _ (load_word_fault st _ Hi)). auto.
Qed.

Lemma bitmap_helpers_witness :
  ∃ m', setbit 70 (TestState (AqState 0 (AtomicQ 0 0 (CP 0 0) (CP 0 0)) ∅ [])
                             [0; 5; 0; 0; 0; 0; 0; 0] 10 0 0)
        = Ret (false, TestState (AqState 0 (AtomicQ 0 0 (CP 0 0) (CP 0 0)) ∅ []) m' 10 0 0) ∧
    bit_of m' 70 = true.
Proof.
  destruct (bitmap_helpers (TestState (AqState 0 (AtomicQ 0 0 (CP 0 0) (CP 0 0)) ∅ [])
                                      [0; 5; 0; 0; 0; 0; 0; 0] 10 0 0) 70)
    as [H _]; [reflexivity|lia|].
  destruct H as (_ & (m' & H1 & _ & H2 & _) & _); [reflexivity|].
  exists m'. split; [exact H1|exact H2].
Defined.

Lemma bind_Spin {S A B} (m : M S A) (k : A → M S B) s :
  m s = Spin → (m ≫= k) s = Spin.
Proof. intros H. unfold mbind, M_bind, bind. now rewrite H. Qed.

Lemma taken_from_spec m c k :
  taken_from m c k = true ↔
  ∀ j, (j < k)%nat → bit_of m ((c + Z.of_nat j) mod MAX_BIT) = true.
Proof.
  unfold taken_from. rewrite forallb_forall. split.
  - intros H j Hj. apply H, in_seq. lia.
  - intros H j Hj. apply in_seq in Hj. apply H. lia.
Qed.

Lemma slot_u64 a j : (to_u64 a + j) mod MAX_BIT = (a + j) mod MAX_BIT.
Proof.
  unfold to_u64, MAX_BIT.
  rewrite (Z.add_mod (a mod 2 ^ 64)) by lia.
  rewrite (Z.mod_mod_divide a (2 ^ 64) 512) by (exists (2 ^ 55); reflexivity).
  now rewrite <- Z.add_mod by lia.
Qed.

Lemma slot_range a : 0 ≤ a mod MAX_BIT < MAX_BIT.
Proof. apply Z.mod_pos_bound. reflexivity. Qed.

Lemma get_msg_loop_run k : ∀ st bound,
  map_ok (map st) = true →
  taken_from (map st) (cur_msg st) k = true →
  bit_of (map st) ((cur_msg st + Z.of_nat k) mod MAX_BIT) = false →
  (k < bound)%nat →
  ∃ m', get_msg_loop bound st
        = Ret ((cur_msg st + Z.of_nat k) mod MAX_BIT,
               TestState (q st) m' (to_u64 (cur_msg st + Z.of_nat k + 1))
                         (num_free st) (errors st)) ∧
    map_ok m' = true ∧
    bit_of m' ((cur_msg st + Z.of_nat k) mod MAX_BIT) = true ∧
    ∀ b', 0 ≤ b' < MAX_BIT → b' ≠ (cur_msg st + Z.of_nat k) mod MAX_BIT →
          bit_of m' b' = bit_of (map st) b'.
Proof.
  induction k as [|k IH]; intros st bound Hok Htk Hfree Hb;
    (destruct bound as [|bound]; [lia|]); cbn [get_msg_loop]; mget.
  - rewrite Z.add_0_r in *.
    set (st1 := TestState (q st) (map st) (to_u64 (cur_msg st + 1)) (num_free st) (errors st)).
    assert (H1 : set_cur_msg (to_u64 (cur_msg st + 1)) st = Ret (tt, st1)) by reflexivity.
    mstep H1.
    destruct (setbit_run st1 (cur_msg st mod MAX_BIT) Hok (slot_range _))
      as (m' & Hset & Hok' & Hbit & Hoth).
    cbn [st1 map] in Hset. rewrite Hfree in Hset. mstep Hset.
    exists m'. split; [reflexivity|]. split; [exact Hok'|]. split; [exact Hbit|exact Hoth].
  - set (st1 := TestState (q st) (map st) (to_u64 (cur_msg st + 1)) (num_free st) (errors st)).
    assert (H1 : set_cur_msg (to_u64 (cur_msg st + 1)) st = Ret (tt, st1)) by reflexivity.
    mstep H1.
    pose proof (proj1 (taken_from_spec _ _ _) Htk) as Htk'.
    assert (Hfirst : bit_of (map st) (cur_msg st mod MAX_BIT) = true).
    { specialize (Htk' 0%nat ltac:(lia)). now rewrite Z.add_0_r in Htk'. }
    destruct (setbit_run st1 (cur_msg st mod MAX_BIT) Hok (slot_range _))
      as (m' & Hset & Hok' & Hbit & Hoth).
    cbn [st1 map q cur_msg num_free errors] in Hset. rewrite Hfirst in Hset. mstep Hset.
    assert (Hsame : ∀ b', 0 ≤ b' < MAX_BIT → bit_of m' b' = bit_of (map st) b').
    { intros b' Hb'. destruct (Z.eq_dec b' (cur_msg st mod MAX_BIT)) as [->|Hne].
      - now rewrite Hbit, Hfirst.
      - now apply Hoth. }
    set (st2 := TestState (q st) m' (to_u64 (cur_msg st + 1)) (num_free st) (errors st)).
    assert (Eslot : ∀ j, (cur_msg st2 + Z.of_nat j) mod MAX_BIT
                         = (cur_msg st + Z.of_nat (S j)) mod MAX_BIT).
    { intros j. cbn [st2 cur_msg]. rewrite slot_u64. f_equal. lia. }
    destruct (IH st2 bound) as (m'' & Hrun & Hok'' & Hbit'' & Hoth'').
    + exact Hok'.
    + apply taken_from_spec. intros j Hj. rewrite Eslot. cbn [st2 map].
      rewrite Hsame by apply slot_range. apply Htk'. lia.
    + rewrite Eslot. cbn [st2 map]. rewrite Hsame by apply slot_range. exact Hfree.
    + lia.
    + rewrite Eslot in Hrun, Hbit'', Hoth''. cbn [st2 q map cur_msg num_free errors] in *.
      exists m''. split; [|split; [exact Hok''|split; [exact Hbit''|]]].
      * assert (Ecur : to_u64 (to_u64 (cur_msg st + 1) + Z.of_nat k + 1)
                       = to_u64 (cur_msg st + Z.of_nat (S k) + 1)).
        { unfold to_u64. rewrite <- Z.add_assoc, Z.add_mod_idemp_l by lia. f_equal. lia. }
        rewrite Hrun, Ecur. reflexivity.
      * intros b' Hb' Hne. rewrite Hoth'' by assumption. now apply Hsame.
Qed.

Lemma get_msg_loop_full : ∀ bound st,
  map_ok (map st) = true →
  (∀ b, 0 ≤ b < MAX_BIT → bit_of (map st) b = true) →
  get_msg_loop bound st = Spin.
Proof.
  induction bound as [|bound IH]; intros st Hok Hall; [reflexivity|].
  cbn [get_msg_loop]. mget.
  set (st1 := TestState (q st) (map st) (to_u64 (cur_msg st + 1)) (num_free st) (errors st)).
  assert (H1 : set_cur_msg (to_u64 (cur_msg st + 1)) st = Ret (tt, st1)) by reflexivity.
  mstep H1.
  destruct (setbit_run st1 (cur_msg st mod MAX_BIT) Hok (slot_range _))
    as (m' & Hset & Hok' & Hbit & Hoth).
  cbn [st1 map q cur_msg num_free errors] in Hset.
  rewrite (Hall _ (slot_range _)) in Hset. mstep Hset.
  apply IH; cbn [map]; [exact Hok'|].
  intros b Hb. destruct (Z.eq_dec b (cur_msg st mod MAX_BIT)) as [->|Hne];
    [exact Hbit|]. rewrite Hoth by assumption. now apply Hall.
Qed.

Lemma get_msg_run msgs st k c bound :
  map_ok (map st) = true →
  taken_from (map st) (cur_msg st) k = true →
  bit_of (map st) ((cur_msg st + Z.of_nat k) mod MAX_BIT) = false →
  els (q st) !! (msgs + msg_size * ((cur_msg st + Z.of_nat k) mod MAX_BIT)) = Some c →
  (k < bound)%nat →
  let r := (cur_msg st + Z.of_nat k) mod MAX_BIT in
  ∃ m', get_msg msgs bound st
        = Ret (msgs + msg_size * r,
               TestState (AqState (mb (q st)) (root (q st))
                                  (<[msgs + msg_size * r := CP (ptr c) 0]> (els (q st)))
                                  (calls (q st)))
                         m' (to_u64 (cur_msg st + Z.of_nat k + 1))
                         (num_free st) (errors st)) ∧
    map_ok m' = true ∧ bit_of m' r = true ∧
    ∀ b', 0 ≤ b' < MAX_BIT → b' ≠ r → bit_of m' b' = bit_of (map st) b'.
Proof.
  intros Hok Htk Hfree Hel Hb r. subst r.
  destruct (get_msg_loop_run k st bound Hok Htk Hfree Hb) as (m' & Hrun & Hok' & Hbit & Hoth).
  exists m'. split; [|split; [exact Hok'|split; [exact Hbit|exact Hoth]]].
  unfold get_msg. mstep Hrun.
  set (r := (cur_msg st + Z.of_nat k) mod MAX_BIT) in *.
  match goal with |- (_ ≫= _) ?s = _ => set (s1 := s) end.
  assert (Hl : lift_q (aq_el_init (msgs + msg_size * r)) s1
               = Ret (tt, TestState (AqState (mb (q st)) (root (q st))
                                 (<[msgs + msg_size * r := CP (ptr c) 0]> (els (q st)))
                                 (calls (q st)))
                        m' (to_u64 (cur_msg st + Z.of_nat k + 1))
                        (num_free st) (errors st))).
  { unfold lift_q, aq_el_init. cbn [s1 q].
    now rewrite (store_el_ctr_ok _ 0 c (q st) Hel). }
  mstep Hl. reflexivity.
Qed.

(** X11.  [get_msg] hands out the first free slot.  When the [k] slots
    from [cur_msg] on are taken and the next one is free, [get_msg]
    sets the bit of that slot, leaves the other bits, advances [cur_msg]
    by [k + 1], zeroes the counter of the message's element and returns
    the message.  When all [MAX_BIT] slots are taken it never returns. *)
Theorem get_msg_finds_free_slot msgs st k c bound :
  map_ok (map st) = true →
  taken_from (map st) (cur_msg st) k = true →
  bit_of (map st) ((cur_msg st + Z.of_nat k) mod MAX_BIT) = false →
  els (q st) !! (msgs + msg_size * ((cur_msg st + Z.of_nat k) mod MAX_BIT)) = Some c →
  (k < bound)%nat →
  let r := (cur_msg st + Z.of_nat k) mod MAX_BIT in
  (∃ m', get_msg msgs bound st
         = Ret (msgs + msg_size * r,
                TestState (AqState (mb (q st)) (root (q st))
                                   (<[msgs + msg_size * r := CP (ptr c) 0]> (els (q st)))
                                   (calls (q st)))
                          m' (to_u64 (cur_msg st + Z.of_nat k + 1))
                          (num_free st) (errors st)) ∧
     map_ok m' = true ∧ bit_of m' r = true ∧
     ∀ b', 0 ≤ b' < MAX_BIT → b' ≠ r → bit_of m' b' = bit_of (map st) b') ∧
  ∀ st', map_ok (map st') = true → taken_from (map st') 0 512 = true →
         ∀ b, get_msg msgs b st' = Spin.
Proof.
  intros Hok Htk Hfree Hel Hb r. split; [now apply get_msg_run|].
  intros st' Hok' Hfull b. unfold get_msg. apply bind_Spin.
  apply get_msg_loop_full; [exact Hok'|].
  intros x Hx. pose proof (proj1 (taken_from_spec _ _ _) Hfull (Z.to_nat x)) as H.
  unfold MAX_BIT in *. rewrite Z2Nat.id, Z.add_0_l, Z.mod_small in H by lia.
  apply H. lia.
Qed.

Lemma get_msg_finds_free_slot_witness :
  ∃ m', get_msg 4096 3
          (TestState (AqState 0 (AtomicQ 0 0 (CP 0 0) (CP 0 0))
                              (<[4480 := CP 7 9]> ∅) [])
                     [3072; 0; 0; 0; 0; 0; 0; 0] 10 0 0)
        = Ret (4480,
               TestState (AqState 0 (AtomicQ 0 0 (CP 0 0) (CP 0 0))
                                  (<[4480 := CP 7 0]> (<[4480 := CP 7 9]> ∅)) [])
                         m' 13 0 0) ∧
    bit_of m' 12 = true.
Proof.
  destruct (get_msg_finds_free_slot 4096
              (TestState (AqState 0 (AtomicQ 0 0 (CP 0 0) (CP 0 0))
                                  (<[4480 := CP 7 9]> ∅) [])
                         [3072; 0; 0; 0; 0; 0; 0; 0] 10 0 0) 2 (CP 7 9) 3)
    as [(m' & H1 & _ & H2 & _) _];
    [reflexivity|reflexivity|reflexivity|reflexivity|lia|].
  exists m'. split; [exact H1|exact H2].
Defined.

Lemma free_atomic_msg_run msgs st i :
  map_ok (map st) = true → 0 ≤ i < MAX_BIT →
  ∃ m', free_atomic_msg msgs 3135106223 (msgs + msg_size * i) st
        = Ret (tt, TestState (q st) m' (cur_msg st) (to_i32 (num_free st + 1))
                             (if bit_of (map st) i then errors st else S (errors st))) ∧
    map_ok m' = true ∧ bit_of m' i = false ∧
    ∀ b', 0 ≤ b' < MAX_BIT → b' ≠ i → bit_of m' b' = bit_of (map st) b'.
Proof.
  intros Hok Hi. unfold free_atomic_msg. mget.
  set (st1 := TestState (q st) (map st) (cur_msg st) (to_i32 (num_free st + 1)) (errors st)).
  assert (H1 : set_num_free (to_i32 (num_free st + 1)) st = Ret (tt, st1)) by reflexivity.
  mstep H1. change (3135106223 =? 3135106223) with true.
  rewrite (bind_Ret _ _ _ _ _ (assert_true st1)).
  assert (Ei : to_u64 ((msgs + msg_size * i - msgs) / msg_size) = i).
  { unfold msg_size, to_u64, MAX_BIT in *.
    replace (msgs + 32 * i - msgs) with (i * 32) by lia.
    rewrite Z.div_mul by lia. apply Z.mod_small. lia. }
  rewrite Ei.
  destruct (clearbit_run st1 i Hok Hi) as (m' & Hclr & Hok' & Hbit & Hoth).
  cbn [st1 q map cur_msg num_free errors] in Hclr. mstep Hclr.
  exists m'. split; [|split; [exact Hok'|split; [exact Hbit|exact Hoth]]].
  destruct (bit_of (map st) i); reflexivity.
Qed.

(** X12.  The callback of the test.  [free_atomic_msg] called with the
    argument that [main] gave to [aq_init] counts the call, clears the
    bit of the message and prints an error exactly when the bit was
    clear already; with any other argument its assertion fails.  After
    [get_msg], the callback on the message returned prints nothing and
    leaves the bit map as it was before [get_msg]. *)
Theorem free_atomic_msg_clears_slot msgs st i :
  map_ok (map st) = true → 0 ≤ i < MAX_BIT →
  (∃ m', free_atomic_msg msgs 3135106223 (msgs + msg_size * i) st
         = Ret (tt, TestState (q st) m' (cur_msg st) (to_i32 (num_free st + 1))
                              (if bit_of (map st) i then errors st else S (errors st))) ∧
     map_ok m' = true ∧ bit_of m' i = false ∧
     ∀ b', 0 ≤ b' < MAX_BIT → b' ≠ i → bit_of m' b' = bit_of (map st) b') ∧
  (∀ arg msg, arg ≠ 3135106223 → free_atomic_msg msgs arg msg st = Abort) ∧
  (∀ k c bound,
     taken_from (map st) (cur_msg st) k = true →
     (cur_msg st + Z.of_nat k) mod MAX_BIT = i → bit_of (map st) i = false →
     els (q st) !! (msgs + msg_size * i) = Some c → (k < bound)%nat →
     ∃ st1 st2,
       get_msg msgs bound st = Ret (msgs + msg_size * i, st1) ∧
       free_atomic_msg msgs 3135106223 (msgs + msg_size * i) st1 = Ret (tt, st2) ∧
       errors st2 = errors st ∧
       ∀ b, 0 ≤ b < MAX_BIT → bit_of (map st2) b = bit_of (map st) b).
Proof.
  intros Hok Hi. split; [now apply free_atomic_msg_run|]. split.
  - intros arg msg Hne. unfold free_atomic_msg. mget.
    set (st1 := TestState (q st) (map st) (cur_msg st) (to_i32 (num_free st + 1)) (errors st)).
    assert (H1 : set_num_free (to_i32 (num_free st + 1)) st = Ret (tt, st1)) by reflexivity.
    mstep H1. destruct (Z.eqb_spec arg 3135106223); [contradiction|]. reflexivity.
  - intros k c bound Htk Hslot Hfree Hel Hb. subst i.
    destruct (get_msg_run msgs st k c bound Hok Htk Hfree Hel Hb)
      as (m' & Hget & Hok' & Hbit & Hoth).
    match type of Hget with _ = Ret (_, ?s) => set (st1 := s) in * end.
    destruct (free_atomic_msg_run msgs st1 _ Hok' Hi) as (m'' & Hfr & _ & Hbit'' & Hoth'').
    cbn [st1 map errors] in Hfr. rewrite Hbit in Hfr.
    eexists st1, _. split; [exact Hget|]. split; [exact Hfr|].
    split; [reflexivity|]. cbn [map]. intros b Hbr.
    destruct (Z.eq_dec b ((cur_msg st + Z.of_nat k) mod MAX_BIT)) as [->|Hne].
    + now rewrite Hbit'', Hfree.
    + cbn [st1 map] in Hoth''. rewrite Hoth'' by assumption. now apply Hoth.
Qed.

Lemma free_atomic_msg_clears_slot_witness :
  ∃ m', free_atomic_msg 4096 3135106223 4480
          (TestState (AqState 0 (AtomicQ 0 0 (CP 0 0) (CP 0 0)) ∅ [])
                     [3072; 0; 0; 0; 0; 0; 0; 0] 10 41 0)
        = Ret (tt, TestState (AqState 0 (AtomicQ 0 0 (CP 0 0) (CP 0 0)) ∅ [])
                             m' 10 42 1) ∧
    bit_of m' 12 = false.
Proof.
  destruct (free_atomic_msg_clears_slot 4096
              (TestState (AqState 0 (AtomicQ 0 0 (CP 0 0) (CP 0 0)) ∅ [])
                         [3072; 0; 0; 0; 0; 0; 0; 0] 10 41 0) 12)
    as [(m' & H1 & _ & H2 & _) _]; [reflexivity|unfold MAX_BIT; lia|].
  exists m'. split; [exact H1|exact H2].
Defined.

End TestPool.

(** ** Operations whose reads are stale *)

Section StaleReads.
Import Queue QueueTrace Examples QueueLag.

Lemma aq_dequeue_split bound st :
  aq_dequeue (S bound) st
  = (aq_dequeue_read ≫= λ p, aq_dequeue_rest bound p.1.1 p.1.2 p.2) st.
Proof.
  unfold aq_dequeue, aq_dequeue_read, aq_dequeue_rest, aq_dequeue_loop_rest.
  cbn [aq_dequeue_loop].
  unfold mbind, M_bind, bind, get, mret, M_ret, ret.
  destruct (load_el (ptr (head (root st))) st) as [[n s1]| | |]; reflexivity.
Qed.

Lemma aq_enqueue_multi_read_split bound el st :
  aq_enqueue_multi (S bound) el st
  = (aq_enqueue_multi_read (S bound) el
     ≫= λ p, aq_enqueue_multi_rest bound el p.1 p.2.1 p.2.2) st.
Proof.
  rewrite aq_enqueue_multi_split.
  unfold aq_enqueue_multi_link, aq_enqueue_multi_read, aq_enqueue_multi_rest,
    aq_enqueue_loop_rest.
  unfold mbind, M_bind, bind, get, mret, M_ret, ret.
  destruct (assert (aligned16 el) st) as [[[] s1]| | |]; try reflexivity.
  destruct (load_el el s1) as [[c s2]| | |]; try reflexivity.
  destruct (assert _ s2) as [[[] s3]| | |]; try reflexivity.
  destruct (aq_chain_last (S bound) el 1 s3) as [[lc s4]| | |]; try reflexivity.
  cbn [aq_enqueue_loop]. unfold mbind, M_bind, bind, get, mret, M_ret, ret.
  destruct (load_el (ptr (tail (root s4))) s4) as [[n s5]| | |]; [|reflexivity..].
  cbn [fst snd].
  destruct (assert (negb (ptr (tail (root s4)) =? el)) s5) as [[[] s6]| | |];
    [|reflexivity..].
  match goal with
  | |- match match ?X with _ => _ end with _ => _ end = _ =>
      destruct X as [[a s7]| | |]; reflexivity
  end.
Qed.

(** The head counter never goes back, and while it keeps its value the
    dummy stays and the queue only grows at the back. *)
Lemma head_stable_step m0 g o :
  op_ok m0 g o = true →
  let g' := ghost_step g o in
  g_count g - Z.of_nat (length (g_live g)) ≤ g_count g' - Z.of_nat (length (g_live g')) ∧
  (g_count g - Z.of_nat (length (g_live g)) = g_count g' - Z.of_nat (length (g_live g')) →
   g_dummy g' = g_dummy g ∧ ∃ extra, g_live g' = g_live g ++ extra).
Proof.
  intros Hok. destruct g as [d l pend cnt]. cbn [g_dummy g_live g_pend g_count] in *.
  destruct o as [el|ch| |el]; cbn [ghost_step g_dummy g_live g_count] in *.
  - rewrite length_app. cbn [length]. split; [lia|]. intros _. eauto.
  - rewrite length_app. split; [lia|]. intros _. eauto.
  - destruct l as [|x l']; cbn [g_dummy g_live g_count length].
    + split; [lia|]. intros _. split; [reflexivity|]. exists []. reflexivity.
    + split; [lia|]. intros E. lia.
  - split; [lia|]. intros _. split; [reflexivity|]. exists []. now rewrite app_nil_r.
Qed.

Lemma head_stable m0 ops : ∀ g,
  valid m0 g ops = true →
  let g' := ghost_run g ops in
  g_count g - Z.of_nat (length (g_live g)) ≤ g_count g' - Z.of_nat (length (g_live g')) ∧
  (g_count g - Z.of_nat (length (g_live g)) = g_count g' - Z.of_nat (length (g_live g')) →
   g_dummy g' = g_dummy g ∧ ∃ extra, g_live g' = g_live g ++ extra).
Proof.
  induction ops as [|o ops IH]; intros g Hv; cbv zeta.
  - cbn [ghost_run]. split; [lia|]. intros _. split; [reflexivity|].
    exists []. now rewrite app_nil_r.
  - cbn [valid] in Hv. apply andb_true_iff in Hv as [Hok Hv].
    destruct (head_stable_step m0 g o Hok) as (Hle1 & Heq1).
    destruct (IH (ghost_step g o) Hv) as (Hle2 & Heq2).
    cbn [ghost_run]. split; [lia|]. intros E.
    destruct (Heq1 ltac:(lia)) as (E1 & ex1 & E2).
    destruct (Heq2 ltac:(lia)) as (E1' & ex2 & E2').
    split; [congruence|]. exists (ex1 ++ ex2). rewrite E2', E2. now rewrite app_assoc.
Qed.

(** X13.  A dequeuer that is interrupted after it read [mb->head],
    [mb->tail] and the dummy's [next], by any valid operations.  When the
    queue was empty at the read and the head has not moved, it returns
    [NULL] and writes nothing, whatever was enqueued meanwhile; in every
    other case it returns what a dequeue started after the interruption
    returns, the front of the list at that time, and leaves the same
    state. *)
Theorem interrupted_dequeue sc ops2 bound :
  scenario_ok sc = true →
  valid (sc_mem sc) (ghost_run (ghost0 sc) (sc_ops sc)) ops2 = true →
  (need (sc_ops sc) ≤ bound)%nat → (need ops2 ≤ bound)%nat →
  ∃ evs st1 h t n evs2 st2 r st3,
    play bound sc = Ret (evs, st1) ∧
    aq_dequeue_read st1 = Ret ((h, t, n), st1) ∧
    run bound ops2 st1 = Ret (evs2, st2) ∧
    aq_dequeue_rest bound h t n st2 = Ret (r, st3) ∧
    (fifo_after [] (sc_ops sc) = [] → head (root st2) = h → r = NULL ∧ st3 = st2) ∧
    (¬ (fifo_after [] (sc_ops sc) = [] ∧ head (root st2) = h) →
     aq_dequeue bound st2 = Ret (r, st3) ∧
     r = hd NULL (fifo_after (fifo_after [] (sc_ops sc)) ops2)).
Proof.
  intros Hsc Hv Hb1 Hb2.
  destruct (play_valid sc bound Hsc Hb1) as (evs & st1 & Hplay & Hinv1 & _ & _ & _ & HT).
  set (m0 := sc_mem sc) in *. set (g1 := ghost_run (ghost0 sc) (sc_ops sc)) in *.
  destruct (run_valid m0 ops2 g1 st1 bound _ _ Hinv1 Hv Hb2 HT)
    as (evs2 & st2 & Hrun2 & Hinv2 & _).
  set (g2 := ghost_run g1 ops2) in *.
  assert (Hq1 : g_live g1 = fifo_after [] (sc_ops sc)) by apply ghost_run_live.
  assert (Hq2 : g_live g2 = fifo_after (fifo_after [] (sc_ops sc)) ops2).
  { unfold g2. now rewrite ghost_run_live, Hq1. }
  rewrite <- Hq2, <- Hq1.
  pose proof (need_ge_1 ops2). destruct bound as [|b]; [lia|].
  (* a dequeue started at [st2] *)
  assert (Hfresh : ∃ r st3, aq_dequeue (S b) st2 = Ret (r, st3) ∧ r = hd NULL (g_live g2)).
  { destruct (g_live g2) as [|y l2] eqn:El2.
    - exists NULL, st2. split; [|reflexivity].
      apply (step_dequeue_empty m0 g2 st2 (S b) Hinv2 El2). lia.
    - destruct (dequeue_explicit m0 g2 st2 y l2 b Hinv2 El2) as (c & _ & Hd).
      eexists _, _. split; [exact Hd|reflexivity]. }
  destruct Hfresh as (rf & stf & Hfresh & Hrf).
  pose proof Hinv1 as [Imb1 _ _ Ihead1 _ Ichain1 Ind1 _ _ _ _ _ _ Ihctr1 _ _ _].
  pose proof Hinv2 as [Imb2 _ _ Ihead2 Itail2 Ichain2 Ind2 _ _ _ _ _ _ Ihctr2 _ _ _].
  assert (Hdec : head (root st2) = head (root st1) ∨ head (root st2) ≠ head (root st1)).
  { destruct (counted_ptr_eq (head (root st2)) (head (root st1))) eqn:E.
    - left. apply counted_ptr_eq_spec in E.
      destruct (head (root st1)), (head (root st2)); cbn in E. destruct E; congruence.
    - right. intros E'. rewrite E', counted_ptr_eq_refl in E. discriminate. }
  destruct Hdec as [Esame|Ediff].
  - (* the head has not moved *)
    destruct (head_stable m0 ops2 g1 Hv) as (_ & Hst). fold g2 in Hst.
    destruct Hst as (Ed & extra & El); [rewrite <- Ihctr1, <- Ihctr2, Esame; reflexivity|].
    destruct (g_live g1) as [|x l1] eqn:El1.
    + (* the queue was empty at the read *)
      destruct Ichain1 as [c Hc].
      exists evs, st1, (head (root st1)), (tail (root st1)), (CP NULL c), evs2, st2, NULL, st2.
      split; [exact Hplay|]. split; [|split; [exact Hrun2|split; [|split]]].
      * unfold aq_dequeue_read. mget. rewrite Ihead1. mstep (load_el_ok _ _ _ Hc).
        reflexivity.
      * unfold aq_dequeue_rest.
        assert (Hl : aq_dequeue_loop_rest (S b) (head (root st1)) (tail (root st1))
                       (CP NULL c) st2 = Ret (None, st2)).
        { unfold aq_dequeue_loop_rest. mget. rewrite Esame, counted_ptr_eq_refl. reflexivity. }
        mstep Hl. reflexivity.
      * auto.
      * intros Hn. exfalso. apply Hn. auto.
    + (* the queue was not empty: the compare and swap on the head succeeds *)
      destruct Ichain1 as (Hx0 & [c1 Hc1] & _).
      rewrite El in Ichain2, Ind2, Hrf. cbn [app hd] in Ichain2, Ind2, Hrf.
      rewrite Ed in Ichain2, Ind2, Ihead2.
      destruct Ichain2 as (_ & [c2 Hc2] & _).
      destruct (dequeue_explicit m0 g2 st2 x (l1 ++ extra) b Hinv2 El) as (c2' & Hc2' & Hd).
      rewrite Ed in Hc2'. unfold run_op in Hd. rewrite Hfresh in Hd.
      injection Hd as Hr Hst.
      exists evs, st1, (head (root st1)), (tail (root st1)), (CP x c1), evs2, st2, rf, stf.
      split; [exact Hplay|]. split; [|split; [exact Hrun2|split; [|split]]].
      * unfold aq_dequeue_read. mget. rewrite Ihead1. mstep (load_el_ok _ _ _ Hc1).
        reflexivity.
      * apply NoDup_cons in Ind1 as [Hd1 _].
        assert (Hdt : ptr (head (root st1)) ≠ ptr (tail (root st1))).
        { destruct Hinv1 as [_ _ _ _ It _ _ _ _ _ _ _ _ _ _ _ _].
          rewrite Ihead1, It, El1, last_cons_cons. intros E. apply Hd1. rewrite E.
          apply last_elem_of. }
        unfold aq_dequeue_rest.
        assert (Hl : aq_dequeue_loop_rest (S b) (head (root st1)) (tail (root st1))
                       (CP x c1) st2
                     = Ret (Some (head (root st1), CP x c1),
                            AqState (mb st2)
                              (AtomicQ (freeer (root st2)) (freeer_arg (root st2))
                                 (CP x (to_i64 (ctr (head (root st2)) + 1))) (tail (root st2)))
                              (els st2) (calls st2))).
        { rewrite <- Esame in Hdt |- *.
          unfold aq_dequeue_loop_rest. mget. rewrite counted_ptr_eq_refl.
          cbn [negb ptr]. destruct (Z.eqb_spec x NULL); [contradiction|].
          destruct (Z.eqb_spec (ptr (head (root st2))) (ptr (tail (root st1))));
            [contradiction|].
          cbn [orb negb]. rewrite (bind_Ret _ _ _ _ _ (assert_true st2)).
          rewrite (bind_Ret _ _ _ _ _ (cas_head_ok x 1 st2 Imb2 ltac:(lia))).
          reflexivity. }
        mstep Hl. cbn [ptr]. rewrite Hst, Hr.
        pose proof Hinv2 as [_ Ifr2 _ _ _ _ _ _ _ _ _ _ _ _ Ii2 _ _].
        rewrite Ihead1.
        erewrite bind_Ret;
          [|apply (aq_el_free_ok (g_dummy g1) (CP x c2')); [exact Hc2'|apply (Ii2 _ _ Hc2')|exact Ifr2]].
        rewrite Ed. reflexivity.
      * intros Hn. discriminate Hn.
      * intros _. rewrite El. cbn [app hd]. split; [exact Hfresh|exact Hrf].
  - (* the head has moved: the pass is abandoned *)
    assert (Hread : ∃ next, aq_dequeue_read st1
                            = Ret ((head (root st1), tail (root st1), next), st1)).
    { assert (is_Some (els st1 !! g_dummy g1)) as [c Hc].
      { destruct (g_live g1); [destruct Ichain1 as [c Hc]|destruct Ichain1 as (_ & [c Hc] & _)];
          eauto. }
      exists c. unfold aq_dequeue_read. mget. rewrite Ihead1. mstep (load_el_ok _ _ _ Hc).
      reflexivity. }
    destruct Hread as (next & Hread).
    exists evs, st1, (head (root st1)), (tail (root st1)), next, evs2, st2, rf, stf.
    split; [exact Hplay|]. split; [exact Hread|]. split; [exact Hrun2|].
    assert (Hrest : aq_dequeue_rest (S b) (head (root st1)) (tail (root st1)) next st2
                    = aq_dequeue (S b) st2).
    { assert (E : counted_ptr_eq (head (root st1)) (head (root st2)) = false).
      { destruct (counted_ptr_eq (head (root st1)) (head (root st2))) eqn:E; [|reflexivity].
        apply counted_ptr_eq_spec in E. exfalso. apply Ediff.
        destruct (head (root st1)), (head (root st2)); cbn in E. destruct E; congruence. }
      assert (Hl : aq_dequeue_loop_rest (S b) (head (root st1)) (tail (root st1)) next st2
                   = aq_dequeue_loop (S b) st2).
      { unfold aq_dequeue_loop_rest. mget. rewrite E. reflexivity. }
      unfold aq_dequeue_rest, aq_dequeue, mbind, M_bind, bind. now rewrite Hl. }
    split; [rewrite Hrest; exact Hfresh|]. split.
    + intros _ E. congruence.
    + intros _. split; [exact Hfresh|exact Hrf].
Qed.

Lemma interrupted_dequeue_witness :
  ∃ evs st1 h t n evs2 st2 st3,
    play 1 (scenario_of [OpEnqueue 32]) = Ret (evs, st1) ∧
    aq_dequeue_read st1 = Ret ((h, t, n), st1) ∧
    run 1 [OpDequeue; OpEnqueue 48] st1 = Ret (evs2, st2) ∧
    aq_dequeue_rest 1 h t n st2 = Ret (48, st3).
Proof.
  destruct (interrupted_dequeue (scenario_of [OpEnqueue 32]) [OpDequeue; OpEnqueue 48] 1)
    as (evs & st1 & h & t & n & evs2 & st2 & r & st3 & H1 & H2 & H3 & H4 & _ & H5);
    [reflexivity|reflexivity|vm_compute; lia|vm_compute; lia|].
  destruct H5 as [_ ->]; [intros [E _]; discriminate E|].
  exists evs, st1, h, t, n, evs2, st2, st3. auto.
Defined.

Lemma cas_el_miss el cell old newptr inc st :
  els st !! el = Some cell → aligned16 el = true → 0 < inc → cell ≠ old →
  cas_el el old newptr inc st = Ret (0, st).
Proof.
  intros H Ha Hi Hne. unfold cas_el. mstep (load_el_ok _ _ _ H).
  rewrite cas_miss by assumption. unfold lift_cas.
  mstep (store_el_ok el cell cell st H). rewrite insert_id by exact H.
  destruct st. reflexivity.
Qed.

(** Linking a chain that is linked already changes nothing. *)
Lemma link_chain_linked ch : ∀ el st,
  chain (els st) el ch → link_chain (el :: ch) st = Ret (tt, st).
Proof.
  induction ch as [|y ch IH]; intros el st H.
  - destruct H as [c Hc]. cbn [link_chain hd].
    mstep (store_el_ptr_ok el NULL _ st Hc). cbn [ctr]. rewrite insert_id by exact Hc.
    destruct st. reflexivity.
  - destruct H as (Hy & [c Hc] & Hl).
    change (link_chain (el :: y :: ch)) with (store_el_ptr el y ≫= λ _, link_chain (y :: ch)).
    mstep (store_el_ptr_ok el y _ st Hc). cbn [ctr]. rewrite insert_id by exact Hc.
    replace (AqState (mb st) (root st) (els st) (calls st)) with st by (now destruct st).
    now apply IH.
Qed.

(** The user may rewrite the elements that neither the queue nor a
    consumer holds, as long as bit 63 of their counters stays clear. *)
Lemma inv_free_ext m0 g st m' :
  inv m0 g st →
  (∀ x, x ∈ busy g → m' !! x = els st !! x) →
  (∀ x, is_Some (m' !! x) ↔ is_Some (els st !! x)) →
  (∀ x c, x ∉ busy g → m' !! x = Some c → 0 ≤ ctr c < 2 ^ 63) →
  inv m0 g (AqState (mb st) (root st) m' (calls st)).
Proof.
  intros [Imb Ifr Idom Ihead Itail Ichain Ind Inodes Ipend Ipl Icount Ilive
          Itctr Ihctr Ii64 Ibit Istamp] Hbusy Hdom Hfree.
  assert (Hdl : ∀ x, x ∈ g_dummy g :: g_live g → x ∈ busy g).
  { intros x Hx. unfold busy. apply elem_of_cons in Hx as [->|Hx];
      [apply list_elem_of_here|apply list_elem_of_further, elem_of_app; now left]. }
  assert (Hbit : ∀ x, x ∉ busy g →
            ¬ ((x = g_dummy g ∧ x ∉ g_pend g) ∨ (x ≠ g_dummy g ∧ x ∈ g_pend g))).
  { intros x Hx [[-> _]|[_ Hp]]; apply Hx; unfold busy;
      [apply list_elem_of_here|apply list_elem_of_further, elem_of_app; now right]. }
  constructor; cbn [mb root els calls]; try assumption.
  - intros x. rewrite Hdom. apply Idom.
  - apply (chain_ext (els st)); [|exact Ichain]. intros x Hx. now apply Hbusy, Hdl.
  - intros x Hx. destruct (Ipl x Hx) as [H1 H2]. split; [exact H1|]. now apply Hdom.
  - intros x c Hc. destruct (decide (x ∈ busy g)) as [Hx|Hx].
    + rewrite Hbusy in Hc by exact Hx. now apply (Ii64 x).
    + pose proof (Hfree x c Hx Hc). unfold is_i64. lia.
  - intros x c Hc. destruct (decide (x ∈ busy g)) as [Hx|Hx].
    + rewrite Hbusy in Hc by exact Hx. now apply Ibit.
    + pose proof (Hfree x c Hx Hc). pose proof (Hbit x Hx). split; [lia|tauto].
  - intros c. rewrite Hbusy by (apply Hdl, last_elem_of). apply Istamp.
Qed.

(** The pass of the enqueuer's loop with values read earlier: whether
    the tail moved or not, and whether the compare and swap on the last
    element's [next] succeeds at once or only in the next pass, the
    chain ends up linked behind the last element. *)
Lemma aq_enqueue_loop_rest_run st el last tl c t tc ct cl bound :
  tail (root st) = CP t tc →
  els st !! t = Some (CP NULL ct) → aligned16 t = true →
  t ≠ el → t ≠ last → els st !! last = Some (CP NULL cl) → ptr tl ≠ el →
  aq_enqueue_loop_rest (S bound) el last tl (CP NULL c) st
  = Ret (CP t tc,
         AqState (mb st) (root st)
           (<[t := CP el (to_i64 (ct + 1))]> (<[last := CP NULL tc]> (els st)))
           (calls st)).
Proof.
  intros Htl Ht Hat Hne Hlast Hcl Htle. unfold aq_enqueue_loop_rest.
  destruct (Z.eqb_spec (ptr tl) el); [contradiction|]. cbn [negb].
  rewrite (bind_Ret _ _ _ _ _ (assert_true st)). mget.
  destruct (counted_ptr_eq tl (tail (root st))) eqn:E; cbn [negb].
  - assert (tl = CP t tc) as ->.
    { apply counted_ptr_eq_spec in E. rewrite Htl in E. destruct tl; cbn in E.
      destruct E; congruence. }
    cbn [ptr ctr]. change (NULL =? NULL) with true. cbv iota.
    mstep (store_el_ctr_ok last tc _ st Hcl). cbn [ptr].
    match goal with |- (_ ≫= _) ?s = _ => set (st1 := s) end.
    assert (Ht1 : els st1 !! t = Some (CP NULL ct))
      by (cbn [st1 els]; rewrite lookup_insert_ne by congruence; exact Ht).
    destruct (Z.eq_dec c ct) as [->|Hc].
    + mstep (cas_el_ok t (CP NULL ct) el 1 st1 Ht1 Hat ltac:(lia)). reflexivity.
    + erewrite bind_Ret;
        [|apply (cas_el_miss t (CP NULL ct)); [exact Ht1|exact Hat|lia|congruence]].
      change (0 =? 0) with true. cbv iota.
      rewrite (aq_enqueue_loop_run st1 el last t tc ct tc bound Htl Ht1 Hat Hne Hlast
                 (lookup_insert_eq _ _ _)).
      cbn [st1 mb root els calls]. now rewrite insert_insert_eq.
  - now apply aq_enqueue_loop_run with (cl := cl).
Qed.

(** On a state of a valid trace, the rest of an enqueue whose reads are
    stale does what the whole enqueue does. *)
Lemma enqueue_rest_seq m0 g st el ch' tl c b :
  inv m0 g st → chain_ok m0 g (el :: ch') = true → chain (els st) el ch' →
  ptr tl ≠ el → (length ch' ≤ b)%nat →
  aq_enqueue_multi_rest (S b) el (List.last ch' el, 1 + Z.of_nat (length ch')) tl (CP NULL c) st
  = run_op (S b) (OpEnqueueMulti (el :: ch')) st ∧
  aq_enqueue_multi (S b) el st = run_op (S b) (OpEnqueueMulti (el :: ch')) st.
Proof.
  intros Hinv Hok Hch Htl Hb.
  pose proof (link_chain_linked ch' el st Hch) as Hlinked.
  destruct (enqueue_setup m0 g st _ Hinv Hok)
    as (el0 & ch0 & m1 & ct & cel & E & Hlink & Hout & Hin & _ & Hct & _ & Htn & Hta
        & Hela & _ & _ & _ & Hnd & Hbusy).
  injection E as <- <-.
  destruct (link_explicit m0 g st (el :: ch') (S b) Hinv Hok ltac:(cbn [length]; lia))
    as (el0 & ch0 & m1' & ct' & E & Hlink' & Hct' & Hlk & Hrun & _).
  injection E as <- <-.
  assert (ct' = ct) as -> by congruence.
  rewrite Hlinked in Hlink'. injection Hlink' as Em1.
  assert (m1' = els st) as -> by (rewrite Em1; reflexivity). clear Em1 Hlink.
  cbv zeta in Hlk, Hrun.
  pose proof Hinv as [Imb _ _ _ Itail Ichain _ _ _ _ _ _ Itctr _ _ _ _].
  set (t := List.last (g_live g) (g_dummy g)) in *.
  assert (Etl : tail (root st) = CP t (g_count g)).
  { destruct (tail (root st)); cbn [ptr ctr] in *. congruence. }
  assert (Hne : t ≠ el) by (intros E; apply Htn, elem_of_cons; left; exact E).
  assert (Hlast : t ≠ List.last ch' el).
  { intros E. apply Htn. fold t. rewrite E. apply last_elem_of. }
  destruct (chain_last_null _ _ _ Hch) as [cl Hcl].
  (* the compare and swap on the tail, from the whole enqueue *)
  assert (Hseq : aq_enqueue_multi (S b) el st
                 = run_op (S b) (OpEnqueueMulti (el :: ch')) st).
  { unfold run_op. mstep Hlinked. reflexivity. }
  split; [|exact Hseq].
  rewrite (bind_Ret _ _ _ _ _ Hlinked) in Hlk. cbn [hd] in Hlk.
  rewrite <- Hseq, aq_enqueue_multi_split. mstep Hlk. cbn [fst snd].
  unfold aq_enqueue_multi_rest. cbn [fst].
  rewrite (bind_Ret _ _ _ _ _
             (aq_enqueue_loop_rest_run st el _ tl c t (g_count g) ct cl b
                Etl Hct Hta Hne Hlast Hcl Htl)).
  rewrite Etl, last_cons_cons.
  replace (Z.of_nat (length (el :: ch'))) with (1 + Z.of_nat (length ch'))
    by (cbn [length]; lia).
  reflexivity.
Qed.

(** X14.  An enqueuer that is interrupted after it walked its chain and
    read [mb->tail] and the last element's [next], before its first
    compare and swap, by any valid operations that leave its chain
    alone.  Whether the tail moved meanwhile or not, and whether the last
    element's counter changed or not, it ends in the state and returns
    the value of an enqueue started after the interruption: the chain is
    appended to the list as the operations in between left it. *)
Theorem interrupted_enqueue_before_link sc ch ops2 bound :
  scenario_ok sc = true →
  chain_ok (sc_mem sc) (ghost_run (ghost0 sc) (sc_ops sc)) ch = true →
  valid (sc_mem sc) (ghost_run (ghost0 sc) (sc_ops sc)) ops2 = true →
  chain_ok (sc_mem sc) (ghost_run (ghost_run (ghost0 sc) (sc_ops sc)) ops2) ch = true →
  forallb (λ x, negb (inb x (enqueued ops2))) ch = true →
  (need (sc_ops sc) ≤ bound)%nat → (need ops2 ≤ bound)%nat → (length ch < bound)%nat →
  ∃ evs st1 p st1' evs2 st2 r st3,
    play bound sc = Ret (evs, st1) ∧
    (link_chain ch ≫= λ _, aq_enqueue_multi_read bound (hd NULL ch)) st1 = Ret (p, st1') ∧
    run bound ops2 st1' = Ret (evs2, st2) ∧
    map ev_result evs2 = fifo_run (fifo_after [] (sc_ops sc)) ops2 ∧
    aq_enqueue_multi_rest bound (hd NULL ch) p.1 p.2.1 p.2.2 st2 = Ret (r, st3) ∧
    aq_enqueue_multi bound (hd NULL ch) st2 = Ret (r, st3) ∧
    r = Z.of_nat (length (fifo_after (fifo_after [] (sc_ops sc)) ops2 ++ ch)) ∧
    chain (els st3) (ptr (head (root st3)))
          (fifo_after (fifo_after [] (sc_ops sc)) ops2 ++ ch).
Proof.
  intros Hsc Hok1 Hv Hok2 Hfresh Hb1 Hb2 Hb3.
  destruct (play_valid sc bound Hsc Hb1) as (evs & st1 & Hplay & Hinv1 & _ & _ & _ & HT).
  set (m0 := sc_mem sc) in *. set (g1 := ghost_run (ghost0 sc) (sc_ops sc)) in *.
  set (g2 := ghost_run g1 ops2) in *.
  assert (Hq1 : g_live g1 = fifo_after [] (sc_ops sc)) by apply ghost_run_live.
  assert (Hq2 : g_live g2 = fifo_after (fifo_after [] (sc_ops sc)) ops2).
  { unfold g2. now rewrite ghost_run_live, Hq1. }
  rewrite <- Hq2, <- Hq1.
  destruct (enqueue_setup m0 g1 st1 ch Hinv1 Hok1)
    as (el & ch' & m1 & ct & cel & -> & Hlink & Hout & Hin & Hch & Hct & Hm1t & Htn & Hta
        & Hela & Hm1el & Hi & Hpos & Hnd & Hbusy).
  destruct (chain_ok_spec _ _ _ Hok1) as (_ & _ & Hall1 & Hcnt1).
  pose proof Hinv1 as [Imb1 _ Idom1 _ Itail1 _ _ _ _ _ Icount1 _ Itctr1 _ Ii1 Ibit1 _].
  cbn [hd length] in *. destruct bound as [|b]; [lia|].
  set (t := List.last (g_live g1) (g_dummy g1)) in *.
  set (st1' := AqState (mb st1) (root st1) m1 (calls st1)).
  (* the reads *)
  assert (Hread : aq_enqueue_multi_read (S b) el st1'
                  = Ret (((List.last ch' el, 1 + Z.of_nat (length ch')),
                          (tail (root st1), CP NULL ct)), st1')).
  { unfold aq_enqueue_multi_read. rewrite Hela.
    rewrite (bind_Ret _ _ _ _ _ (assert_true st1')).
    mstep (load_el_ok el cel st1' Hm1el).
    rewrite handshake_assert_test by assumption.
    replace (0 <=? ctr cel) with true by (symmetry; now apply Z.leb_le).
    rewrite (bind_Ret _ _ _ _ _ (assert_true st1')).
    rewrite (bind_Ret _ _ _ _ _
               (aq_chain_last_ok ch' el 1 (S b) st1' Hch Hnd ltac:(lia) ltac:(lia) ltac:(lia))).
    mget. cbn [st1' root]. rewrite Itail1. fold t.
    assert (Hl : load_el t st1' = Ret (CP NULL ct, st1')) by (now apply load_el_ok).
    mstep Hl. reflexivity. }
  (* the interruption *)
  assert (Hfree1 : ∀ x, x ∈ el :: ch' → x ∉ busy g1).
  { intros x Hx. apply (Hall1 x Hx). }
  assert (Hinv1' : inv m0 g1 st1').
  { apply inv_free_ext; [exact Hinv1| | |].
    - intros x Hx. apply Hout. intros Hin'. now apply (Hfree1 x Hin').
    - intros x. destruct (decide (x ∈ el :: ch')) as [Hx|Hx].
      + destruct (Hin x Hx) as (c & p & H1 & H2). rewrite H1, H2. split; eauto.
      + now rewrite Hout.
    - intros x c Hx Hc. destruct (decide (x ∈ el :: ch')) as [Hx'|Hx'].
      + destruct (Hin x Hx') as (c0 & p & H1 & H2). rewrite Hc in H2. injection H2 as ->.
        cbn [ctr]. pose proof (Ii1 _ _ H1) as Hr. unfold is_i64 in Hr.
        destruct (Z.lt_ge_cases (ctr c0) 0) as [Hneg|]; [|lia].
        apply (Ibit1 _ _ H1) in Hneg. exfalso. apply Hx. unfold busy.
        destruct Hneg as [[-> _]|[_ Hp]];
          [apply list_elem_of_here|apply list_elem_of_further, elem_of_app; now right].
      + rewrite Hout in Hc by exact Hx'. pose proof (Ii1 _ _ Hc) as Hr. unfold is_i64 in Hr.
        destruct (Z.lt_ge_cases (ctr c) 0) as [Hneg|]; [|lia].
        apply (Ibit1 _ _ Hc) in Hneg. exfalso. apply Hx. unfold busy.
        destruct Hneg as [[-> _]|[_ Hp]];
          [apply list_elem_of_here|apply list_elem_of_further, elem_of_app; now right]. }
  assert (HT1 : tally g1 (passed evs) (λ x, (preset (sc_dummy sc) x + released evs x)%nat) st1')
    by exact HT.
  destruct (run_valid m0 ops2 g1 st1' (S b) _ _ Hinv1' Hv Hb2 HT1)
    as (evs2 & st2 & Hrun2 & Hinv2 & _ & Hres2 & _).
  fold g2 in Hinv2.
  (* the chain is as the enqueuer left it *)
  assert (Hch2 : chain (els st2) el ch').
  { apply (chain_ext m1); [|exact Hch]. intros x Hx.
    apply (run_frame m0 ops2 g1 st1' (S b) evs2 st2 x Hinv1' Hv Hb2 Hrun2 (Hfree1 x Hx)).
    rewrite forallb_forall in Hfresh. apply list_elem_of_In, Hfresh in Hx.
    apply negb_true_iff in Hx. now apply inb_false. }
  assert (Htl : ptr (tail (root st1)) ≠ el).
  { rewrite Itail1. fold t. intros E. apply Htn, elem_of_cons. left. exact E. }
  destruct (enqueue_rest_seq m0 g2 st2 el ch' (tail (root st1)) ct b Hinv2 Hok2 Hch2 Htl
              ltac:(lia)) as [Hrest Hseq].
  destruct (step_enqueue_multi m0 g2 st2 (el :: ch') (S b) Hinv2 Hok2 ltac:(cbn [length]; lia))
    as (st3 & Hrun3 & Hinv3 & _).
  exists evs, st1, ((List.last ch' el, 1 + Z.of_nat (length ch')), (tail (root st1), CP NULL ct)),
         st1', evs2, st2, (Z.of_nat (length (g_live g2 ++ el :: ch'))), st3.
  split; [exact Hplay|]. split; [mstep Hlink; exact Hread|]. split; [exact Hrun2|].
  split; [exact Hres2|]. cbn [fst snd].
  split; [now rewrite Hrest|]. split; [now rewrite Hseq|]. split; [reflexivity|].
  destruct Hinv3 as [_ _ _ Ih _ Ichain3 _ _ _ _ _ _ _ _ _ _ _].
  rewrite Ih. exact Ichain3.
Qed.

Lemma interrupted_enqueue_before_link_witness :
  ∃ evs st1 p st1' evs2 st2 st3,
    play 3 (scenario_of [OpEnqueue 32]) = Ret (evs, st1) ∧
    (link_chain [48; 64] ≫= λ _, aq_enqueue_multi_read 3 48) st1 = Ret (p, st1') ∧
    run 3 [OpDequeue; OpRelease 32; OpEnqueue 80] st1' = Ret (evs2, st2) ∧
    map ev_result evs2 = [32; 0; 1] ∧
    aq_enqueue_multi_rest 3 48 p.1 p.2.1 p.2.2 st2 = Ret (3, st3) ∧
    chain (els st3) (ptr (head (root st3))) [80; 48; 64].
Proof.
  destruct (interrupted_enqueue_before_link (scenario_of [OpEnqueue 32]) [48; 64]
              [OpDequeue; OpRelease 32; OpEnqueue 80] 3)
    as (evs & st1 & p & st1' & evs2 & st2 & r & st3 & H1 & H2 & H3 & H4 & H5 & _ & Hr & H6);
    [reflexivity|reflexivity|reflexivity|reflexivity|reflexivity
    |vm_compute; lia|vm_compute; lia|cbn [length]; lia|].
  exists evs, st1, p, st1', evs2, st2, st3.
  split; [exact H1|]. split; [exact H2|]. split; [exact H3|]. split; [exact H4|].
  split; [|exact H6]. rewrite Hr in H5. exact H5.
Defined.

End StaleReads.
(** ** Misuse that the assertions do and do not catch *)

Section Misuse.
Import Ccas Queue QueueTrace Examples QueueLag.

Lemma chain_cut m m' d : ∀ l1 el l2 c,
  chain m d (l1 ++ el :: l2) →
  (∀ x, x ∈ d :: l1 → m' !! x = m !! x) → m' !! el = Some (CP NULL c) →
  chain m' d (l1 ++ [el]).
Proof.
  intros l1. revert d. induction l1 as [|y l1 IH]; intros d el l2 c H Hsame Hel.
  - cbn [app chain] in *. destruct H as (He & [c0 Hc] & _).
    split; [exact He|]. split; [|eauto].
    exists c0. rewrite Hsame; [exact Hc|apply list_elem_of_here].
  - cbn [app chain] in *. destruct H as (Hy & [c0 Hc] & Hl).
    split; [exact Hy|]. split.
    + exists c0. rewrite Hsame; [exact Hc|apply list_elem_of_here].
    + apply (IH _ _ _ c Hl); [|exact Hel]. intros x Hx. apply Hsame.
      now apply list_elem_of_further.
Qed.

(** X15.  What the assertions of [aq_enqueue] catch when an element is
    enqueued that is in the queue already (fewer than 2^63 - 1 elements
    having been enqueued so far).  If it is the last element,
    the assertion that the tail is not the element fails.  If it is
    further up, nothing is noticed: the enqueue cuts the queue behind
    the element, links the element behind the old last one and returns
    one more than the length; from the head only the elements up to it
    are reachable, while the elements that were behind it are lost and
    [aq_queued] still counts them. *)
Theorem aq_enqueue_twice sc el l1 l2 bound b :
  scenario_ok sc = true → (need (sc_ops sc) ≤ bound)%nat →
  fifo_after [] (sc_ops sc) = l1 ++ el :: l2 →
  (g_count (ghost_run (ghost0 sc) (sc_ops sc)) + 1 <? 2 ^ 63) = true →
  ∃ evs st, play bound sc = Ret (evs, st) ∧
    (l2 = [] → aq_enqueue (S b) el st = Abort) ∧
    (l2 ≠ [] → ∃ st',
       aq_enqueue (S b) el st = Ret (Z.of_nat (length (l1 ++ el :: l2)) + 1, st') ∧
       chain (els st') (ptr (head (root st'))) (l1 ++ [el]) ∧
       aq_queued st' = Ret (Z.of_nat (length (l1 ++ el :: l2)) + 1, st')).
Proof.
  intros Hsc Hb Hl Hcnt. apply Z.ltb_lt in Hcnt.
  destruct (play_valid sc bound Hsc Hb) as (evs & st & Hplay & Hinv & _).
  set (g := ghost_run (ghost0 sc) (sc_ops sc)) in *.
  assert (Hq : g_live g = l1 ++ el :: l2) by (unfold g; now rewrite ghost_run_live).
  pose proof Hinv as [Imb Ifr Idom Ihead Itail Ichain Ind Inodes Ipend Ipl Icount Ilive
                      Itctr Ihctr Ii64 Ibit Istamp].
  rewrite Hq in *.
  assert (Hel_in : el ∈ g_dummy g :: l1 ++ el :: l2).
  { apply list_elem_of_further, elem_of_app. right. apply list_elem_of_here. }
  destruct (Inodes el Hel_in) as [Hel0 Hela].
  destruct (chain_alloc _ _ _ Ichain el Hel_in) as [cel Hcel].
  apply NoDup_cons in Ind as [Hd Hnd].
  assert (Hed : el ≠ g_dummy g).
  { intros E. apply Hd. rewrite <- E. apply elem_of_app. right. apply list_elem_of_here. }
  assert (Hpos : 0 ≤ ctr cel).
  { destruct (Z.lt_ge_cases (ctr cel) 0) as [Hneg|]; [|assumption].
    apply (Ibit _ _ Hcel) in Hneg. destruct Hneg as [[E _]|[_ Hp]]; [contradiction|].
    exfalso. apply (Ipl el Hp). apply elem_of_app. right. apply list_elem_of_here. }
  pose proof (Ii64 _ _ Hcel) as Hi.
  set (s1 := AqState (mb st) (root st) (<[el := CP NULL (ctr cel)]> (els st)) (calls st)).
  assert (Hs1 : store_el_ptr el NULL st = Ret (tt, s1)) by exact (store_el_ptr_ok el NULL cel st Hcel).
  assert (Hl1 : els s1 !! el = Some (CP NULL (ctr cel))) by apply lookup_insert_eq.
  exists evs, st. split; [exact Hplay|]. split.
  - (* the element is the last one *)
    intros ->. rewrite last_app_cons in Itail. cbn [List.last] in Itail.
    unfold aq_enqueue. mstep Hs1. unfold aq_enqueue_multi. rewrite Hela.
    rewrite (bind_Ret _ _ _ _ _ (assert_true s1)). mstep (load_el_ok _ _ _ Hl1).
    cbn [ctr]. rewrite handshake_assert_test by assumption.
    replace (0 <=? ctr cel) with true by (symmetry; now apply Z.leb_le).
    rewrite (bind_Ret _ _ _ _ _ (assert_true s1)).
    assert (Hlast : aq_chain_last (S b) el 1 s1 = Ret ((el, 1), s1)).
    { cbn [aq_chain_last]. mstep (load_el_ok _ _ _ Hl1). reflexivity. }
    mstep Hlast. cbn [fst snd]. apply bind_Abort.
    cbn [aq_enqueue_loop]. mget. cbn [s1 root]. rewrite Itail.
    mstep (load_el_ok _ _ _ Hl1). apply bind_Abort.
    unfold assert. now rewrite Z.eqb_refl.
  - (* the element is further up *)
    intros Hne. destruct l2 as [|y l2]; [congruence|]. clear Hne.
    rewrite last_app_cons, last_cons_cons in Itail.
    set (t := List.last l2 y) in *.
    assert (Ht_in : t ∈ y :: l2) by apply last_elem_of.
    apply NoDup_app in Hnd as (_ & Hdisj & Hnd2). apply NoDup_cons in Hnd2 as [Hel2 _].
    assert (Hte : t ≠ el) by (intros E; apply Hel2; now rewrite <- E).
    destruct (chain_last_null _ _ _ Ichain) as [ct Hct].
    rewrite last_app_cons, last_cons_cons in Hct. fold t in Hct.
    assert (Hta : aligned16 t = true).
    { apply Inodes. apply list_elem_of_further, elem_of_app. right.
      now apply list_elem_of_further. }
    destruct (tail (root st)) as [tp tc] eqn:Etl. cbn [ptr ctr] in *. subst tp tc.
    assert (Hlen : Z.of_nat (length (l1 ++ el :: y :: l2)) < 2 ^ 63) by lia.
    pose proof (aq_enqueue_multi_run s1 el [] t (g_count g) ct (CP NULL (ctr cel)) (S b)
                  Imb Etl ltac:(cbn [s1 els]; rewrite lookup_insert_ne by congruence; exact Hct)
                  Hta Hela Hl1 Hi Hpos (ex_intro _ _ Hl1) (NoDup_singleton el)
                  ltac:(intros Hin; apply list_elem_of_singleton in Hin; contradiction)
                  ltac:(cbn [length]; lia) ltac:(cbn [length]; lia)) as Hrun.
    cbn [length List.last Z.of_nat] in Hrun. rewrite Z.add_0_r in Hrun.
    cbn [s1 mb root els calls] in Hrun.
    rewrite (to_i64_id (g_count g + 1)) in Hrun by (unfold is_i64; lia).
    rewrite Ihctr in Hrun.
    rewrite to_i64_id in Hrun by (unfold is_i64; lia).
    replace (g_count g + 1 - (g_count g - Z.of_nat (length (l1 ++ el :: y :: l2))))
      with (Z.of_nat (length (l1 ++ el :: y :: l2)) + 1) in Hrun by lia.
    eexists. split; [unfold aq_enqueue; mstep Hs1; exact Hrun|].
    cbn [root head els ptr]. split.
    + rewrite Ihead. apply (chain_cut (els st) _ _ l1 el (y :: l2) (g_count g) Ichain).
      * intros x Hx.
        assert (x ≠ t).
        { intros ->. apply elem_of_cons in Hx as [E|Hx].
          - apply Hd. rewrite <- E. apply elem_of_app. right.
            now apply list_elem_of_further.
          - apply (Hdisj _ Hx). now apply list_elem_of_further. }
        assert (x ≠ el).
        { intros ->. apply elem_of_cons in Hx as [E|Hx]; [contradiction|].
          apply (Hdisj _ Hx). apply list_elem_of_here. }
        now rewrite !lookup_insert_ne by congruence.
      * rewrite lookup_insert_ne by congruence. apply lookup_insert_eq.
    + rewrite aq_queued_run. cbn [root tail head ctr]. rewrite Ihctr.
      rewrite to_i64_id; [do 2 f_equal; lia|unfold is_i64; lia].
Qed.

Lemma aq_enqueue_twice_witness :
  ∃ evs st, play 1 (scenario_of [OpEnqueue 32; OpEnqueue 48; OpEnqueue 64]) = Ret (evs, st) ∧
    aq_enqueue 1 64 st = Abort ∧
    ∃ st', aq_enqueue 1 32 st = Ret (4, st') ∧
      chain (els st') (ptr (head (root st'))) [32] ∧ aq_queued st' = Ret (4, st').
Proof.
  destruct (aq_enqueue_twice (scenario_of [OpEnqueue 32; OpEnqueue 48; OpEnqueue 64])
              64 [32; 48] [] 1 0) as (evs & st & H1 & H2 & _);
    [reflexivity|vm_compute; lia|reflexivity|reflexivity|].
  destruct (aq_enqueue_twice (scenario_of [OpEnqueue 32; OpEnqueue 48; OpEnqueue 64])
              32 [] [48; 64] 1 0) as (evs' & st' & H1' & _ & H3);
    [reflexivity|vm_compute; lia|reflexivity|reflexivity|].
  rewrite H1 in H1'. injection H1' as <- <-.
  exists evs, st. split; [exact H1|]. split; [now apply H2|].
  apply H3. congruence.
Defined.

Lemma aq_el_free_null_callback st el c :
  freeer (root st) = NULL → els st !! el = Some c → is_i64 (ctr c) → ctr c < 0 →
  aq_el_free el st = Fault.
Proof.
  intros Hf Hel Hi Hc. unfold aq_el_free. mstep (load_el_ok _ _ _ Hel).
  rewrite fetch_xor_value, fetch_xor_test by assumption.
  erewrite bind_Ret; [|apply (store_el_ok el _ c); exact Hel].
  destruct (Z.leb_spec 0 (ctr c)); [lia|].
  unfold call_freeer. cbn [root]. now rewrite Hf.
Qed.

(** X16.  [aq_init] does not look at the callback.  With a null
    callback the queue is set up and an element can be enqueued, but the
    first dequeue that finds an element faults: it has moved the head
    already when it releases the initial dummy, whose bit [aq_init]
    preset, through the null pointer. *)
Theorem null_callback_faults st dummy arg el c cel b :
  aligned16 (mb st) = true → aligned16 dummy = true → aligned16 el = true →
  el ≠ NULL → dummy ≠ el →
  els st !! dummy = Some c → els st !! el = Some cel → 0 ≤ ctr cel < 2 ^ 63 →
  ∃ st1 st2,
    aq_init dummy NULL arg st = Ret (tt, st1) ∧
    aq_enqueue (S b) el st1 = Ret (1, st2) ∧
    aq_dequeue_loop (S b) st2
    = Ret (Some (CP dummy 0, CP el (to_i64 (- 2 ^ 63 + 1))),
           AqState (mb st2)
             (AtomicQ NULL arg (CP el 1) (tail (root st2))) (els st2) (calls st2)) ∧
    aq_dequeue (S b) st2 = Fault.
Proof.
  intros Hmb Hda Hela Hel0 Hde Hd Hel Hc.
  pose proof (aq_init_run st dummy NULL arg c Hmb Hda Hd) as Hinit.
  match type of Hinit with _ = Ret (_, ?s) => set (st1 := s) in * end.
  assert (Hel1 : els st1 !! el = Some cel).
  { cbn [st1 els]. now rewrite lookup_insert_ne by congruence. }
  set (s1 := AqState (mb st1) (root st1) (<[el := CP NULL (ctr cel)]> (els st1)) (calls st1)).
  assert (Hs1 : store_el_ptr el NULL st1 = Ret (tt, s1))
    by exact (store_el_ptr_ok el NULL cel st1 Hel1).
  assert (Hl1 : els s1 !! el = Some (CP NULL (ctr cel))) by apply lookup_insert_eq.
  assert (Hd1 : els s1 !! dummy = Some (CP NULL (- 2 ^ 63))).
  { cbn [s1 st1 els]. rewrite lookup_insert_ne by congruence. apply lookup_insert_eq. }
  pose proof (aq_enqueue_multi_run s1 el [] dummy 0 (- 2 ^ 63) (CP NULL (ctr cel)) (S b)
                Hmb eq_refl Hd1 Hda Hela Hl1 ltac:(unfold is_i64; cbn [ctr]; lia)
                ltac:(cbn [ctr]; lia) (ex_intro _ _ Hl1) (NoDup_singleton el)
                ltac:(intros Hin; apply list_elem_of_singleton in Hin; contradiction)
                ltac:(cbn [length]; lia) ltac:(cbn [length]; lia)) as Hrun.
  cbn [length List.last Z.of_nat s1 st1 mb root els calls head ctr freeer freeer_arg] in Hrun.
  change (to_i64 (to_i64 (0 + (1 + 0)) - 0)) with 1 in Hrun.
  change (to_i64 (0 + (1 + 0))) with 1 in Hrun.
  match type of Hrun with _ = Ret (_, ?s) => set (st2 := s) in * end.
  assert (Hd2 : els st2 !! dummy = Some (CP el (to_i64 (- 2 ^ 63 + 1))))
    by apply lookup_insert_eq.
  pose proof (aq_dequeue_loop_run st2 dummy 0 el (to_i64 (- 2 ^ 63 + 1)) b
                Hmb eq_refl Hd2 Hel0 Hde) as Hloop.
  exists st1, st2. split; [exact Hinit|]. split; [|split].
  - unfold aq_enqueue. mstep Hs1. exact Hrun.
  - exact Hloop.
  - unfold aq_dequeue. mstep Hloop. cbn [ptr]. apply bind_Fault.
    apply (aq_el_free_null_callback _ dummy (CP el (to_i64 (- 2 ^ 63 + 1))));
      [reflexivity|exact Hd2|apply to_i64_range|reflexivity].
Qed.

Lemma null_callback_faults_witness :
  ∃ st1 st2,
    aq_init 16 NULL 7 (AqState 4096 garbage pool []) = Ret (tt, st1) ∧
    aq_enqueue 1 32 st1 = Ret (1, st2) ∧ aq_dequeue 1 st2 = Fault.
Proof.
  destruct (null_callback_faults (AqState 4096 garbage pool []) 16 7 32
              (CP NULL 0) (CP NULL 0) 0)
    as (st1 & st2 & H1 & H2 & _ & H3);
    [reflexivity|reflexivity|reflexivity|discriminate|discriminate
    |reflexivity|reflexivity|cbn [ctr]; lia|].
  exists st1, st2. auto.
Defined.

End Misuse.
